(** * IndianTradeMart frontend: SEO slugs, subdomain routing, category
      resolution and the lead popup hook

    A shallow embedding of the TypeScript sources
      - [toSlug], [buildDirectorySeoPath]      (directory/utils, SEO slug utilities)
      - [parseSeoSlug]                         (directory catch-all page)
      - [resolveCategoryPathForService]        (category resolver utility)
      - [middleware]                           (middleware.ts)
      - [useLeadPopup]                         (buyer/lead/hooks/useLeadPopup.ts)
    followed by the properties proved about them.

    Strings.  A JavaScript string is a sequence of UTF-16 code units.  The
    embedding uses [string]; the character [ascii_of_nat n] stands for the code
    unit U+00nn, so the model covers the strings whose code units are below
    256.  On that range [toLowerCase], [trim] and the regular-expression class
    [\s] are written out in full below. *)

From Stdlib Require Import String Ascii List Bool Arith NArith Lia.
Import ListNotations.
Open Scope string_scope.
Open Scope bool_scope.
Open Scope nat_scope.

(* ================================================================== *)
(** * Definitions *)
(* ================================================================== *)

(** ** The JavaScript string operations the sources use *)

Module JS.

(** Code unit of a character. *)
Definition code (c : ascii) : nat := nat_of_ascii c.

Definition between (lo hi : nat) (c : ascii) : bool :=
  (lo <=? code c) && (code c <=? hi).

(** White space as [String.prototype.trim] and the class [\s] see it, below
    U+0100: TAB, LF, VT, FF, CR, SPACE and NO-BREAK SPACE. *)
Definition isSpace (c : ascii) : bool :=
  between 9 13 c || (code c =? 32) || (code c =? 160).

(** [a-z], [0-9] and the hyphen. *)
Definition isLower (c : ascii) : bool := between 97 122 c.
Definition isDigit (c : ascii) : bool := between 48 57 c.
Definition isHyphen (c : ascii) : bool := code c =? 45.

(** [toLowerCase] on one code unit below U+0100: A-Z, and the Latin-1
    capitals U+00C0..U+00DE except the multiplication sign U+00D7, move up
    by 32; everything else is unchanged. *)
Definition lowerChar (c : ascii) : ascii :=
  if between 65 90 c then ascii_of_nat (code c + 32)
  else if between 192 222 c && negb (code c =? 215) then ascii_of_nat (code c + 32)
  else c.

Fixpoint map (f : ascii -> ascii) (s : string) : string :=
  match s with
  | EmptyString => EmptyString
  | String c r => String (f c) (map f r)
  end.

Fixpoint filter (p : ascii -> bool) (s : string) : string :=
  match s with
  | EmptyString => EmptyString
  | String c r => if p c then String c (filter p r) else filter p r
  end.

Fixpoint all (p : ascii -> bool) (s : string) : bool :=
  match s with
  | EmptyString => true
  | String c r => p c && all p r
  end.

Definition isEmpty (s : string) : bool :=
  match s with EmptyString => true | _ => false end.

(** Drop the longest prefix (resp. suffix) made of characters in [p]. *)
Fixpoint dropStart (p : ascii -> bool) (s : string) : string :=
  match s with
  | EmptyString => EmptyString
  | String c r => if p c then dropStart p r else s
  end.

Fixpoint dropEnd (p : ascii -> bool) (s : string) : string :=
  match s with
  | EmptyString => EmptyString
  | String c r =>
      let r' := dropEnd p r in
      if p c && isEmpty r' then EmptyString else String c r'
  end.

Definition toLowerCase (s : string) : string := map lowerChar s.

Definition trim (s : string) : string := dropEnd isSpace (dropStart isSpace s).

(** [s.replace(/X+/g, '-')] for a character class [X]: every maximal run of
    characters of the class becomes one hyphen.  [inRun] says that the
    previous character belonged to the run being replaced. *)
Fixpoint squeezeFrom (p : ascii -> bool) (inRun : bool) (s : string) : string :=
  match s with
  | EmptyString => EmptyString
  | String c r =>
      if p c
      then (if inRun then squeezeFrom p true r
            else String "-" (squeezeFrom p true r))
      else String c (squeezeFrom p false r)
  end.

Definition replaceRuns (p : ascii -> bool) (s : string) : string :=
  squeezeFrom p false s.

(** [s.startsWith(t)]. *)
Definition startsWith (s t : string) : bool := String.prefix t s.

(** If [sep] is a prefix of [s], what follows it. *)
Fixpoint stripPrefix (sep s : string) : option string :=
  match sep, s with
  | EmptyString, _ => Some s
  | String a sep', String b s' =>
      if Ascii.eqb a b then stripPrefix sep' s' else None
  | String _ _, EmptyString => None
  end.

(** The text before and after the leftmost occurrence of [sep] in [s]. *)
Fixpoint breakOn (sep s : string) : option (string * string) :=
  match stripPrefix sep s with
  | Some rest => Some (EmptyString, rest)
  | None =>
      match s with
      | EmptyString => None
      | String c r =>
          match breakOn sep r with
          | Some (before, rest) => Some (String c before, rest)
          | None => None
          end
      end
  end.

(** [s.includes(sep)]. *)
Definition includes (s sep : string) : bool :=
  match breakOn sep s with Some _ => true | None => false end.

(** [s.split(sep)] for a non-empty separator: the pieces between the
    occurrences of [sep], found left to right without overlap.  Each round
    consumes at least one character, so [S (length s)] rounds are enough. *)
Fixpoint splitFuel (fuel : nat) (sep s : string) : list string :=
  match fuel with
  | O => [s]
  | S n =>
      match breakOn sep s with
      | Some (before, rest) => before :: splitFuel n sep rest
      | None => [s]
      end
  end.

Fixpoint chars (s : string) : list string :=
  match s with
  | EmptyString => []
  | String c r => String c EmptyString :: chars r
  end.

Definition split (s sep : string) : list string :=
  match sep with
  | EmptyString => chars s
  | _ => splitFuel (S (String.length s)) sep s
  end.

(** [a.join(sep)]. *)
Definition join (a : list string) (sep : string) : string := String.concat sep a.

(** Truthiness of a [string | null | undefined] value. *)
Definition truthy (o : option string) : bool :=
  match o with
  | Some s => negb (isEmpty s)
  | None => false
  end.

(** [x || null] on strings. *)
Definition orNull (s : string) : option string :=
  if isEmpty s then None else Some s.

End JS.

(** ** SEO slug utilities *)

(** The class [[^a-z0-9\s-]] is the complement of [keepChar]. *)
Definition keepChar (c : ascii) : bool :=
  JS.isLower c || JS.isDigit c || JS.isSpace c || JS.isHyphen c.

(** [value.trim().toLowerCase()
        .replace(/[^a-z0-9\s-]/g, '').replace(/\s+/g, '-')
        .replace(/-+/g, '-').replace(/^-+|-+$/g, '')] *)
Definition toSlug (value : string) : string :=
  let s1 := JS.trim value in
  let s2 := JS.toLowerCase s1 in
  let s3 := JS.filter keepChar s2 in
  let s4 := JS.replaceRuns JS.isSpace s3 in
  let s5 := JS.replaceRuns JS.isHyphen s4 in
  JS.dropEnd JS.isHyphen (JS.dropStart JS.isHyphen s5).

Record SeoOpts := {
  serviceName : option string;
  cityName : option string;
  stateName : option string
}.

(** [opts.x ? toSlug(opts.x) : null] *)
Definition slugOf (o : option string) : option string :=
  match o with
  | Some s => if JS.truthy o then Some (toSlug s) else None
  | None => None
  end.

(** The service-only branch: [if (serviceSlug) return `/directory/${serviceSlug}`]
    and otherwise [null]. *)
Definition serviceOnlyPath (serviceSlug : option string) : option string :=
  match serviceSlug with
  | Some sv => if JS.truthy serviceSlug then Some ("/directory/" ++ sv) else None
  | None => None
  end.

Definition buildDirectorySeoPath (opts : SeoOpts) : option string :=
  let serviceSlug := slugOf (serviceName opts) in
  let citySlug := slugOf (cityName opts) in
  let stateSlug := slugOf (stateName opts) in
  if JS.truthy serviceSlug && JS.truthy citySlug && JS.truthy stateSlug then
    match serviceSlug, citySlug, stateSlug with
    | Some sv, Some ci, Some st =>
        Some ("/directory/" ++ sv ++ "-in-" ++ ci ++ "-" ++ st)
    | _, _, _ => None
    end
  else serviceOnlyPath serviceSlug.

(** ** SEO slug parser *)

Record SlugTriple := {
  serviceSlug : option string;
  citySlug : option string;
  stateSlug : option string
}.

(** [parts.slice(-2)] and [parts.slice(0, -2)]. *)
Definition lastTwo (parts : list string) : list string :=
  skipn (List.length parts - 2) parts.
Definition butLastTwo (parts : list string) : list string :=
  firstn (List.length parts - 2) parts.

(** The city/state heuristic applied to [locationPart]. *)
Definition parseLocation (locationPart : string) : option string * option string :=
  let parts := JS.split locationPart "-" in
  if 3 <=? List.length parts then
    (JS.orNull (JS.join (butLastTwo parts) "-"), Some (JS.join (lastTwo parts) "-"))
  else
    match parts with
    | [p0; p1] => (Some p0, Some p1)
    | [p0] => (Some p0, None)
    | _ => (None, None)
    end.

(** [parseSeoSlug] returns [None] where the JavaScript would throw (the
    destructured [locationPart] being undefined); [parseSeoSlug_total] below
    shows that this never happens. *)
Definition parseSeoSlug (slugArray : list string) : option SlugTriple :=
  let slug := JS.join slugArray "-" in
  if JS.includes slug "-in-" then
    match JS.split slug "-in-" with
    | servicePart :: locationPart :: _ =>
        let '(city, state) := parseLocation locationPart in
        Some {| serviceSlug := Some servicePart; citySlug := city; stateSlug := state |}
    | _ => None
    end
  else
    Some {| serviceSlug := Some slug; citySlug := None; stateSlug := None |}.

(** ** Category resolver *)

Module Category.

(** Modelled from the spec: the [ServiceCategory] type of
    [directory/types/directory], which the resolver imports, as the catalog
    shape [{ name, subCategories: [{ name }] }]. *)
Record SubCategory := { subName : string }.
Record ServiceCategory := {
  name : string;
  subCategories : list SubCategory
}.

Record DirectoryCategoryPath := {
  headCategory : option string;
  microCategory : option string;
  serviceName : option string
}.

(** [x.toLowerCase().trim()] *)
Definition normalize (x : string) : string := JS.trim (JS.toLowerCase x).

(** The [for (const category of categories)] loop; [None] when it runs to
    its end without returning. *)
Fixpoint searchCategories (original normalizedService : string)
    (categories : list ServiceCategory) : option DirectoryCategoryPath :=
  match categories with
  | [] => None
  | category :: rest =>
      if String.eqb (normalize (name category)) normalizedService then
        Some {| headCategory := Some (name category);
                microCategory := None;
                serviceName := Some original |}
      else
        let found :=
          if negb (List.length (subCategories category) =? 0) then
            List.find (fun sub => String.eqb (normalize (subName sub)) normalizedService)
                      (subCategories category)
          else None in
        match found with
        | Some foundSubCategory =>
            Some {| headCategory := Some (name category);
                    microCategory := Some (subName foundSubCategory);
                    serviceName := Some original |}
        | None => searchCategories original normalizedService rest
        end
  end.

Definition resolveCategoryPathForService (serviceName : option string)
    (categories : list ServiceCategory) : DirectoryCategoryPath :=
  match serviceName with
  | Some s =>
      if negb (JS.truthy serviceName) || (List.length categories =? 0) then
        {| headCategory := None; microCategory := None; serviceName := JS.orNull s |}
      else
        match searchCategories s (normalize s) categories with
        | Some r => r
        | None => {| headCategory := None; microCategory := None; serviceName := Some s |}
        end
  | None => {| headCategory := None; microCategory := None; serviceName := None |}
  end.

(** The tests of the loop, on a normalized service name. *)
Definition matchesHead (normalizedService : string) (category : ServiceCategory) : bool :=
  String.eqb (normalize (name category)) normalizedService.
Definition matchesSub (normalizedService : string) (sub : SubCategory) : bool :=
  String.eqb (normalize (subName sub)) normalizedService.
Definition matchesAny (normalizedService : string) (category : ServiceCategory) : bool :=
  matchesHead normalizedService category
  || existsb (matchesSub normalizedService) (subCategories category).




(** [getMicroCategories]: the subcategory names of the first category whose
    lower-cased name is the lower-cased [headCategory]; the empty list when
    there is none. *)
Definition getMicroCategories (headCategory : string)
    (categories : list ServiceCategory) : list string :=
  match List.find (fun cat => String.eqb (JS.toLowerCase (name cat))
                                         (JS.toLowerCase headCategory)) categories with
  | Some found => List.map subName (subCategories found)
  | None => []
  end.

(** [serviceName || null] for a [string | null] value. *)
Definition orNullOpt (o : option string) : option string :=
  match o with Some s => JS.orNull s | None => None end.

End Category.

(** ** Subdomain routing middleware *)

Module Middleware.

Definition MAIN_DOMAIN : string := "indiantrademart.com".

(** The own properties of the [SUBDOMAIN_MAP] object literal. *)
Definition SUBDOMAIN_MAP (subdomain : string) : option string :=
  if String.eqb subdomain "vendor" then Some "/vendor"
  else if String.eqb subdomain "buyer" then Some "/buyer"
  else if String.eqb subdomain "emp" then Some "/employee"
  else if String.eqb subdomain "dir" then Some "/directory"
  else if String.eqb subdomain "man" then Some "/management"
  else None.

(** [SUBDOMAIN_MAP[key]] also finds what every object literal inherits from
    [Object.prototype]: its methods and, under [__proto__], the prototype
    object itself. *)
Definition inheritedKeys : list string :=
  ["constructor"; "hasOwnProperty"; "isPrototypeOf"; "propertyIsEnumerable";
   "toLocaleString"; "toString"; "valueOf"; "__proto__";
   "__defineGetter__"; "__defineSetter__"; "__lookupGetter__"; "__lookupSetter__"].

Inductive MapValue :=
| OwnPath (path : string)     (* a property of the literal: a path prefix *)
| Inherited (key : string).   (* Object.prototype[key]: a function or an object *)

(** [SUBDOMAIN_MAP[key]], [None] for undefined. *)
Definition targetPathOf (key : string) : option MapValue :=
  match SUBDOMAIN_MAP key with
  | Some path => Some (OwnPath path)
  | None =>
      if existsb (String.eqb key) inheritedKeys then Some (Inherited key) else None
  end.

(** The string an inherited value turns into where the code uses it as one
    ([startsWith], [+]): V8, which runs the middleware, prints a built-in
    function as below, and the prototype object gives [[object Object]]. *)
Definition inheritedText (key : string) : string :=
  if String.eqb key "__proto__" then "[object Object]"
  else "function " ++ (if String.eqb key "constructor" then "Object" else key)
       ++ "() { [native code] }".

(** Truthiness and string value of what the lookup found. *)
Definition truthyValue (v : MapValue) : bool :=
  match v with
  | OwnPath path => negb (JS.isEmpty path)
  | Inherited _ => true
  end.

Definition textOf (v : MapValue) : string :=
  match v with
  | OwnPath path => path
  | Inherited key => inheritedText key
  end.

(** Of the characters of these texts, a URL path percent-encodes the space
    and the two braces. *)
Definition pathEncodeChar (c : ascii) : string :=
  if JS.code c =? 32 then "%20"
  else if JS.code c =? 123 then "%7B"
  else if JS.code c =? 125 then "%7D"
  else String c "".

Fixpoint pathEncode (s : string) : string :=
  match s with
  | EmptyString => EmptyString
  | String c r => pathEncodeChar c ++ pathEncode r
  end.

(** The path prefix that [url.pathname] holds after an inherited value was
    assigned to it: the URL puts a slash in front of a path without one and
    percent-encodes the text. *)
Definition inheritedPath (key : string) : string :=
  "/" ++ pathEncode (inheritedText key).

(** [url.pathname] after [url.pathname = targetPath + extra], where [extra]
    is empty or the path of the request. *)
Definition assignedPath (v : MapValue) (extra : string) : string :=
  match v with
  | OwnPath path => path ++ extra
  | Inherited key => inheritedPath key ++ extra
  end.

(** The parts of [req.nextUrl] that the middleware reads or writes, and the
    two it carries along untouched. *)
Record NextURL := {
  protocol : string;
  hostname : string;
  port : string;
  pathname : string;
  search : string
}.

Record NextRequest := {
  hostHeader : option string;        (* req.headers.get('host') *)
  nextUrl : NextURL
}.

Inductive NextResponse :=
| Next                                        (* NextResponse.next() *)
| Redirect (url : NextURL) (status : nat)     (* NextResponse.redirect(url, status) *)
| Rewrite (url : NextURL).                    (* NextResponse.rewrite(url) *)

Definition setHostname (u : NextURL) (h : string) : NextURL :=
  {| protocol := protocol u; hostname := h; port := port u;
     pathname := pathname u; search := search u |}.
Definition setPort (u : NextURL) (p : string) : NextURL :=
  {| protocol := protocol u; hostname := hostname u; port := p;
     pathname := pathname u; search := search u |}.
Definition setPathname (u : NextURL) (p : string) : NextURL :=
  {| protocol := protocol u; hostname := hostname u; port := port u;
     pathname := p; search := search u |}.

(** [a[i] || ''] *)
Definition itemOrEmpty (a : list string) (i : nat) : string := nth i a "".

(** [/\.[^/]+$/.test(pathname)]: a dot followed, up to the end of the
    string, by one or more characters none of which is a slash. *)
Fixpoint hasFileExtension (p : string) : bool :=
  match p with
  | EmptyString => false
  | String c r =>
      (Ascii.eqb c "." && negb (JS.isEmpty r) && JS.all (fun d => negb (Ascii.eqb d "/")) r)
      || hasFileExtension r
  end.

(** What the middleware derives from the request before its first test on
    the host. *)
Definition hostOf (req : NextRequest) : string :=
  match hostHeader req with Some h => h | None => "" end.
Definition hostnameOf (req : NextRequest) : string :=
  itemOrEmpty (JS.split (hostOf req) ":") 0.
Definition subdomainOf (req : NextRequest) : string :=
  itemOrEmpty (JS.split (hostnameOf req) ".") 0.
Definition isLocalhostOf (req : NextRequest) : bool :=
  JS.includes (hostnameOf req) "localhost".
Definition currentPortOf (req : NextRequest) : string :=
  itemOrEmpty (JS.split (hostOf req) ":") 1.

Definition buildSubdomainRedirectUrl (req : NextRequest) (sub : string) : NextURL :=
  let redirectUrl := nextUrl req in
  if isLocalhostOf req then
    let u := setHostname redirectUrl (sub ++ ".localhost") in
    if negb (JS.isEmpty (currentPortOf req)) then setPort u (currentPortOf req) else u
  else
    setPort (setHostname redirectUrl (sub ++ "." ++ MAIN_DOMAIN)) "".

(** [NextResponse.redirect(url)] without a status answers 307. *)
Definition defaultRedirectStatus : nat := 307.

(** [prefixes.some(prefix => pathname === prefix || pathname.startsWith(prefix + '/'))] *)
Definition isReservedBy (prefixes : list string) (pathname : string) : bool :=
  existsb (fun prefix => String.eqb pathname prefix || JS.startsWith pathname (prefix ++ "/"))
          prefixes.

Definition reservedPrefixes : list string :=
  ["/directory"; "/api"; "/_next"; "/dashboard"; "/auth"; "/static"; "/assets"; "/favicon"].

Definition reservedMainPrefixes : list string :=
  ["/api"; "/_next"; "/dashboard"; "/auth"; "/static"; "/assets"; "/favicon";
   "/directory"; "/vendor"; "/buyer"; "/employee"; "/management"].

(** The blocks of [middleware], in source order.  Each one is [Some r] when
    its [return r] is reached and [None] when control falls through. *)

(* 0) static assets *)
Definition staticBypass (req : NextRequest) : option NextResponse :=
  if hasFileExtension (pathname (nextUrl req)) then Some Next else None.

(* 0.5) auth routes to their subdomain *)
Definition authRedirect (req : NextRequest) : option NextResponse :=
  let pathname := pathname (nextUrl req) in
  if JS.startsWith pathname "/auth/vendor/" && negb (String.eqb (subdomainOf req) "vendor") then
    Some (Redirect (buildSubdomainRedirectUrl req "vendor") defaultRedirectStatus)
  else if JS.startsWith pathname "/auth/user/" && negb (String.eqb (subdomainOf req) "buyer") then
    Some (Redirect (buildSubdomainRedirectUrl req "buyer") defaultRedirectStatus)
  else None.

(* 0.6) directory routes to the dir subdomain *)
Definition directoryRedirect (req : NextRequest) : option NextResponse :=
  let pathname := pathname (nextUrl req) in
  if (String.eqb pathname "/directory" || JS.startsWith pathname "/directory/")
     && negb (String.eqb (subdomainOf req) "dir") then
    Some (Redirect (buildSubdomainRedirectUrl req "dir") defaultRedirectStatus)
  else None.

(* 1) auth routes are never rewritten *)
Definition authPassthrough (req : NextRequest) : option NextResponse :=
  if JS.startsWith (pathname (nextUrl req)) "/auth/" then Some Next else None.

(* 2) SEO URLs on the dir subdomain *)
Definition dirRewrite (req : NextRequest) : option NextResponse :=
  let url := nextUrl req in
  let pathname := pathname url in
  if String.eqb (subdomainOf req) "dir" then
    let isReserved := isReservedBy reservedPrefixes pathname in
    if negb (String.eqb pathname "/") && negb isReserved
       && negb (JS.startsWith pathname "/directory") then
      Some (Rewrite (setPathname url ("/directory" ++ pathname)))
    else None
  else None.

(* 2.5) root-level SEO slugs on the main domain *)
Definition mainRedirect (req : NextRequest) : option NextResponse :=
  let pathname := pathname (nextUrl req) in
  let baseDomain := if isLocalhostOf req then "localhost" else MAIN_DOMAIN in
  if String.eqb (subdomainOf req) "" || String.eqb (subdomainOf req) "www" then
    let isReservedMain := isReservedBy reservedMainPrefixes pathname in
    if negb (String.eqb pathname "/") && negb isReservedMain then
      let targetUrl :=
        setHostname (nextUrl req)
          (if isLocalhostOf req then "dir.localhost" else "dir." ++ baseDomain) in
      let targetUrl :=
        if isLocalhostOf req then
          (if negb (JS.isEmpty (currentPortOf req))
           then setPort targetUrl (currentPortOf req) else targetUrl)
        else setPort targetUrl "" in
      Some (Redirect targetUrl 308)
    else None
  else None.

(* 3) subdomain -> path mapping *)
Definition genericRewrite (req : NextRequest) : option NextResponse :=
  let url := nextUrl req in
  let pathname := pathname url in
  let isDashboardRoute := JS.startsWith pathname "/dashboard" in
  match targetPathOf (subdomainOf req) with
  | Some targetPath =>
      if truthyValue targetPath && negb (JS.startsWith pathname (textOf targetPath))
         && negb isDashboardRoute then
        let extra := if String.eqb pathname "/" then "" else pathname in
        Some (Rewrite (setPathname url (assignedPath targetPath extra)))
      else None
  | None => None
  end.

Definition orElse (a b : option NextResponse) : option NextResponse :=
  match a with Some _ => a | None => b end.

(** The blocks that precede the subdomain -> path mapping. *)
Definition earlierStages (req : NextRequest) : option NextResponse :=
  orElse (staticBypass req)
    (orElse (authRedirect req)
      (orElse (directoryRedirect req)
        (orElse (authPassthrough req)
          (orElse (dirRewrite req) (mainRedirect req))))).

Definition middleware (req : NextRequest) : NextResponse :=
  match orElse (earlierStages req) (genericRewrite req) with
  | Some response => response
  | None => Next
  end.

(** An https request for [path] whose Host header is [host] (a name, or
    [name:port]), without query. *)
Definition request (host path : string) : NextRequest :=
  {| hostHeader := Some host;
     nextUrl := {| protocol := "https:";
                   hostname := itemOrEmpty (JS.split host ":") 0;
                   port := itemOrEmpty (JS.split host ":") 1;
                   pathname := path; search := "" |} |}.

(** The path starts with one of the reserved main-domain prefixes. *)
Definition startsWithReservedMain (pathname : string) : bool :=
  existsb (fun prefix => JS.startsWith pathname prefix) reservedMainPrefixes.

(** Where block 2.5 sends a request: the same URL on the dir subdomain. *)
Definition dirTarget (req : NextRequest) : NextURL :=
  if isLocalhostOf req then
    (if JS.isEmpty (currentPortOf req)
     then setHostname (nextUrl req) "dir.localhost"
     else setPort (setHostname (nextUrl req) "dir.localhost") (currentPortOf req))
  else setPort (setHostname (nextUrl req) ("dir." ++ MAIN_DOMAIN)) "".

(** The request a client sends when it follows a redirect to [u]: the Host
    header is the host of [u], with its port when [u] has one. *)
Definition followUp (u : NextURL) : NextRequest :=
  {| hostHeader :=
       Some (hostname u ++ (if JS.isEmpty (port u) then "" else ":" ++ port u));
     nextUrl := u |}.

Definition isRedirect (r : NextResponse) : bool :=
  match r with Redirect _ _ => true | _ => false end.

(** The path a rewrite for the prefix [targetPath] gives [pathname]. *)
Definition underPrefix (targetPath pathname : string) : string :=
  targetPath ++ (if String.eqb pathname "/" then "" else pathname).

End Middleware.

(** ** Lead popup hook *)

(** [useLeadPopup] is a React hook.  A mounted instance is modelled by the
    values React keeps for it between renders (the three [useState] cells,
    the [timerRef] cell, whether the timer effect left a cleanup function)
    together with the two browser facilities it touches: the pending
    [setTimeout] callbacks it created and the session-storage item
    [POPUP_SUBMITTED_KEY].

    React's contract for effects is followed: an effect runs after the first
    render and after every render in which one of its dependencies changed,
    its previous cleanup running first; cleanups also run at unmount.  State
    updates made by one handler ([openPopup], [closePopup],
    [markAsSubmitted], the timer callback) are applied together, and the
    render and effects they cause complete before the next browser event is
    delivered.  The update that the mount effect makes is different: it is
    made from an effect, React renders it when it gets to it, and a timer
    callback can run in between; the model keeps it as a queued update
    ([queued]) that the event [RenderQueued] renders.  Updates on an
    unmounted instance are ignored. *)

Module LeadPopup.

Record Options := {
  autoOpenDelayMs : N;
  enabledAutoOpen : bool
}.

(** [{ autoOpenDelayMs = 20000, enabledAutoOpen = false }] *)
Definition defaultOptions : Options :=
  {| autoOpenDelayMs := 20000%N; enabledAutoOpen := false |}.

Record View := {
  options : Options;
  isOpen : bool;
  hasSubmitted : bool;
  hasDismissed : bool;
  timerRef : option nat;              (* timerRef.current; a handle is truthy *)
  hasCleanup : bool;                  (* the timer effect returned its cleanup *)
  mounted : bool;
  pending : list (nat * N);         (* armed timers: handle, delay *)
  nextTimerId : nat;
  sessionItem : option string;        (* sessionStorage[POPUP_SUBMITTED_KEY] *)
  queued : bool     (* setHasSubmitted(true) of the mount effect, not yet rendered *)
}.

Definition withOptions (v : View) (o : Options) : View :=
  {| options := o; isOpen := isOpen v; hasSubmitted := hasSubmitted v;
     hasDismissed := hasDismissed v; timerRef := timerRef v;
     hasCleanup := hasCleanup v; mounted := mounted v; pending := pending v;
     nextTimerId := nextTimerId v; sessionItem := sessionItem v;
     queued := queued v |}.

(** The three [useState] cells. *)
Definition withState (v : View) (open submitted dismissed : bool) : View :=
  {| options := options v; isOpen := open; hasSubmitted := submitted;
     hasDismissed := dismissed; timerRef := timerRef v;
     hasCleanup := hasCleanup v; mounted := mounted v; pending := pending v;
     nextTimerId := nextTimerId v; sessionItem := sessionItem v;
     queued := queued v |}.

Definition withTimer (v : View) (ref : option nat) (cleanup : bool)
    (timers : list (nat * N)) (next : nat) : View :=
  {| options := options v; isOpen := isOpen v; hasSubmitted := hasSubmitted v;
     hasDismissed := hasDismissed v; timerRef := ref;
     hasCleanup := cleanup; mounted := mounted v; pending := timers;
     nextTimerId := next; sessionItem := sessionItem v;
     queued := queued v |}.

Definition withMounted (v : View) (m : bool) : View :=
  {| options := options v; isOpen := isOpen v; hasSubmitted := hasSubmitted v;
     hasDismissed := hasDismissed v; timerRef := timerRef v;
     hasCleanup := hasCleanup v; mounted := m; pending := pending v;
     nextTimerId := nextTimerId v; sessionItem := sessionItem v;
     queued := queued v |}.

Definition withSessionItem (v : View) (item : option string) : View :=
  {| options := options v; isOpen := isOpen v; hasSubmitted := hasSubmitted v;
     hasDismissed := hasDismissed v; timerRef := timerRef v;
     hasCleanup := hasCleanup v; mounted := mounted v; pending := pending v;
     nextTimerId := nextTimerId v; sessionItem := item;
     queued := queued v |}.

Definition withQueued (v : View) (q : bool) : View :=
  {| options := options v; isOpen := isOpen v; hasSubmitted := hasSubmitted v;
     hasDismissed := hasDismissed v; timerRef := timerRef v;
     hasCleanup := hasCleanup v; mounted := mounted v; pending := pending v;
     nextTimerId := nextTimerId v; sessionItem := sessionItem v; queued := q |}.

(** [clearTimeout(id)] *)
Definition clearTimeout (id : nat) (timers : list (nat * N)) : list (nat * N) :=
  List.filter (fun t => negb (fst t =? id)) timers.

Definition isPending (id : nat) (timers : list (nat * N)) : bool :=
  existsb (fun t => fst t =? id) timers.

(** Body of the auto-open effect, run with the state of the current render. *)
Definition timerEffect (v : View) : View :=
  if negb (enabledAutoOpen (options v)) || hasSubmitted v || hasDismissed v then
    withTimer v (timerRef v) false (pending v) (nextTimerId v)
  else
    let id := S (nextTimerId v) in
    withTimer v (Some id) true
      ((id, autoOpenDelayMs (options v)) :: pending v) id.

(** The cleanup the effect returned, if it returned one. *)
Definition timerCleanup (v : View) : View :=
  if hasCleanup v then
    match timerRef v with
    | Some id => withTimer v None (hasCleanup v) (clearTimeout id (pending v)) (nextTimerId v)
    | None => v
    end
  else v.

(** The dependency array [[enabledAutoOpen, hasSubmitted, hasDismissed,
    autoOpenDelayMs]]. *)
Definition deps (v : View) : bool * bool * bool * N :=
  (enabledAutoOpen (options v), hasSubmitted v, hasDismissed v,
   autoOpenDelayMs (options v)).

Definition depsEqb (a b : bool * bool * bool * N) : bool :=
  let '(a1, a2, a3, a4) := a in
  let '(b1, b2, b3, b4) := b in
  Bool.eqb a1 b1 && Bool.eqb a2 b2 && Bool.eqb a3 b3 && N.eqb a4 b4.

(** The render that follows an update from [before] to [after]: the timer
    effect is re-run, after its cleanup, when a dependency changed. *)
Definition commit (before after : View) : View :=
  if depsEqb (deps before) (deps after) then after
  else timerEffect (timerCleanup after).

(** The first render, with the initial values of the [useState] and
    [useRef] cells. *)
Definition firstRender (o : Options) (stored : option string) : View :=
  {| options := o; isOpen := false; hasSubmitted := false; hasDismissed := false;
     timerRef := None; hasCleanup := false; mounted := true; pending := [];
     nextTimerId := 0; sessionItem := stored; queued := false |}.

(** The effect that checks the session storage: when the item is set it
    calls [setHasSubmitted(true)].  The call only queues the update; the
    state of the current render stays as it is. *)
Definition sessionEffect (v : View) : View :=
  if JS.truthy (sessionItem v) then withQueued v true else v.

(** The effects of the first render, in source order.  The timer effect
    runs with the state of the first render, in which [hasSubmitted] is
    false, also when the session item is set. *)
Definition firstEffects (o : Options) (stored : option string) : View :=
  timerEffect (sessionEffect (firstRender o stored)).

(** Mounting: the first render and its effects.  The update that the first
    effect queued is rendered afterwards, when React gets to it
    ([renderQueued]); until then the timer of the first pass is armed and
    can fire. *)
Definition mount (o : Options) (stored : option string) : View :=
  firstEffects o stored.

(** The render of the queued [setHasSubmitted(true)]. *)
Definition renderQueued (v : View) : View :=
  if mounted v && queued v then
    commit v (withQueued (withState v (isOpen v) true (hasDismissed v)) false)
  else v.

Inductive Event :=
| OpenPopup
| ClosePopup
| MarkAsSubmitted
| TimerFires (id : nat)
| Rerender (o : Options)
| Unmount
| RenderQueued.                (* React renders the update the mount effect queued *)

Definition openPopup (v : View) : View :=
  if mounted v then commit v (withState v true (hasSubmitted v) (hasDismissed v)) else v.

Definition closePopup (v : View) : View :=
  if mounted v then commit v (withState v false (hasSubmitted v) true) else v.

Definition markAsSubmitted (v : View) : View :=
  let v' := if mounted v then commit v (withState v false true (hasDismissed v)) else v in
  withSessionItem v' (Some "true").

(** The callback given to [setTimeout] runs only if its timer is still armed. *)
Definition timerFires (id : nat) (v : View) : View :=
  if isPending id (pending v) then
    let v' := withTimer v (timerRef v) (hasCleanup v) (clearTimeout id (pending v))
                        (nextTimerId v) in
    if mounted v' then commit v' (withState v' true (hasSubmitted v') (hasDismissed v'))
    else v'
  else v.

Definition rerender (o : Options) (v : View) : View :=
  if mounted v then commit v (withOptions v o) else v.

Definition unmount (v : View) : View :=
  if mounted v then
    let v' := timerCleanup v in
    withMounted (withTimer v' (timerRef v') false (pending v') (nextTimerId v')) false
  else v.

Definition step (e : Event) (v : View) : View :=
  match e with
  | OpenPopup => openPopup v
  | ClosePopup => closePopup v
  | MarkAsSubmitted => markAsSubmitted v
  | TimerFires id => timerFires id v
  | Rerender o => rerender o v
  | Unmount => unmount v
  | RenderQueued => renderQueued v
  end.

Definition run (events : list Event) (v : View) : View :=
  fold_left (fun v e => step e v) events v.

End LeadPopup.

(** ** Predicates used in the statements *)

(** The characters a slug is made of: [a-z], [0-9] and the hyphen. *)
Definition slugChar (c : ascii) : bool :=
  JS.isLower c || JS.isDigit c || JS.isHyphen c.

Definition startsWithHyphen (s : string) : bool :=
  match s with
  | EmptyString => false
  | String c _ => JS.isHyphen c
  end.

(** No two hyphens in a row. *)
Fixpoint noDoubleHyphen (s : string) : bool :=
  match s with
  | EmptyString => true
  | String c r => negb (JS.isHyphen c && startsWithHyphen r) && noDoubleHyphen r
  end.

(** A string in the image of [toSlug]: slug characters only, no hyphen at
    either end and no two hyphens in a row. *)
Definition isSlug (s : string) : bool :=
  JS.all slugChar s && noDoubleHyphen s && negb (startsWithHyphen s)
  && String.eqb (JS.dropEnd JS.isHyphen s) s.

(** A name is effectively present when it is given, non-empty, and its slug
    is non-empty: the truthiness test the builder makes on each slug. *)
Definition effectivelyPresent (o : option string) : bool := JS.truthy (slugOf o).

(** The slug of a name that may be absent. *)
Definition slugText (o : option string) : string :=
  match o with Some s => toSlug s | None => "" end.

(** Predicates on a lead popup view. *)
Module LeadPopupSpec.
Import LeadPopup.

(** At most one timer is armed, and it is the one [timerRef] and the cleanup
    function know about; it is armed only while the view is mounted and the
    three guards of the effect hold for the current options. *)
Definition wellFormed (v : View) : Prop :=
  pending v = []
  \/ (mounted v = true
      /\ enabledAutoOpen (options v) = true
      /\ hasSubmitted v = false
      /\ hasDismissed v = false
      /\ hasCleanup v = true
      /\ exists id, timerRef v = Some id
                    /\ pending v = [(id, autoOpenDelayMs (options v))]).

(** The part of [wellFormed] that the cleanup function relies on. *)
Definition timerTracked (v : View) : Prop :=
  pending v = []
  \/ (hasCleanup v = true
      /\ exists id d, timerRef v = Some id /\ pending v = [(id, d)]).

(** The view has been dismissed, or submitted, or is unmounted. *)
Definition superseded (v : View) : Prop :=
  hasDismissed v = true \/ hasSubmitted v = true \/ mounted v = false.

End LeadPopupSpec.

(** A token: a string without hyphen. *)
Definition hyphenFree (s : string) : bool :=
  JS.all (fun c => negb (JS.isHyphen c)) s.

(** [before] is what precedes the leftmost occurrence of [sep] in [s], and
    [after] what follows it. *)
Definition firstOccurrence (sep s before after : string) : Prop :=
  s = before ++ sep ++ after
  /\ forall b a, s = b ++ sep ++ a -> String.length before <= String.length b.

Definition noOccurrence (sep s : string) : Prop :=
  forall b a, s <> b ++ sep ++ a.

(** [part] is [s] up to its first [sep], or all of [s] when [sep] does not
    occur in it. *)
Definition upToFirst (sep s part : string) : Prop :=
  (noOccurrence sep s /\ part = s) \/ (exists after, firstOccurrence sep s part after).

(** The parser as the specification words it: one cut at the first marker,
    the heuristic applied to all the text after it. *)
Definition parseSeoSlugOneCut (slugArray : list string) : option SlugTriple :=
  let slug := JS.join slugArray "-" in
  match JS.breakOn "-in-" slug with
  | Some (servicePart, locationPart) =>
      let '(city, state) := parseLocation locationPart in
      Some {| serviceSlug := Some servicePart; citySlug := city; stateSlug := state |}
  | None => Some {| serviceSlug := Some slug; citySlug := None; stateSlug := None |}
  end.

(** [parseSeoSlug(buildDirectorySeoPath(x).split('/directory/')[1].split('-'))];
    [None] where the JavaScript would throw. *)
Definition roundTrip (x : SeoOpts) : option SlugTriple :=
  match buildDirectorySeoPath x with
  | Some path =>
      match nth_error (JS.split path "/directory/") 1 with
      | Some rest => parseSeoSlug (JS.split rest "-")
      | None => None
      end
  | None => None
  end.

(** The slugs of [x], as the builder computes them. *)
Definition slugsOf (x : SeoOpts) : SlugTriple :=
  {| serviceSlug := slugOf (serviceName x);
     citySlug := slugOf (cityName x);
     stateSlug := slugOf (stateName x) |}.

(** ** Further predicates on strings *)

(** Some character of [s] satisfies [p]. *)
Fixpoint anyChar (p : ascii -> bool) (s : string) : bool :=
  match s with
  | EmptyString => false
  | String c r => p c || anyChar p r
  end.

(** The last character of [s] satisfies [p] ([false] on the empty string). *)
Fixpoint lastSatisfies (p : ascii -> bool) (s : string) : bool :=
  match s with
  | EmptyString => false
  | String c EmptyString => p c
  | String _ r => lastSatisfies p r
  end.

(** An ASCII letter of either case, or a digit. *)
Definition isLetterOrDigit (c : ascii) : bool :=
  JS.between 65 90 c || JS.isLower c || JS.isDigit c.

(** [a-z] or [0-9]. *)
Definition isAlnum (c : ascii) : bool := JS.isLower c || JS.isDigit c.

(** Three readings of "the name is present".  As the specification words
    it: the name is given, and is not the empty string. *)
Definition givenName (o : option string) : bool := JS.truthy o.

(** The name is given and [toSlug] of it is not empty. *)
Definition hasSlug (o : option string) : bool :=
  match o with
  | Some s => negb (JS.isEmpty (toSlug s))
  | None => false
  end.

(** The name is given and contains an ASCII letter or a digit. *)
Definition hasLetterOrDigit (o : option string) : bool :=
  match o with
  | Some s => anyChar isLetterOrDigit s
  | None => false
  end.

(** [slug.replace(/-/g, ' ')], as the directory page turns a service slug
    into a search query and a service name. *)
Definition hyphensToSpaces (slug : string) : string :=
  JS.map (fun c => if JS.isHyphen c then " "%char else c) slug.

(** ** Sitemap entries for the directory *)

Module Sitemap.

Definition DIR_BASE_URL : string := "https://dir.indiantrademart.com".

(** The body of the loop over the directory entries of [sitemap]: the path
    of one entry, [None] where the loop does [continue].  An entry carries
    the three slugs of a [SlugTriple] (its [lastModified] does not enter the
    path). *)
Definition entryPath (entry : SlugTriple) : option string :=
  match serviceSlug entry with
  | Some sv =>
      if negb (JS.truthy (serviceSlug entry)) then None
      else if JS.truthy (citySlug entry) && JS.truthy (stateSlug entry) then
        match citySlug entry, stateSlug entry with
        | Some ci, Some st => Some ("/" ++ sv ++ "-in-" ++ ci ++ "-" ++ st)
        | _, _ => None
        end
      else Some ("/" ++ sv)
  | None => None
  end.

(** An entry whose slugs, where it has them, are made of [a-z], [0-9] and
    hyphens only. *)
Definition slugField (o : option string) : bool :=
  match o with
  | Some s => JS.all slugChar s
  | None => true
  end.

Definition slugEntry (entry : SlugTriple) : bool :=
  slugField (serviceSlug entry) && slugField (citySlug entry)
  && slugField (stateSlug entry).

(** The [url] fields pushed for the directory entries, in order. *)
Fixpoint directoryUrls (entries : list SlugTriple) : list string :=
  match entries with
  | [] => []
  | entry :: rest =>
      match entryPath entry with
      | Some path => (DIR_BASE_URL ++ path) :: directoryUrls rest
      | None => directoryUrls rest
      end
  end.

End Sitemap.

(** The events of a page view whose caller keeps passing the options [o]. *)
Module LeadPopupRuns.
Import LeadPopup.

Definition keepsOptions (o : Options) (e : Event) : Prop :=
  match e with
  | Rerender o' => o' = o
  | _ => True
  end.

Definition optionsFixed (o : Options) (events : list Event) : Prop :=
  Forall (keepsOptions o) events.

End LeadPopupRuns.

(** ** Titles made from slugs *)

(** [humanizeSlug] (breadcrumb) and [slugToTitle] (directory page) upper-case
    the first character of each word.  [toUpperCase] takes three characters
    below U+0100 out of that range or to two characters (U+00B5 to U+039C,
    U+00FF to U+0178, U+00DF to "SS"), so a title is given as its list of
    UTF-16 code units. *)

Module Titles.

Definition unit (c : ascii) : N := N_of_ascii c.

Fixpoint units (s : string) : list N :=
  match s with
  | EmptyString => []
  | String c r => unit c :: units r
  end.

(** [c.toUpperCase()] for one code unit below U+0100. *)
Definition upperUnits (c : ascii) : list N :=
  if JS.isLower c then [(unit c - 32)%N]
  else if JS.code c =? 181 then [924%N]
  else if JS.code c =? 223 then [83%N; 83%N]
  else if JS.between 224 254 c && negb (JS.code c =? 247) then [(unit c - 32)%N]
  else if JS.code c =? 255 then [376%N]
  else [unit c].

(** [word.charAt(0).toUpperCase() + word.slice(1)] *)
Definition capitalize (word : string) : list N :=
  match word with
  | EmptyString => []
  | String c r => (upperUnits c ++ units r)%list
  end.

(** [part.charAt(0).toUpperCase() + part.slice(1).toLowerCase()] *)
Definition capitalizeLower (part : string) : list N :=
  match part with
  | EmptyString => []
  | String c r => (upperUnits c ++ units (JS.toLowerCase r))%list
  end.

(** [words.join(' ')] *)
Fixpoint joinSpace (words : list (list N)) : list N :=
  match words with
  | [] => []
  | [w] => w
  | w :: rest => (w ++ 32%N :: joinSpace rest)%list
  end.

(** [humanizeSlug] of the breadcrumb: the empty string for a missing or
    empty slug. *)
Definition humanizeSlug (slug : option string) : list N :=
  match slug with
  | Some s =>
      if JS.truthy slug then joinSpace (List.map capitalize (JS.split s "-")) else []
  | None => []
  end.

(** [slugToTitle] of the directory page: null for a missing or empty slug;
    [filter(Boolean)] drops the empty parts. *)
Definition slugToTitle (slug : option string) : option (list N) :=
  match slug with
  | Some s =>
      if JS.truthy slug then
        Some (joinSpace (List.map capitalizeLower
                (List.filter (fun part => negb (JS.isEmpty part)) (JS.split s "-"))))
      else None
  | None => None
  end.

(** The capital of a character of [a-z0-9], and a word with its first
    character replaced by it. *)
Definition upperAscii (c : ascii) : ascii :=
  if JS.isLower c then ascii_of_nat (JS.code c - 32) else c.

Definition capitalized (word : string) : string :=
  match word with
  | EmptyString => EmptyString
  | String c r => String (upperAscii c) r
  end.

End Titles.

(** ** Titles of the directory page *)

Module DirectoryPage.

Record PageTitles := {
  serviceTitle : option (list N);
  stateTitle : option (list N);
  cityTitle : option (list N)
}.

Definition noTitles : PageTitles :=
  {| serviceTitle := None; stateTitle := None; cityTitle := None |}.

Definition isSlash (c : ascii) : bool := JS.code c =? 47.

(** [s.replace(pattern, '')] with a string pattern: the first occurrence
    goes. *)
Definition removeFirst (pattern s : string) : string :=
  match JS.breakOn pattern s with
  | Some (before, rest) => before ++ rest
  | None => s
  end.

(** [a || b] on titles: the empty title and null are falsy. *)
Definition orTitle (a b : option (list N)) : option (list N) :=
  match a with
  | Some (_ :: _) => a
  | _ => b
  end.

(** [citySlug || segments[0]] *)
Definition orFirst (citySlug : string) (segments : list string) : option string :=
  if JS.isEmpty citySlug then nth_error segments 0 else Some citySlug.

(** The state and city titles read off [locationPart]. *)
Definition locationTitles (locationPart : string) : option (list N) * option (list N) :=
  let segments :=
    List.filter (fun part => negb (JS.isEmpty part)) (JS.split locationPart "-") in
  if 2 <=? List.length segments then
    let stateSlug := JS.join (lastTwo segments) "-" in
    let citySlug := JS.join (butLastTwo segments) "-" in
    (Titles.slugToTitle (Some stateSlug), Titles.slugToTitle (orFirst citySlug segments))
  else
    match segments with
    | [s0] => (None, Titles.slugToTitle (Some s0))
    | _ => (None, None)
    end.

(** The titles the page parses out of [usePathname()]. *)
Definition pathnameTitles (pathname : option string) : PageTitles :=
  match pathname with
  | Some p =>
      if JS.truthy pathname && JS.startsWith p "/directory/" then
        let raw := JS.dropStart isSlash (removeFirst "/directory/" p) in
        if JS.isEmpty raw then noTitles
        else
          match JS.split raw "-in-" with
          | servicePart :: more =>
              let service :=
                if JS.isEmpty servicePart then None
                else Titles.slugToTitle (Some servicePart) in
              let '(state, city) :=
                match more with
                | locationPart :: _ =>
                    if JS.isEmpty locationPart then (None, None)
                    else locationTitles locationPart
                | [] => (None, None)
                end in
              {| serviceTitle := service; stateTitle := state; cityTitle := city |}
          | [] => noTitles
          end
      else noTitles
  | None => noTitles
  end.

(** [categoryPath?.serviceName ? categoryPath.serviceName : null] *)
Definition categoryTitle (categoryServiceName : option string) : option (list N) :=
  match categoryServiceName with
  | Some n => if JS.truthy categoryServiceName then Some (Titles.units n) else None
  | None => None
  end.

(** The titles the page shows: those of the pathname first, then those of
    the slugs it was given, then (for the service) the resolved category
    path. *)
Definition shownTitles (pathname : option string)
    (initialServiceSlug initialCitySlug initialStateSlug : option string)
    (categoryServiceName : option string) : PageTitles :=
  let fromPath := pathnameTitles pathname in
  {| serviceTitle :=
       orTitle (serviceTitle fromPath)
         (orTitle (Titles.slugToTitle initialServiceSlug)
                  (categoryTitle categoryServiceName));
     stateTitle := orTitle (stateTitle fromPath) (Titles.slugToTitle initialStateSlug);
     cityTitle := orTitle (cityTitle fromPath) (Titles.slugToTitle initialCitySlug) |}.

(** The titles of the slugs themselves. *)
Definition titlesOf (t : SlugTriple) : PageTitles :=
  {| serviceTitle := Titles.slugToTitle (serviceSlug t);
     stateTitle := Titles.slugToTitle (stateSlug t);
     cityTitle := Titles.slugToTitle (citySlug t) |}.

(** [DirectorySeoPage] rendering [DirectoryPage] at [pathname]: the slugs of
    [parseSeoSlug] go in as the initial slugs. *)
Definition seoPageTitles (seoParams : list string) (pathname : option string)
    (categoryServiceName : option string) : option PageTitles :=
  match parseSeoSlug seoParams with
  | Some t =>
      Some (shownTitles pathname (serviceSlug t) (citySlug t) (stateSlug t)
              categoryServiceName)
  | None => None
  end.

End DirectoryPage.

(* ================================================================== *)
(** * Properties *)
(* ================================================================== *)

Example toSlug_ex1 : toSlug "PEB Building Design Consultant" = "peb-building-design-consultant".
Proof. reflexivity. Qed.

Example toSlug_ex2 : toSlug "  Multiple   Spaces--and--dashes  " = "multiple-spaces-and-dashes".
Proof. reflexivity. Qed.

Example parse_ex1 :
  parseSeoSlug ["peb-building-design-consultant-in-visakhapatnam-andhra-pradesh"]
  = Some {| serviceSlug := Some "peb-building-design-consultant";
            citySlug := Some "visakhapatnam"; stateSlug := Some "andhra-pradesh" |}.
Proof. reflexivity. Qed.

Example parse_ex2 :
  parseSeoSlug ["a-in-b-in-c"]
  = Some {| serviceSlug := Some "a"; citySlug := Some "b"; stateSlug := None |}.
Proof. reflexivity. Qed.

(** ** Characters of a slug *)

Ltac by_cases_on_char c :=
  destruct c as [[] [] [] [] [] [] [] []]; vm_compute; intros;
  solve [ reflexivity | discriminate | assumption ].

Lemma slugChar_not_space c : slugChar c = true -> JS.isSpace c = false.
Proof. by_cases_on_char c. Qed.

Lemma slugChar_lower c : slugChar c = true -> JS.lowerChar c = c.
Proof. by_cases_on_char c. Qed.

Lemma slugChar_keep c : slugChar c = true -> keepChar c = true.
Proof. by_cases_on_char c. Qed.

Lemma keep_not_space_slug c :
  keepChar c = true -> JS.isSpace c = false -> slugChar c = true.
Proof. by_cases_on_char c. Qed.

Lemma hyphen_is_slugChar c : JS.isHyphen c = true -> slugChar c = true.
Proof. by_cases_on_char c. Qed.

Lemma isHyphen_spec c : JS.isHyphen c = true -> c = "-"%char.
Proof. by_cases_on_char c. Qed.

(** ** String helpers *)

Lemma all_impl (p q : ascii -> bool) s :
  (forall c, p c = true -> q c = true) -> JS.all p s = true -> JS.all q s = true.
Proof.
  intros Hpq. induction s as [|c r IH]; simpl; auto.
  intros H. apply andb_true_iff in H as [Hc Hr].
  rewrite (Hpq _ Hc), (IH Hr). reflexivity.
Qed.

Lemma all_filter p s : JS.all p (JS.filter p s) = true.
Proof.
  induction s as [|c r IH]; simpl; auto.
  destruct (p c) eqn:E; simpl; auto. now rewrite E.
Qed.

Lemma filter_id p s : JS.all p s = true -> JS.filter p s = s.
Proof.
  induction s as [|c r IH]; simpl; auto.
  intros H. apply andb_true_iff in H as [Hc Hr]. now rewrite Hc, IH.
Qed.

Lemma map_id f p s :
  (forall c, p c = true -> f c = c) -> JS.all p s = true -> JS.map f s = s.
Proof.
  intros Hf. induction s as [|c r IH]; simpl; auto.
  intros H. apply andb_true_iff in H as [Hc Hr]. now rewrite (Hf _ Hc), IH.
Qed.

Lemma dropStart_all p q s : JS.all q s = true -> JS.all q (JS.dropStart p s) = true.
Proof.
  induction s as [|c r IH]; simpl; auto.
  intros H. destruct (p c); simpl; auto.
  apply andb_true_iff in H as [_ Hr]. auto.
Qed.

Lemma dropEnd_all p q s : JS.all q s = true -> JS.all q (JS.dropEnd p s) = true.
Proof.
  induction s as [|c r IH]; simpl; auto.
  intros H. apply andb_true_iff in H as [Hc Hr].
  destruct (p c && JS.isEmpty (JS.dropEnd p r)); simpl; auto.
  now rewrite Hc, IH.
Qed.

Lemma dropStart_id p q s :
  (forall c, q c = true -> p c = false) -> JS.all q s = true -> JS.dropStart p s = s.
Proof.
  intros Hqp. destruct s as [|c r]; simpl; auto.
  intros H. apply andb_true_iff in H as [Hc _]. now rewrite (Hqp _ Hc).
Qed.

Lemma dropEnd_id p q s :
  (forall c, q c = true -> p c = false) -> JS.all q s = true -> JS.dropEnd p s = s.
Proof.
  intros Hqp. induction s as [|c r IH]; simpl; auto.
  intros H. apply andb_true_iff in H as [Hc Hr].
  now rewrite (Hqp _ Hc), IH.
Qed.

Lemma dropEnd_idem p s : JS.dropEnd p (JS.dropEnd p s) = JS.dropEnd p s.
Proof.
  induction s as [|c r IH]; simpl; auto.
  destruct (p c && JS.isEmpty (JS.dropEnd p r)) eqn:E; simpl; auto.
  now rewrite IH, E.
Qed.

Lemma squeeze_id p q b s :
  (forall c, q c = true -> p c = false) -> JS.all q s = true -> JS.squeezeFrom p b s = s.
Proof.
  intros Hqp. revert b. induction s as [|c r IH]; simpl; auto.
  intros b H. apply andb_true_iff in H as [Hc Hr].
  now rewrite (Hqp _ Hc), IH.
Qed.

Lemma squeeze_space_slug b s :
  JS.all keepChar s = true -> JS.all slugChar (JS.squeezeFrom JS.isSpace b s) = true.
Proof.
  revert b. induction s as [|c r IH]; simpl; auto.
  intros b H. apply andb_true_iff in H as [Hc Hr].
  destruct (JS.isSpace c) eqn:E.
  - destruct b; simpl; auto.
  - simpl. now rewrite (keep_not_space_slug _ Hc E), IH.
Qed.

Lemma squeeze_hyphen_slug b s :
  JS.all slugChar s = true -> JS.all slugChar (JS.squeezeFrom JS.isHyphen b s) = true.
Proof.
  revert b. induction s as [|c r IH]; simpl; auto.
  intros b H. apply andb_true_iff in H as [Hc Hr].
  destruct (JS.isHyphen c) eqn:E.
  - destruct b; simpl; auto.
  - simpl. now rewrite Hc, IH.
Qed.

Lemma squeeze_hyphen_start s :
  startsWithHyphen (JS.squeezeFrom JS.isHyphen true s) = false.
Proof.
  induction s as [|c r IH]; simpl; auto.
  destruct (JS.isHyphen c) eqn:E; simpl; auto.
Qed.

Lemma squeeze_hyphen_noDouble b s :
  noDoubleHyphen (JS.squeezeFrom JS.isHyphen b s) = true.
Proof.
  revert b. induction s as [|c r IH]; simpl; auto.
  intros b. destruct (JS.isHyphen c) eqn:E.
  - destruct b; auto. simpl. now rewrite squeeze_hyphen_start, IH.
  - simpl. now rewrite E, IH.
Qed.

Lemma squeeze_hyphen_id b s :
  noDoubleHyphen s = true -> (b = true -> startsWithHyphen s = false) ->
  JS.squeezeFrom JS.isHyphen b s = s.
Proof.
  revert b. induction s as [|c r IH]; simpl; auto.
  intros b H Hb. apply andb_true_iff in H as [Hc Hr].
  destruct (JS.isHyphen c) eqn:E.
  - destruct b; [now specialize (Hb eq_refl)|].
    simpl in Hc. apply negb_true_iff in Hc.
    rewrite (isHyphen_spec _ E). f_equal. apply IH; auto.
  - f_equal. apply IH; auto. discriminate.
Qed.

Lemma dropStart_noDouble p s :
  noDoubleHyphen s = true -> noDoubleHyphen (JS.dropStart p s) = true.
Proof.
  induction s as [|c r IH]; simpl; auto.
  intros H. destruct (p c); simpl; auto.
  apply andb_true_iff in H as [_ Hr]. auto.
Qed.

Lemma dropEnd_start p s :
  startsWithHyphen s = false -> startsWithHyphen (JS.dropEnd p s) = false.
Proof.
  destruct s as [|c r]; simpl; auto.
  intros H. destruct (p c && JS.isEmpty (JS.dropEnd p r)); simpl; auto.
Qed.

Lemma dropEnd_start_le p s :
  startsWithHyphen (JS.dropEnd p s) = true -> startsWithHyphen s = true.
Proof.
  intros H. destruct (startsWithHyphen s) eqn:E; auto.
  now rewrite (dropEnd_start p s E) in H.
Qed.

Lemma dropEnd_noDouble p s :
  noDoubleHyphen s = true -> noDoubleHyphen (JS.dropEnd p s) = true.
Proof.
  induction s as [|c r IH]; simpl; auto.
  intros H. apply andb_true_iff in H as [Hc Hr].
  destruct (p c && JS.isEmpty (JS.dropEnd p r)); simpl; auto.
  rewrite (IH Hr), andb_true_r.
  apply negb_true_iff. apply negb_true_iff in Hc.
  destruct (JS.isHyphen c); simpl in *; auto.
  destruct (startsWithHyphen (JS.dropEnd p r)) eqn:E; auto.
  apply dropEnd_start_le in E. congruence.
Qed.

Lemma dropStart_hyphen_start s :
  startsWithHyphen (JS.dropStart JS.isHyphen s) = false.
Proof.
  induction s as [|c r IH]; simpl; auto.
  destruct (JS.isHyphen c) eqn:E; simpl; auto.
Qed.

Lemma dropStart_hyphen_id s :
  startsWithHyphen s = false -> JS.dropStart JS.isHyphen s = s.
Proof. destruct s as [|c r]; simpl; auto. now intros ->. Qed.

(** ** [toSlug] *)

(** Every value of [toSlug] is a slug. *)
Lemma toSlug_isSlug x : isSlug (toSlug x) = true.
Proof.
  unfold toSlug, isSlug, JS.replaceRuns.
  set (s3 := JS.filter keepChar _).
  set (s5 := JS.squeezeFrom JS.isHyphen false _).
  assert (H5 : JS.all slugChar s5 = true).
  { apply squeeze_hyphen_slug, squeeze_space_slug, all_filter. }
  rewrite dropEnd_all by now apply dropStart_all.
  rewrite dropEnd_noDouble
    by (apply dropStart_noDouble, squeeze_hyphen_noDouble).
  rewrite dropEnd_start by apply dropStart_hyphen_start.
  rewrite dropEnd_idem, String.eqb_refl. reflexivity.
Qed.

(** [toSlug] leaves a slug unchanged. *)
Lemma toSlug_fixes_slug s : isSlug s = true -> toSlug s = s.
Proof.
  unfold isSlug. intros H.
  apply andb_true_iff in H as [H He].
  apply andb_true_iff in H as [H Hs].
  apply andb_true_iff in H as [Ha Hd].
  apply negb_true_iff in Hs. apply String.eqb_eq in He.
  unfold toSlug, JS.trim, JS.toLowerCase, JS.replaceRuns.
  rewrite (dropStart_id _ _ _ slugChar_not_space Ha).
  rewrite (dropEnd_id _ _ _ slugChar_not_space Ha).
  rewrite (map_id _ _ _ slugChar_lower Ha).
  rewrite (filter_id keepChar s) by (eapply all_impl; [apply slugChar_keep | exact Ha]).
  rewrite (squeeze_id _ _ _ _ slugChar_not_space Ha).
  rewrite (squeeze_hyphen_id false s Hd) by discriminate.
  rewrite (dropStart_hyphen_id _ Hs). exact He.
Qed.

(** C10.  [toSlug] is idempotent: for every string [x],
    [toSlug (toSlug x) = toSlug x]. *)
Theorem toSlug_idempotent (x : string) : toSlug (toSlug x) = toSlug x.
Proof. apply toSlug_fixes_slug, toSlug_isSlug. Qed.

(** ** [buildDirectorySeoPath] *)

Example build_ex1 :
  buildDirectorySeoPath
    {| serviceName := Some "Land Surveyors"; cityName := None; stateName := None |}
  = Some "/directory/land-surveyors".
Proof. reflexivity. Qed.

Example build_ex2 :
  buildDirectorySeoPath
    {| serviceName := Some "PEB Building Design Consultant";
       cityName := Some "Visakhapatnam"; stateName := Some "Andhra Pradesh" |}
  = Some "/directory/peb-building-design-consultant-in-visakhapatnam-andhra-pradesh".
Proof. reflexivity. Qed.

Example build_ex3 :
  buildDirectorySeoPath
    {| serviceName := None; cityName := Some "Delhi"; stateName := None |} = None.
Proof. reflexivity. Qed.

(** A name made of punctuation only is given but not effectively present. *)
Example build_ex4 :
  buildDirectorySeoPath
    {| serviceName := Some "!!!"; cityName := None; stateName := None |} = None.
Proof. reflexivity. Qed.

Lemma effectivelyPresent_slugOf o :
  effectivelyPresent o = true -> slugOf o = Some (slugText o) /\ slugText o <> "".
Proof.
  unfold effectivelyPresent. destruct o as [s|]; simpl; [|discriminate].
  destruct (JS.isEmpty s); simpl; [discriminate|].
  destruct (toSlug s); simpl; [discriminate|]. intros _. split; [reflexivity|discriminate].
Qed.

Lemma build_full opts :
  effectivelyPresent (serviceName opts) = true ->
  effectivelyPresent (cityName opts) = true ->
  effectivelyPresent (stateName opts) = true ->
  buildDirectorySeoPath opts =
  Some ("/directory/" ++ slugText (serviceName opts) ++ "-in-"
          ++ slugText (cityName opts) ++ "-" ++ slugText (stateName opts)).
Proof.
  intros Hs Hc Ht. unfold buildDirectorySeoPath.
  unfold effectivelyPresent in *. rewrite Hs, Hc, Ht. simpl.
  apply effectivelyPresent_slugOf in Hs as [-> _].
  apply effectivelyPresent_slugOf in Hc as [-> _].
  apply effectivelyPresent_slugOf in Ht as [-> _]. reflexivity.
Qed.

Lemma build_service_only opts :
  effectivelyPresent (serviceName opts) = true ->
  effectivelyPresent (cityName opts) && effectivelyPresent (stateName opts) = false ->
  buildDirectorySeoPath opts = Some ("/directory/" ++ slugText (serviceName opts)).
Proof.
  intros Hs Hl. unfold buildDirectorySeoPath.
  unfold effectivelyPresent in *. rewrite Hs. simpl. rewrite Hl.
  unfold serviceOnlyPath. rewrite Hs.
  apply effectivelyPresent_slugOf in Hs as [-> _]. reflexivity.
Qed.

Lemma build_none opts :
  effectivelyPresent (serviceName opts) = false -> buildDirectorySeoPath opts = None.
Proof.
  intros Hs. unfold buildDirectorySeoPath.
  unfold effectivelyPresent in *. rewrite Hs. simpl.
  unfold serviceOnlyPath. rewrite Hs. now destruct (slugOf (serviceName opts)).
Qed.

(** ** [middleware] *)

Module MiddlewareFacts.
Import Middleware.

Example vendor_products :
  middleware (request "vendor.example.com" "/products")
  = Rewrite (setPathname (nextUrl (request "vendor.example.com" "/products")) "/vendor/products").
Proof. reflexivity. Qed.

Example dir_slug :
  middleware (request "dir.example.com" "/land-surveyors")
  = Rewrite (setPathname (nextUrl (request "dir.example.com" "/land-surveyors"))
               "/directory/land-surveyors").
Proof. reflexivity. Qed.

Example www_slug :
  middleware (request "www.indiantrademart.com" "/land-surveyors")
  = Redirect (setHostname (nextUrl (request "www.indiantrademart.com" "/land-surveyors"))
                "dir.indiantrademart.com") 308.
Proof. reflexivity. Qed.

Lemma prefix_app a b s : String.prefix (a ++ b) s = true -> String.prefix a s = true.
Proof.
  revert s. induction a as [|c a IH]; intros s; [now destruct s|].
  destruct s as [|d s]; simpl; auto. destruct (ascii_dec c d); auto.
Qed.

Lemma prefix_of_eqb s p : String.eqb s p = true -> String.prefix p s = true.
Proof.
  intros H. apply String.eqb_eq in H. subst. induction p as [|c p IH]; simpl; auto.
  destruct (ascii_dec c c); congruence.
Qed.

Lemma not_reserved_by prefixes path :
  existsb (fun prefix => JS.startsWith path prefix) prefixes = false ->
  isReservedBy prefixes path = false.
Proof.
  unfold isReservedBy. induction prefixes as [|p l IH]; simpl; auto.
  intros H. apply orb_false_iff in H as [Hp Hl]. rewrite (IH Hl), orb_false_r.
  apply orb_false_iff. split.
  - destruct (String.eqb path p) eqn:E; auto.
    apply prefix_of_eqb in E. unfold JS.startsWith in Hp. congruence.
  - destruct (JS.startsWith path (p ++ "/")) eqn:E; auto.
    apply prefix_app in E. unfold JS.startsWith in Hp. congruence.
Qed.

(** Block 2.5 as the middleware applies it: a request whose first host label
    is empty or [www], for a path that is not [/], has no file extension and
    starts with no reserved main-domain prefix, is answered by a 308
    redirect to the same URL on the dir subdomain. *)
Lemma middleware_main_redirect req :
  String.eqb (subdomainOf req) "" || String.eqb (subdomainOf req) "www" = true ->
  pathname (nextUrl req) <> "/" ->
  hasFileExtension (pathname (nextUrl req)) = false ->
  startsWithReservedMain (pathname (nextUrl req)) = false ->
  middleware req = Redirect (dirTarget req) 308
  /\ pathname (dirTarget req) = pathname (nextUrl req).
Proof.
  intros Hsub Hroot Hext Hres.
  assert (Hr := not_reserved_by _ _ Hres).
  unfold startsWithReservedMain in Hres. simpl in Hres.
  repeat (apply orb_false_iff in Hres as [? Hres]).
  assert (Hauth : forall t, JS.startsWith (pathname (nextUrl req)) ("/auth" ++ t) = false).
  { intros t. destruct (JS.startsWith _ ("/auth" ++ t)) eqn:E; auto.
    apply prefix_app in E. unfold JS.startsWith in *. congruence. }
  assert (Hdir : forall t, JS.startsWith (pathname (nextUrl req)) ("/directory" ++ t) = false).
  { intros t. destruct (JS.startsWith _ ("/directory" ++ t)) eqn:E; auto.
    apply prefix_app in E. unfold JS.startsWith in *. congruence. }
  assert (Hne : String.eqb (pathname (nextUrl req)) "/" = false).
  { apply String.eqb_neq. exact Hroot. }
  assert (Hnd : String.eqb (pathname (nextUrl req)) "/directory" = false).
  { destruct (String.eqb _ "/directory") eqn:E; auto.
    apply prefix_of_eqb in E. unfold JS.startsWith in *. congruence. }
  assert (Hsd : String.eqb (subdomainOf req) "dir" = false).
  { apply orb_true_iff in Hsub as [E|E]; apply String.eqb_eq in E; now rewrite E. }
  split.
  - unfold middleware, earlierStages, staticBypass, authRedirect, directoryRedirect,
      authPassthrough, dirRewrite, mainRedirect.
    pose proof (Hauth "/vendor/") as Hav. pose proof (Hauth "/user/") as Hau.
    pose proof (Hauth "/") as Has. pose proof (Hdir "/") as Hds.
    cbn [String.append] in Hav, Hau, Has, Hds.
    rewrite Hext, Hav, Hau, Has, Hds, Hnd, Hsd, Hsub, Hne, Hr.
    simpl. unfold dirTarget.
    destruct (isLocalhostOf req); [destruct (JS.isEmpty (currentPortOf req))|]; reflexivity.
  - unfold dirTarget.
    destruct (isLocalhostOf req); [destruct (JS.isEmpty (currentPortOf req))|]; reflexivity.
Qed.

(** C1.  A request for [/land-surveyors] on the bare main domain is not
    redirected: [hostname.split('.')[0]] is the first label of the host
    ([indiantrademart], [example], [localhost]), never the empty string, so
    block 2.5 is skipped and the request passes through, while the same
    request on the [www] host gets the 308 redirect to the dir subdomain. *)
Theorem bare_domain_not_redirected :
  subdomainOf (request "indiantrademart.com" "/land-surveyors") = "indiantrademart"
  /\ middleware (request "indiantrademart.com" "/land-surveyors") = Next
  /\ middleware (request "example.com" "/land-surveyors") = Next
  /\ middleware (request "localhost:3000" "/land-surveyors") = Next
  /\ middleware (request "www.indiantrademart.com" "/land-surveyors")
     = Redirect (dirTarget (request "www.indiantrademart.com" "/land-surveyors")) 308.
Proof. repeat split; reflexivity. Qed.

Lemma startsWith_dashboard_not_generic req :
  JS.startsWith (pathname (nextUrl req)) "/dashboard" = true ->
  genericRewrite req = None.
Proof.
  intros H. unfold genericRewrite. rewrite H.
  destruct (targetPathOf (subdomainOf req)); auto.
  cbn [negb]. now rewrite !andb_false_r.
Qed.

(** C5.  For a request whose path starts with [/dashboard], on any host, the
    subdomain -> path mapping (block 3) does not rewrite: the response is
    the one of an earlier block, or the request passes through. *)
Theorem dashboard_never_generic_rewrite (req : NextRequest) :
  JS.startsWith (pathname (nextUrl req)) "/dashboard" = true ->
  genericRewrite req = None
  /\ (earlierStages req = Some (middleware req)
      \/ (earlierStages req = None /\ middleware req = Next)).
Proof.
  intros H. apply startsWith_dashboard_not_generic in H. split; [exact H|].
  unfold middleware. rewrite H.
  destruct (earlierStages req) as [r|]; simpl; auto.
Qed.

Lemma dashboard_never_generic_rewrite_witness :
  genericRewrite (request "vendor.example.com" "/dashboard/x") = None
  /\ (earlierStages (request "vendor.example.com" "/dashboard/x")
        = Some (middleware (request "vendor.example.com" "/dashboard/x"))
      \/ (earlierStages (request "vendor.example.com" "/dashboard/x") = None
          /\ middleware (request "vendor.example.com" "/dashboard/x") = Next)).
Proof.
  apply (dashboard_never_generic_rewrite (request "vendor.example.com" "/dashboard/x")).
  reflexivity.
Defined.

Example vendor_dashboard :
  middleware (request "vendor.example.com" "/dashboard/x") = Next.
Proof. reflexivity. Qed.

End MiddlewareFacts.

(** ** [useLeadPopup] *)

Module LeadPopupFacts.
Import LeadPopup LeadPopupSpec.

Lemma depsEqb_refl d : depsEqb d d = true.
Proof.
  destruct d as [[[a b] c] n]. unfold depsEqb.
  now rewrite !Bool.eqb_reflx, N.eqb_refl.
Qed.

Lemma depsEqb_eq a b : depsEqb a b = true -> a = b.
Proof.
  destruct a as [[[a1 a2] a3] a4], b as [[[b1 b2] b3] b4]. unfold depsEqb.
  intros H. repeat (apply andb_true_iff in H as [H ?]).
  apply Bool.eqb_prop in H. apply N.eqb_eq in H0.
  apply Bool.eqb_prop in H1. apply Bool.eqb_prop in H2. congruence.
Qed.

(** The timer effect and its cleanup touch the timer cells only. *)
Lemma timerEffect_frame v :
  options (timerEffect v) = options v /\ isOpen (timerEffect v) = isOpen v
  /\ hasSubmitted (timerEffect v) = hasSubmitted v
  /\ hasDismissed (timerEffect v) = hasDismissed v
  /\ mounted (timerEffect v) = mounted v
  /\ sessionItem (timerEffect v) = sessionItem v.
Proof. unfold timerEffect. destruct (_ || _); repeat split. Qed.

Lemma timerCleanup_frame v :
  options (timerCleanup v) = options v /\ isOpen (timerCleanup v) = isOpen v
  /\ hasSubmitted (timerCleanup v) = hasSubmitted v
  /\ hasDismissed (timerCleanup v) = hasDismissed v
  /\ mounted (timerCleanup v) = mounted v
  /\ sessionItem (timerCleanup v) = sessionItem v.
Proof.
  unfold timerCleanup. destruct (hasCleanup v); [destruct (timerRef v)|]; repeat split.
Qed.

Lemma commit_frame before after :
  options (commit before after) = options after
  /\ isOpen (commit before after) = isOpen after
  /\ hasSubmitted (commit before after) = hasSubmitted after
  /\ hasDismissed (commit before after) = hasDismissed after
  /\ mounted (commit before after) = mounted after
  /\ sessionItem (commit before after) = sessionItem after.
Proof.
  unfold commit. destruct (depsEqb _ _); [repeat split|].
  destruct (timerEffect_frame (timerCleanup after)) as (-> & -> & -> & -> & -> & ->).
  apply timerCleanup_frame.
Qed.

Lemma clearTimeout_single id d : clearTimeout id [(id, d)] = [].
Proof. unfold clearTimeout. simpl. now rewrite Nat.eqb_refl. Qed.

Lemma timerCleanup_clears v : timerTracked v -> pending (timerCleanup v) = [].
Proof.
  unfold timerCleanup. intros [H | (Hc & id & d & Hr & Hp)].
  - destruct (hasCleanup v); auto. destruct (timerRef v); auto. simpl. now rewrite H.
  - rewrite Hc, Hr. simpl. rewrite Hp. apply clearTimeout_single.
Qed.

Lemma timerEffect_wellFormed v :
  pending v = [] -> mounted v = true -> wellFormed (timerEffect v).
Proof.
  intros Hp Hm. unfold timerEffect.
  destruct (enabledAutoOpen (options v)) eqn:He; simpl.
  - destruct (hasSubmitted v) eqn:Hs; simpl; [now left|].
    destruct (hasDismissed v) eqn:Hd; simpl; [now left|].
    right. simpl. rewrite Hp. repeat split; auto. now exists (S (nextTimerId v)).
  - now left.
Qed.

Lemma wellFormed_tracked v : wellFormed v -> timerTracked v.
Proof.
  intros [H | (_ & _ & _ & _ & Hc & id & Hr & Hp)]; [now left|].
  right. split; auto. now exists id, (autoOpenDelayMs (options v)).
Qed.

(** A render keeps the view well formed, provided the update it follows
    left the timer cells and the mounted flag alone. *)
Lemma commit_wellFormed before after :
  wellFormed before ->
  mounted after = true ->
  timerRef after = timerRef before -> hasCleanup after = hasCleanup before ->
  pending after = pending before -> mounted after = mounted before ->
  wellFormed (commit before after).
Proof.
  intros Hw Hm Er Ec Ep Em. unfold commit.
  destruct (depsEqb (deps before) (deps after)) eqn:E.
  - apply depsEqb_eq in E. unfold deps in E. injection E as E1 E2 E3 E4.
    destruct Hw as [H | (H1 & H2 & H3 & H4 & H5 & id & H6 & H7)].
    + left. congruence.
    + right. repeat split; try congruence. exists id. split; congruence.
  - apply timerEffect_wellFormed.
    + apply timerCleanup_clears. apply wellFormed_tracked in Hw.
      destruct Hw as [H | (Hc & id & d & Hr & Hp)]; [left; congruence|].
      right. split; [congruence|]. exists id, d. split; congruence.
    + destruct (timerCleanup_frame after) as (_ & _ & _ & _ & -> & _). exact Hm.
Qed.

(** The effect that reads the session item changes nothing but the queue. *)
Lemma sessionEffect_frame v :
  options (sessionEffect v) = options v /\ isOpen (sessionEffect v) = isOpen v
  /\ hasSubmitted (sessionEffect v) = hasSubmitted v
  /\ hasDismissed (sessionEffect v) = hasDismissed v
  /\ mounted (sessionEffect v) = mounted v
  /\ sessionItem (sessionEffect v) = sessionItem v
  /\ pending (sessionEffect v) = pending v.
Proof. unfold sessionEffect. destruct (JS.truthy _); repeat split. Qed.

Lemma mount_wellFormed o stored : wellFormed (mount o stored).
Proof.
  unfold mount, firstEffects.
  destruct (sessionEffect_frame (firstRender o stored))
    as (_ & _ & _ & _ & Hm & _ & Hp).
  apply timerEffect_wellFormed; [rewrite Hp | rewrite Hm]; reflexivity.
Qed.

Lemma step_wellFormed e v : wellFormed v -> wellFormed (step e v).
Proof.
  intros Hw. destruct e as [| | | id | o | |]; simpl.
  - unfold openPopup. destruct (mounted v) eqn:Hm; auto.
    apply commit_wellFormed; auto.
  - unfold closePopup. destruct (mounted v) eqn:Hm; auto.
    apply commit_wellFormed; auto.
  - unfold markAsSubmitted.
    assert (H : wellFormed (if mounted v
                            then commit v (withState v false true (hasDismissed v)) else v)).
    { destruct (mounted v) eqn:Hm; auto. apply commit_wellFormed; auto. }
    exact H.
  - unfold timerFires. destruct (isPending id (pending v)) eqn:Hp; auto.
    set (v' := withTimer v (timerRef v) (hasCleanup v) (clearTimeout id (pending v))
                         (nextTimerId v)).
    assert (Hpv : pending v' = []).
    { destruct Hw as [H | (_ & _ & _ & _ & _ & k & _ & H)]; simpl; rewrite H in *.
      - reflexivity.
      - unfold isPending in Hp. simpl in Hp. rewrite orb_false_r in Hp.
        unfold clearTimeout. simpl. now rewrite Hp. }
    assert (Hw' : wellFormed v') by now left.
    destruct (mounted v') eqn:Hm; auto.
    apply commit_wellFormed; auto.
  - unfold rerender. destruct (mounted v) eqn:Hm; auto.
    apply commit_wellFormed; auto.
  - unfold unmount. destruct (mounted v) eqn:Hm; auto.
    left. simpl. apply timerCleanup_clears, wellFormed_tracked, Hw.
  - unfold renderQueued. destruct (mounted v && queued v) eqn:Hq; auto.
    apply andb_true_iff in Hq as [Hm _]. apply commit_wellFormed; auto.
Qed.

Lemma run_app a b v : run (a ++ b) v = run b (run a v).
Proof. unfold run. apply fold_left_app. Qed.

Lemma run_wellFormed events v : wellFormed v -> wellFormed (run events v).
Proof.
  revert v. induction events as [|e l IH]; simpl; auto.
  intros v Hw. apply IH, step_wellFormed, Hw.
Qed.

Lemma superseded_quiet v : wellFormed v -> superseded v -> pending v = [].
Proof.
  intros [H | (H1 & _ & H3 & H4 & _)]; auto.
  intros [H | [H | H]]; congruence.
Qed.

Lemma step_superseded e v : superseded v -> superseded (step e v).
Proof.
  unfold superseded. intros H. destruct e as [| | | id | o | |]; simpl.
  - unfold openPopup. destruct (mounted v) eqn:Hm; auto.
    destruct (commit_frame v (withState v true (hasSubmitted v) (hasDismissed v)))
      as (_ & _ & -> & -> & -> & _). simpl. now rewrite Hm.
  - unfold closePopup. destruct (mounted v) eqn:Hm; auto.
    destruct (commit_frame v (withState v false (hasSubmitted v) true))
      as (_ & _ & _ & -> & _ & _). now left.
  - unfold markAsSubmitted. simpl. destruct (mounted v) eqn:Hm; auto.
    destruct (commit_frame v (withState v false true (hasDismissed v)))
      as (_ & _ & -> & _ & _ & _). right. now left.
  - unfold timerFires. destruct (isPending id (pending v)); auto.
    set (v' := withTimer _ _ _ _ _).
    change (mounted v') with (mounted v).
    destruct (mounted v) eqn:Hm; [|right; right; exact Hm].
    destruct (commit_frame v' (withState v' true (hasSubmitted v') (hasDismissed v')))
      as (_ & _ & -> & -> & -> & _). simpl. now rewrite Hm.
  - unfold rerender. destruct (mounted v) eqn:Hm; auto.
    destruct (commit_frame v (withOptions v o)) as (_ & _ & -> & -> & -> & _).
    simpl. now rewrite Hm.
  - unfold unmount. destruct (mounted v) eqn:Hm; auto.
  - unfold renderQueued. destruct (mounted v && queued v); auto.
    destruct (commit_frame v
                (withQueued (withState v (isOpen v) true (hasDismissed v)) false))
      as (_ & _ & -> & _). right. now left.
Qed.

Lemma run_superseded events v : superseded v -> superseded (run events v).
Proof.
  revert v. induction events as [|e l IH]; simpl; auto.
  intros v H. apply IH, step_superseded, H.
Qed.

Lemma run_quiet events v :
  wellFormed v -> superseded v -> pending (run events v) = [].
Proof.
  intros Hw Hs. apply superseded_quiet; [now apply run_wellFormed | now apply run_superseded].
Qed.

(** Without a stored flag the timer of an enabled view is armed by the mount
    and opens the popup when it fires. *)
Example auto_open_fires :
  let v := mount {| autoOpenDelayMs := 20000; enabledAutoOpen := true |} None in
  isOpen v = false /\ pending v = [(1, 20000%N)]
  /\ isOpen (step (TimerFires 1) v) = true
  /\ pending (step ClosePopup (step (TimerFires 1) v)) = [].
Proof. repeat split; reflexivity. Qed.

(** With the flag stored, the first pass of the effects arms a timer (the
    state still says not submitted); the render of [setHasSubmitted(true)]
    clears it. *)
Example mount_after_submit :
  let o := {| autoOpenDelayMs := 20000; enabledAutoOpen := true |} in
  pending (mount o (Some "true")) = [(1, 20000%N)]
  /\ hasSubmitted (mount o (Some "true")) = false
  /\ hasSubmitted (step RenderQueued (mount o (Some "true"))) = true
  /\ pending (step RenderQueued (mount o (Some "true"))) = []
  /\ timerRef (step RenderQueued (mount o (Some "true"))) = None.
Proof. repeat split; reflexivity. Qed.

Lemma mount_closed o stored : isOpen (mount o stored) = false /\ mounted (mount o stored) = true.
Proof.
  unfold mount, firstEffects.
  destruct (timerEffect_frame (sessionEffect (firstRender o stored)))
    as (_ & -> & _ & _ & -> & _).
  destruct (sessionEffect_frame (firstRender o stored)) as (_ & -> & _ & _ & -> & _).
  split; reflexivity.
Qed.

Lemma mount_queued o stored : queued (mount o stored) = JS.truthy stored.
Proof.
  unfold mount, firstEffects, timerEffect, sessionEffect. cbn [sessionItem firstRender].
  destruct (JS.truthy stored); destruct (_ || _); reflexivity.
Qed.

(** Once the queued update is rendered, the view counts as submitted. *)
Lemma rendered_submitted o stored :
  JS.truthy stored = true ->
  hasSubmitted (renderQueued (mount o stored)) = true
  /\ isOpen (renderQueued (mount o stored)) = false.
Proof.
  intros H. unfold renderQueued.
  destruct (mount_closed o stored) as (Ho & Hm).
  rewrite Hm, mount_queued, H. cbn [andb].
  match goal with |- hasSubmitted (commit ?a ?b) = _ /\ _ =>
    destruct (commit_frame a b) as (_ & -> & -> & _) end.
  split; [reflexivity|exact Ho].
Qed.

Lemma openPopup_opens v : mounted v = true -> isOpen (openPopup v) = true.
Proof.
  intros Hm. unfold openPopup. rewrite Hm.
  destruct (commit_frame v (withState v true (hasSubmitted v) (hasDismissed v)))
    as (_ & -> & _). reflexivity.
Qed.

Lemma openPopup_keeps_timers v : pending (openPopup v) = pending v.
Proof.
  unfold openPopup. destruct (mounted v); auto.
  unfold commit. change (deps (withState v true (hasSubmitted v) (hasDismissed v)))
    with (deps v). now rewrite depsEqb_refl.
Qed.

Lemma quiet_timer_noop id v : pending v = [] -> timerFires id v = v.
Proof. intros H. unfold timerFires. now rewrite H. Qed.

(** Without a timer, only [openPopup] can take a view from closed to open. *)
Lemma step_open_origin e v :
  pending v = [] -> e <> OpenPopup -> isOpen (step e v) = true -> isOpen v = true.
Proof.
  intros Hp He. destruct e as [| | | id | o | |]; simpl; try congruence.
  - unfold closePopup. destruct (mounted v); auto.
    destruct (commit_frame v (withState v false (hasSubmitted v) true)) as (_ & -> & _).
    simpl. discriminate.
  - unfold markAsSubmitted. simpl. destruct (mounted v); auto.
    destruct (commit_frame v (withState v false true (hasDismissed v))) as (_ & -> & _).
    simpl. discriminate.
  - now rewrite quiet_timer_noop.
  - unfold rerender. destruct (mounted v); auto.
    destruct (commit_frame v (withOptions v o)) as (_ & -> & _). auto.
  - unfold unmount. destruct (mounted v); auto. simpl.
    destruct (timerCleanup_frame v) as (_ & -> & _). auto.
  - unfold renderQueued. destruct (mounted v && queued v); auto.
    destruct (commit_frame v
                (withQueued (withState v (isOpen v) true (hasDismissed v)) false))
      as (_ & -> & _). auto.
Qed.

Lemma run_open_origin events v :
  wellFormed v -> superseded v -> isOpen v = false ->
  isOpen (run events v) = true -> In OpenPopup events.
Proof.
  intros Hw Hs Hc. induction events as [|e l IH] using rev_ind.
  - simpl. congruence.
  - rewrite run_app. simpl. intros H. apply in_or_app.
    destruct e; try (left; apply IH;
      apply step_open_origin in H; [exact H | now apply run_quiet | discriminate]).
    right. now left.
Qed.




(** When the queued update is rendered before anything else happens, the
    view of a session that has submitted never has an armed timer again:
    no timer callback runs, the view is open only if [openPopup] was called,
    and [openPopup] does open a mounted view. *)
Lemma rendered_flag_never_auto_opens
    (earlier : View) (o : Options) (events : list Event) :
  let stored := sessionItem (markAsSubmitted earlier) in
  let v := run events (step RenderQueued (mount o stored)) in
  stored = Some "true"
  /\ pending v = []
  /\ (forall id, step (TimerFires id) v = v)
  /\ (isOpen v = true -> In OpenPopup events)
  /\ (mounted v = true -> isOpen (step OpenPopup v) = true).
Proof.
  intros stored v.
  assert (Es : stored = Some "true") by reflexivity.
  assert (Hw : wellFormed (step RenderQueued (mount o stored)))
    by apply step_wellFormed, mount_wellFormed.
  destruct (rendered_submitted o stored) as (Hsub & Hclosed); [now rewrite Es|].
  assert (Hs : superseded (step RenderQueued (mount o stored))) by (right; now left).
  assert (Hp : pending v = []) by now apply run_quiet.
  repeat split; auto.
  - intros id. now apply quiet_timer_noop.
  - apply run_open_origin; auto.
  - apply openPopup_opens.
Qed.

(** C8.  The claim fails on the code while a view mounts.  With the flag
    stored by an earlier [markAsSubmitted], the first pass of the effects
    still arms the auto-open timer: [hasSubmitted] is false in the first
    render, and the effect that reads the flag only queues
    [setHasSubmitted(true)].  The timer is pending until that update is
    rendered; when it fires first, as it can with delay 0, its callback
    opens the popup of a session that has submitted, without any call of
    [openPopup].  When the update is rendered first, the timer is cleared
    and the popup stays closed. *)
Theorem stored_flag_timer_race :
  let o := {| autoOpenDelayMs := 0; enabledAutoOpen := true |} in
  let stored := sessionItem (markAsSubmitted (mount o None)) in
  let v := mount o stored in
  stored = Some "true"
  /\ hasSubmitted v = false /\ queued v = true
  /\ pending v = [(1, 0%N)]
  /\ isOpen v = false
  /\ isOpen (step (TimerFires 1) v) = true
  /\ isOpen (run [TimerFires 1; RenderQueued] v) = true
  /\ pending (step RenderQueued v) = []
  /\ isOpen (run [RenderQueued; TimerFires 1] v) = false.
Proof. repeat split; reflexivity. Qed.



End LeadPopupFacts.

(** ** [resolveCategoryPathForService] *)

Module CategoryFacts.
Import Category.

Example resolve_sub :
  resolveCategoryPathForService (Some "Boundary Survey")
    [ {| name := "Land Surveyors"; subCategories := [ {| subName := "Boundary Survey" |} ] |} ]
  = {| headCategory := Some "Land Surveyors"; microCategory := Some "Boundary Survey";
       serviceName := Some "Boundary Survey" |}.
Proof. reflexivity. Qed.

Example resolve_head_trimmed :
  resolveCategoryPathForService (Some "  land SURVEYORS ")
    [ {| name := "Land Surveyors"; subCategories := [] |} ]
  = {| headCategory := Some "Land Surveyors"; microCategory := None;
       serviceName := Some "  land SURVEYORS " |}.
Proof. reflexivity. Qed.



(** The sub-category lookup of one loop round. *)
Lemma guarded_find ns (subs : list SubCategory) :
  (if negb (List.length subs =? 0) then List.find (matchesSub ns) subs else None)
  = List.find (matchesSub ns) subs.
Proof. now destruct subs. Qed.

Lemma search_unfold original ns category rest :
  searchCategories original ns (category :: rest) =
  if matchesHead ns category then
    Some {| headCategory := Some (name category); microCategory := None;
            serviceName := Some original |}
  else match List.find (matchesSub ns) (subCategories category) with
       | Some sub => Some {| headCategory := Some (name category);
                             microCategory := Some (subName sub);
                             serviceName := Some original |}
       | None => searchCategories original ns rest
       end.
Proof.
  simpl. fold (matchesHead ns category). destruct (matchesHead ns category); auto.
  change (fun sub : SubCategory => String.eqb (normalize (subName sub)) ns)
    with (matchesSub ns).
  now rewrite guarded_find.
Qed.


Lemma resolve_nonempty s categories :
  s <> "" -> categories <> [] ->
  resolveCategoryPathForService (Some s) categories =
  match searchCategories s (normalize s) categories with
  | Some r => r
  | None => {| headCategory := None; microCategory := None; serviceName := Some s |}
  end.
Proof.
  intros Hs Hc. unfold resolveCategoryPathForService.
  destruct s; [congruence|]. destruct categories; [congruence|]. reflexivity.
Qed.



End CategoryFacts.

(** ** [split], [join] and [includes] *)

Lemma append_assoc (a b c : string) : (a ++ b) ++ c = a ++ (b ++ c).
Proof. induction a as [|x a IH]; simpl; congruence. Qed.

Lemma append_nil_r (a : string) : a ++ "" = a.
Proof. induction a as [|x a IH]; simpl; congruence. Qed.

Lemma length_append (a b : string) :
  String.length (a ++ b) = String.length a + String.length b.
Proof. induction a as [|x a IH]; simpl; congruence. Qed.

Lemma all_append p a b : JS.all p (a ++ b) = JS.all p a && JS.all p b.
Proof. induction a as [|x a IH]; simpl; auto. now rewrite IH, andb_assoc. Qed.

Lemma stripPrefix_append sep r : JS.stripPrefix sep (sep ++ r) = Some r.
Proof. induction sep as [|a sep IH]; simpl; auto. now rewrite Ascii.eqb_refl. Qed.

Lemma stripPrefix_spec sep s r : JS.stripPrefix sep s = Some r -> s = sep ++ r.
Proof.
  revert s. induction sep as [|a sep IH]; simpl; intros s H.
  - congruence.
  - destruct s as [|b s]; [discriminate|].
    destruct (Ascii.eqb_spec a b); [|discriminate]. subst. f_equal. auto.
Qed.

Lemma stripPrefix_extend sep s r t :
  JS.stripPrefix sep s = Some r -> JS.stripPrefix sep (s ++ t) = Some (r ++ t).
Proof.
  intros H. apply stripPrefix_spec in H. subst.
  rewrite append_assoc. apply stripPrefix_append.
Qed.

Lemma breakOn_unfold sep s :
  JS.breakOn sep s =
  match JS.stripPrefix sep s with
  | Some rest => Some ("", rest)
  | None =>
      match s with
      | "" => None
      | String c r =>
          match JS.breakOn sep r with
          | Some (before, rest) => Some (String c before, rest)
          | None => None
          end
      end
  end.
Proof. destruct s; reflexivity. Qed.

Lemma breakOn_spec sep s before rest :
  JS.breakOn sep s = Some (before, rest) -> s = before ++ sep ++ rest.
Proof.
  revert before rest. induction s as [|c s IH]; intros before rest;
    rewrite breakOn_unfold.
  - destruct (JS.stripPrefix sep "") eqn:E; [|discriminate].
    intros H. injection H as <- <-. simpl. now apply stripPrefix_spec.
  - destruct (JS.stripPrefix sep (String c s)) eqn:E.
    + intros H. injection H as <- <-. simpl. now apply stripPrefix_spec.
    + destruct (JS.breakOn sep s) as [[b r]|] eqn:Eb; [|discriminate].
      intros H. injection H as <- <-. simpl. f_equal. now apply IH.
Qed.

Lemma breakOn_shorter sep s before rest :
  sep <> "" -> JS.breakOn sep s = Some (before, rest) ->
  String.length rest < String.length s.
Proof.
  intros Hsep H. apply breakOn_spec in H. subst.
  rewrite !length_append. destruct sep; [congruence|]. simpl. lia.
Qed.

(** The match found by [breakOn] is the leftmost one. *)
Lemma breakOn_leftmost sep s before rest b' r' :
  JS.breakOn sep s = Some (before, rest) -> s = b' ++ sep ++ r' ->
  String.length before <= String.length b'.
Proof.
  revert before rest b'. induction s as [|c s IH]; intros before rest b';
    rewrite breakOn_unfold.
  - destruct (JS.stripPrefix sep ""); [|discriminate].
    intros H. injection H as <- <-. simpl. lia.
  - destruct (JS.stripPrefix sep (String c s)) eqn:E.
    + intros H. injection H as <- <-. simpl. lia.
    + destruct (JS.breakOn sep s) as [[b r]|] eqn:Eb; [|discriminate].
      intros H. injection H as <- <-. intros Hs.
      destruct b' as [|x b'].
      * simpl in Hs. rewrite Hs, stripPrefix_append in E. discriminate.
      * simpl in Hs. injection Hs as -> Hs. simpl.
        apply le_n_S. eapply IH; eauto.
Qed.

(** With no match at all, the separator does not occur. *)
Lemma breakOn_none sep s b' r' : JS.breakOn sep s = None -> s <> b' ++ sep ++ r'.
Proof.
  revert b'. induction s as [|c s IH]; intros b'; rewrite breakOn_unfold.
  - destruct (JS.stripPrefix sep "") eqn:E; [discriminate|].
    intros _ Hs. destruct b'; [|discriminate]. simpl in Hs.
    rewrite Hs, stripPrefix_append in E. discriminate.
  - destruct (JS.stripPrefix sep (String c s)) eqn:E; [discriminate|].
    destruct (JS.breakOn sep s) as [[b r]|] eqn:Eb; [discriminate|].
    intros _ Hs. destruct b' as [|x b'].
    + simpl in Hs. rewrite Hs, stripPrefix_append in E. discriminate.
    + simpl in Hs. injection Hs as -> Hs. now apply (IH b').
Qed.

Lemma stripPrefix_none_extend sep s t :
  JS.stripPrefix sep s = None -> String.length sep <= String.length s ->
  JS.stripPrefix sep (s ++ t) = None.
Proof.
  revert s. induction sep as [|a sep IH]; simpl; intros s H Hl; [discriminate|].
  destruct s as [|b s]; simpl in *; [lia|].
  destruct (Ascii.eqb a b); auto. apply IH; auto. lia.
Qed.

Lemma breakOn_extend sep s before rest t :
  JS.breakOn sep s = Some (before, rest) ->
  JS.breakOn sep (s ++ t) = Some (before, rest ++ t).
Proof.
  revert before rest. induction s as [|c s IH]; intros before rest;
    rewrite breakOn_unfold.
  - destruct (JS.stripPrefix sep "") eqn:E; [|discriminate].
    intros H. injection H as <- <-.
    rewrite breakOn_unfold, (stripPrefix_extend _ _ _ t E). reflexivity.
  - destruct (JS.stripPrefix sep (String c s)) eqn:E.
    + intros H. injection H as <- <-.
      rewrite breakOn_unfold, (stripPrefix_extend _ _ _ t E). reflexivity.
    + destruct (JS.breakOn sep s) as [[b r]|] eqn:Eb; [|discriminate].
      intros H. injection H as <- <-.
      assert (Hl : String.length sep <= String.length (String c s)).
      { apply breakOn_spec in Eb. rewrite Eb. simpl. rewrite !length_append. lia. }
      rewrite breakOn_unfold, (stripPrefix_none_extend _ _ t E Hl).
      simpl. now rewrite (IH _ _ eq_refl).
Qed.

Lemma splitFuel_enough sep :
  sep <> "" ->
  forall n m s, String.length s < n -> String.length s < m ->
  JS.splitFuel n sep s = JS.splitFuel m sep s.
Proof.
  intros Hsep. induction n as [|n IH]; intros m s Hn Hm; [lia|].
  destruct m as [|m]; [lia|]. simpl.
  destruct (JS.breakOn sep s) as [[b r]|] eqn:E; auto.
  f_equal. pose proof (breakOn_shorter _ _ _ _ Hsep E). apply IH; lia.
Qed.

Lemma splitFuel_S n sep s :
  JS.splitFuel (S n) sep s =
  match JS.breakOn sep s with
  | Some (before, rest) => before :: JS.splitFuel n sep rest
  | None => [s]
  end.
Proof. reflexivity. Qed.

Lemma split_unfold sep s :
  sep <> "" ->
  JS.split s sep =
  match JS.breakOn sep s with
  | Some (before, rest) => before :: JS.split rest sep
  | None => [s]
  end.
Proof.
  intros Hsep. unfold JS.split. destruct sep as [|a sep]; [congruence|].
  rewrite (splitFuel_S (String.length s)).
  destruct (JS.breakOn (String a sep) s) as [[b r]|] eqn:E; auto.
  f_equal. pose proof (breakOn_shorter _ _ _ _ Hsep E).
  apply splitFuel_enough; auto; lia.
Qed.

Lemma split_nonempty sep s : sep <> "" -> JS.split s sep <> [].
Proof.
  intros Hsep. rewrite split_unfold by auto.
  destruct (JS.breakOn sep s) as [[b r]|]; discriminate.
Qed.

Lemma concat_cons sep x l :
  l <> [] -> String.concat sep (x :: l) = x ++ sep ++ String.concat sep l.
Proof. destruct l; [congruence|reflexivity]. Qed.

(** Joining the pieces of a split gives the string back. *)
Lemma join_split sep s : sep <> "" -> JS.join (JS.split s sep) sep = s.
Proof.
  intros Hsep. unfold JS.join.
  remember (String.length s) as n eqn:En. revert s En.
  induction n as [n IH] using lt_wf_ind. intros s En.
  rewrite split_unfold by auto.
  destruct (JS.breakOn sep s) as [[b r]|] eqn:E; [|reflexivity].
  rewrite concat_cons by now apply split_nonempty.
  pose proof (breakOn_shorter _ _ _ _ Hsep E).
  rewrite (IH (String.length r)); [|lia|reflexivity].
  symmetry. now apply breakOn_spec.
Qed.

Lemma breakOn_first sep s before rest :
  JS.breakOn sep s = Some (before, rest) -> firstOccurrence sep s before rest.
Proof.
  intros H. split; [now apply breakOn_spec|].
  intros b a. now apply breakOn_leftmost with (rest := rest).
Qed.

Lemma hyphen_eqb c : Ascii.eqb "-" c = JS.isHyphen c.
Proof. by_cases_on_char c. Qed.

Lemma hyphenFree_cons c s :
  hyphenFree (String c s) = negb (JS.isHyphen c) && hyphenFree s.
Proof. reflexivity. Qed.

Lemma stripPrefix_hyphen c s :
  JS.stripPrefix "-" (String c s) = if JS.isHyphen c then Some s else None.
Proof. cbn [JS.stripPrefix]. rewrite hyphen_eqb. now destruct s. Qed.

Lemma breakOn_hyphen_cons c s :
  JS.breakOn "-" (String c s) =
  if JS.isHyphen c then Some ("", s)
  else match JS.breakOn "-" s with
       | Some (before, rest) => Some (String c before, rest)
       | None => None
       end.
Proof.
  rewrite breakOn_unfold, stripPrefix_hyphen. now destruct (JS.isHyphen c).
Qed.

Lemma breakOn_hyphen_token t r :
  hyphenFree t = true -> JS.breakOn "-" (t ++ "-" ++ r) = Some (t, r).
Proof.
  induction t as [|c t IH]; intros H.
  - reflexivity.
  - simpl in H. apply andb_true_iff in H as [Hc Ht].
    apply negb_true_iff in Hc.
    change (String c t ++ "-" ++ r) with (String c (t ++ "-" ++ r)).
    rewrite breakOn_hyphen_cons, Hc.
    now rewrite (IH Ht).
Qed.

Lemma breakOn_hyphen_none t : hyphenFree t = true -> JS.breakOn "-" t = None.
Proof.
  induction t as [|c t IH]; intros H.
  - reflexivity.
  - simpl in H. apply andb_true_iff in H as [Hc Ht].
    apply negb_true_iff in Hc.
    rewrite breakOn_hyphen_cons, Hc. now rewrite (IH Ht).
Qed.

Lemma breakOn_hyphen_before s b r :
  JS.breakOn "-" s = Some (b, r) -> hyphenFree b = true.
Proof.
  revert b r. induction s as [|c s IH]; intros b r.
  - discriminate.
  - rewrite breakOn_hyphen_cons. destruct (JS.isHyphen c) eqn:Hc.
    + intros H. now injection H as <- <-.
    + destruct (JS.breakOn "-" s) as [[b' r']|] eqn:E; [|discriminate].
      intros H. injection H as <- <-. rewrite hyphenFree_cons, Hc. simpl. eapply IH; eauto.
Qed.

Lemma breakOn_hyphen_none_inv s : JS.breakOn "-" s = None -> hyphenFree s = true.
Proof.
  induction s as [|c s IH]; auto.
  rewrite breakOn_hyphen_cons. destruct (JS.isHyphen c) eqn:Hc; [discriminate|].
  destruct (JS.breakOn "-" s) as [[b' r']|] eqn:E; [discriminate|].
  intros _. rewrite hyphenFree_cons, Hc. auto.
Qed.

(** Splitting at hyphens what was joined with hyphens gives the tokens back. *)
Lemma split_join_tokens tokens :
  tokens <> [] -> forallb hyphenFree tokens = true ->
  JS.split (JS.join tokens "-") "-" = tokens.
Proof.
  unfold JS.join. induction tokens as [|t l IH]; [congruence|].
  intros _ H. simpl in H. apply andb_true_iff in H as [Ht Hl].
  destruct l as [|t' l].
  - cbn [String.concat]. rewrite split_unfold by discriminate.
    now rewrite breakOn_hyphen_none.
  - rewrite concat_cons by discriminate.
    rewrite split_unfold by discriminate.
    rewrite (breakOn_hyphen_token _ _ Ht). f_equal. apply IH; [discriminate|exact Hl].
Qed.

(** The pieces of a split at hyphens are tokens. *)
Lemma split_hyphenFree s : forallb hyphenFree (JS.split s "-") = true.
Proof.
  remember (String.length s) as n eqn:En. revert s En.
  induction n as [n IH] using lt_wf_ind. intros s En.
  rewrite split_unfold by discriminate.
  destruct (JS.breakOn "-" s) as [[b r]|] eqn:E.
  - simpl. rewrite (breakOn_hyphen_before _ _ _ E). simpl.
    assert (Hl : String.length r < String.length s)
      by (eapply breakOn_shorter; eauto; discriminate).
    apply (IH (String.length r)); [lia|reflexivity].
  - simpl. now rewrite (breakOn_hyphen_none_inv _ E).
Qed.

Lemma concat_app sep (a b : list string) :
  a <> [] -> b <> [] ->
  String.concat sep (a ++ b) = String.concat sep a ++ sep ++ String.concat sep b.
Proof.
  intros Ha Hb. induction a as [|x a IH]; [congruence|].
  destruct a as [|y a].
  - simpl. destruct b; [now exfalso; apply Hb | reflexivity].
  - rewrite <- app_comm_cons, concat_cons by (simpl; discriminate).
    rewrite IH by discriminate.
    rewrite (concat_cons sep x (y :: a)) by discriminate. now rewrite !append_assoc.
Qed.

(** ** [parseSeoSlug] *)

Lemma includes_breakOn s sep :
  JS.includes s sep = true -> exists before rest, JS.breakOn sep s = Some (before, rest).
Proof.
  unfold JS.includes. destruct (JS.breakOn sep s) as [[b r]|]; [|discriminate].
  intros _. now exists b, r.
Qed.

Lemma not_includes_breakOn s sep : JS.includes s sep = false -> JS.breakOn sep s = None.
Proof. unfold JS.includes. now destruct (JS.breakOn sep s). Qed.

Lemma breakOn_noOccurrence sep s : JS.breakOn sep s = None -> noOccurrence sep s.
Proof. intros H b a. now apply breakOn_none. Qed.

(** The text between the first marker and the second one (the end of the
    string when there is no second one). *)
Lemma split_second sep rest :
  sep <> "" ->
  exists part more, JS.split rest sep = part :: more /\ upToFirst sep rest part.
Proof.
  intros Hsep. rewrite split_unfold by auto.
  destruct (JS.breakOn sep rest) as [[b r]|] eqn:E.
  - exists b, (JS.split r sep). split; auto. right. exists r. now apply breakOn_first.
  - exists rest, []. split; auto. left. split; auto. now apply breakOn_noOccurrence.
Qed.

(** The parser never throws. *)
Lemma parseSeoSlug_total slugArray : exists t, parseSeoSlug slugArray = Some t.
Proof.
  unfold parseSeoSlug. destruct (JS.includes _ "-in-") eqn:E; [|eauto].
  apply includes_breakOn in E as (b & r & E).
  rewrite split_unfold, E by discriminate.
  destruct (split_second "-in-" r) as (part & more & -> & _); [discriminate|].
  destruct (parseLocation part). eauto.
Qed.

(** The service slug is never null. *)
Lemma parseSeoSlug_service_present slugArray t :
  parseSeoSlug slugArray = Some t -> serviceSlug t <> None.
Proof.
  unfold parseSeoSlug. destruct (JS.includes _ "-in-").
  - destruct (JS.split _ "-in-") as [|sp [|lp l]]; try discriminate.
    destruct (parseLocation lp). intros H. injection H as <-. discriminate.
  - intros H. injection H as <-. discriminate.
Qed.

Lemma firstn_app_exact {A} (a b : list A) : firstn (List.length (a ++ b) - List.length b) (a ++ b) = a.
Proof.
  rewrite length_app, Nat.add_sub.
  rewrite firstn_app, Nat.sub_diag, firstn_all. simpl. apply app_nil_r.
Qed.

Lemma skipn_app_exact {A} (a b : list A) : skipn (List.length (a ++ b) - List.length b) (a ++ b) = b.
Proof.
  rewrite length_app, Nat.add_sub.
  rewrite skipn_app, Nat.sub_diag, skipn_all. reflexivity.
Qed.

(** With three tokens or more, the last two are the state and the others
    the city. *)
Lemma parseLocation_three locationPart cityTokens t1 t2 :
  cityTokens <> [] ->
  JS.split locationPart "-" = (cityTokens ++ [t1; t2])%list ->
  parseLocation locationPart
  = (JS.orNull (JS.join cityTokens "-"), Some (JS.join [t1; t2] "-")).
Proof.
  intros Hc Hs. unfold parseLocation. rewrite Hs.
  assert (Hl : (3 <=? List.length (cityTokens ++ [t1; t2])) = true).
  { apply Nat.leb_le. rewrite length_app. simpl.
    destruct cityTokens; [congruence|]. simpl. lia. }
  rewrite Hl. unfold butLastTwo, lastTwo.
  change 2 with (List.length [t1; t2]).
  now rewrite firstn_app_exact, skipn_app_exact.
Qed.

(** C2 as stated fails: with two markers the location part stops at the
    second one; cutting once, at the first marker, would give another
    triple. *)
Lemma second_marker_ends_location :
  parseSeoSlug ["a-in-b-in-c"]
  = Some {| serviceSlug := Some "a"; citySlug := Some "b"; stateSlug := None |}
  /\ parseSeoSlugOneCut ["a-in-b-in-c"]
  = Some {| serviceSlug := Some "a"; citySlug := Some "b"; stateSlug := Some "in-c" |}.
Proof. split; reflexivity. Qed.

(** C2, amended.  When the joined slug contains [-in-], the service slug is
    the text before the first [-in-], and the city/state heuristic is applied
    to the text between the first [-in-] and the next one (to the end when
    there is no other).  When that location part splits at hyphens into
    three tokens or more, the state slug is the last two joined by a hyphen
    and the city slug is the others joined by a hyphen, or null when that
    is the empty string. *)
Theorem parseSeoSlug_cuts_at_markers (slugArray : list string) :
  JS.includes (JS.join slugArray "-") "-in-" = true ->
  exists servicePart rest locationPart,
    firstOccurrence "-in-" (JS.join slugArray "-") servicePart rest
    /\ upToFirst "-in-" rest locationPart
    /\ parseSeoSlug slugArray
       = Some {| serviceSlug := Some servicePart;
                 citySlug := fst (parseLocation locationPart);
                 stateSlug := snd (parseLocation locationPart) |}
    /\ (forall cityTokens t1 t2,
          cityTokens <> [] ->
          JS.split locationPart "-" = (cityTokens ++ [t1; t2])%list ->
          fst (parseLocation locationPart) = JS.orNull (JS.join cityTokens "-")
          /\ snd (parseLocation locationPart) = Some (t1 ++ "-" ++ t2)).
Proof.
  intros Hinc. unfold parseSeoSlug. rewrite Hinc.
  apply includes_breakOn in Hinc as (b & r & E).
  rewrite split_unfold, E by discriminate.
  destruct (split_second "-in-" r) as (part & more & -> & Hup); [discriminate|].
  exists b, r, part. split; [now apply breakOn_first|]. split; [exact Hup|]. split.
  - now destruct (parseLocation part).
  - intros cityTokens t1 t2 Hc Hs.
    rewrite (parseLocation_three _ _ _ _ Hc Hs). split; reflexivity.
Qed.

Lemma parseSeoSlug_cuts_at_markers_witness :
  exists servicePart rest locationPart,
    firstOccurrence "-in-" (JS.join ["land-surveyors-in-new-delhi-uttar-pradesh"] "-")
      servicePart rest
    /\ upToFirst "-in-" rest locationPart
    /\ parseSeoSlug ["land-surveyors-in-new-delhi-uttar-pradesh"]
       = Some {| serviceSlug := Some servicePart;
                 citySlug := fst (parseLocation locationPart);
                 stateSlug := snd (parseLocation locationPart) |}
    /\ (forall cityTokens t1 t2,
          cityTokens <> [] ->
          JS.split locationPart "-" = (cityTokens ++ [t1; t2])%list ->
          fst (parseLocation locationPart) = JS.orNull (JS.join cityTokens "-")
          /\ snd (parseLocation locationPart) = Some (t1 ++ "-" ++ t2)).
Proof.
  apply (parseSeoSlug_cuts_at_markers ["land-surveyors-in-new-delhi-uttar-pradesh"]).
  reflexivity.
Defined.

Example parse_new_delhi :
  parseSeoSlug ["land-surveyors-in-new-delhi-uttar-pradesh"]
  = Some {| serviceSlug := Some "land-surveyors"; citySlug := Some "new-delhi";
            stateSlug := Some "uttar-pradesh" |}.
Proof. reflexivity. Qed.

(** C4.  The service slug is never null, but fields can be the empty string:
    a slug that ends with the marker gives an empty city, one that starts
    with it an empty service, a trailing hyphen an empty state, and an empty
    segment an empty service. *)
Theorem parseSeoSlug_empty_fields :
  parseSeoSlug ["plumbers-in-"]
  = Some {| serviceSlug := Some "plumbers"; citySlug := Some ""; stateSlug := None |}
  /\ parseSeoSlug ["-in-delhi"]
  = Some {| serviceSlug := Some ""; citySlug := Some "delhi"; stateSlug := None |}
  /\ parseSeoSlug ["plumbers-in-delhi-"]
  = Some {| serviceSlug := Some "plumbers"; citySlug := Some "delhi"; stateSlug := Some "" |}
  /\ parseSeoSlug [""]
  = Some {| serviceSlug := Some ""; citySlug := None; stateSlug := None |}.
Proof. repeat split; reflexivity. Qed.

(** ** Round trip between builder and parser *)

Lemma slugChar_not_slash c : slugChar c = true -> negb (Ascii.eqb "/" c) = true.
Proof. by_cases_on_char c. Qed.

Lemma breakOn_absent a sep s :
  JS.all (fun c => negb (Ascii.eqb a c)) s = true -> JS.breakOn (String a sep) s = None.
Proof.
  induction s as [|c s IH]; [reflexivity|].
  intros H. simpl in H. apply andb_true_iff in H as [Hc Hs].
  apply negb_true_iff in Hc.
  rewrite breakOn_unfold. cbn [JS.stripPrefix]. rewrite Hc, (IH Hs). reflexivity.
Qed.

Lemma breakOn_at_start sep s : JS.breakOn sep (sep ++ s) = Some ("", s).
Proof. now rewrite breakOn_unfold, stripPrefix_append. Qed.

(** [("/directory/" + slug).split('/directory/')[1]] is [slug]. *)
Lemma after_directory slug :
  JS.all slugChar slug = true ->
  nth_error (JS.split ("/directory/" ++ slug) "/directory/") 1 = Some slug.
Proof.
  intros H.
  rewrite split_unfold, breakOn_at_start by discriminate.
  rewrite split_unfold by discriminate.
  rewrite breakOn_absent; [reflexivity|].
  eapply all_impl; [|exact H]. apply slugChar_not_slash.
Qed.

Lemma isSlug_chars s : isSlug s = true -> JS.all slugChar s = true.
Proof.
  unfold isSlug. intros H. repeat (apply andb_true_iff in H as [H _]). exact H.
Qed.

Lemma toSlug_chars x : JS.all slugChar (toSlug x) = true.
Proof. apply isSlug_chars, toSlug_isSlug. Qed.

Lemma slugText_chars o : JS.all slugChar (slugText o) = true.
Proof. destruct o; [apply toSlug_chars | reflexivity]. Qed.

(** Where the marker cannot start earlier, the first occurrence of [-in-]
    in [service ++ "-in-" ++ location] is the marker itself. *)
Lemma stripPrefix_marker c r location :
  JS.stripPrefix "-in-" (String c r ++ "-") = None ->
  JS.stripPrefix "-in-" (String c r ++ "-in-" ++ location) = None.
Proof.
  destruct r as [|x [|y [|z r]]]; cbn [String.append JS.stripPrefix];
    repeat match goal with
           | |- context [Ascii.eqb ?a ?b] => destruct (Ascii.eqb a b) eqn:?
           end; try reflexivity; try discriminate; auto.
Qed.

Lemma marker_first service location :
  JS.breakOn "-in-" (service ++ "-") = None ->
  JS.breakOn "-in-" (service ++ "-in-" ++ location) = Some (service, location).
Proof.
  induction service as [|c r IH]; intros H.
  - change ("" ++ "-in-" ++ location) with ("-in-" ++ location). apply breakOn_at_start.
  - change (String c r ++ "-") with (String c (r ++ "-")) in H.
    rewrite breakOn_unfold in H.
    destruct (JS.stripPrefix "-in-" (String c (r ++ "-"))) eqn:E; [discriminate|].
    destruct (JS.breakOn "-in-" (r ++ "-")) as [[b t]|] eqn:Eb; [discriminate|].
    change (String c r ++ "-in-" ++ location) with (String c (r ++ "-in-" ++ location)).
    rewrite breakOn_unfold.
    change (String c (r ++ "-in-" ++ location)) with (String c r ++ "-in-" ++ location).
    rewrite (stripPrefix_marker c r location E).
    change (String c r ++ "-in-" ++ location) with (String c (r ++ "-in-" ++ location)).
    cbv iota beta. now rewrite (IH eq_refl).
Qed.

Lemma parse_service_only slug :
  JS.includes slug "-in-" = false ->
  parseSeoSlug (JS.split slug "-")
  = Some {| serviceSlug := Some slug; citySlug := None; stateSlug := None |}.
Proof.
  intros H. unfold parseSeoSlug. rewrite join_split by discriminate. now rewrite H.
Qed.

Lemma parse_full service city state :
  JS.includes (service ++ "-") "-in-" = false ->
  JS.includes (city ++ "-" ++ state) "-in-" = false ->
  city <> "" -> List.length (JS.split state "-") = 2 ->
  parseSeoSlug (JS.split (service ++ "-in-" ++ city ++ "-" ++ state) "-")
  = Some {| serviceSlug := Some service; citySlug := Some city; stateSlug := Some state |}.
Proof.
  intros Hs Hl Hc Ht. unfold parseSeoSlug. rewrite join_split by discriminate.
  apply not_includes_breakOn in Hs. apply not_includes_breakOn in Hl.
  pose proof (marker_first service (city ++ "-" ++ state) Hs) as Hm.
  unfold JS.includes. rewrite Hm.
  rewrite split_unfold, Hm by discriminate.
  rewrite split_unfold, Hl by discriminate.
  destruct (JS.split state "-") as [|t1 [|t2 [|t3 l]]] eqn:Est; try discriminate.
  assert (Hst : state = t1 ++ "-" ++ t2).
  { rewrite <- (join_split "-" state), Est by discriminate. reflexivity. }
  assert (Hparts : JS.split (city ++ "-" ++ state) "-" = (JS.split city "-" ++ [t1; t2])%list).
  { rewrite <- (join_split "-" city) at 1 by discriminate.
    rewrite <- (join_split "-" state) at 1 by discriminate.
    unfold JS.join. rewrite <- concat_app, Est;
      [| now apply split_nonempty | rewrite Est; discriminate].
    apply split_join_tokens.
    - pose proof (split_nonempty "-" city). destruct (JS.split city "-"); [now auto|discriminate].
    - rewrite forallb_app, split_hyphenFree. rewrite <- Est. apply split_hyphenFree. }
  rewrite (parseLocation_three _ _ _ _ (split_nonempty "-" city ltac:(discriminate)) Hparts).
  rewrite join_split by discriminate.
  unfold JS.orNull. destruct city; [congruence|]. simpl.
  rewrite Hst. reflexivity.
Qed.

(** C3 as stated fails: a service name whose slug contains [-in-] does not
    survive the round trip, and a name with an empty slug has no path. *)
Lemma made_in_india_breaks_round_trip :
  let x := {| serviceName := Some "Made in India"; cityName := None; stateName := None |} in
  roundTrip x
  = Some {| serviceSlug := Some "made"; citySlug := Some "india"; stateSlug := None |}
  /\ slugsOf x
  = {| serviceSlug := Some "made-in-india"; citySlug := None; stateSlug := None |}
  /\ roundTrip {| serviceName := Some "!!!"; cityName := None; stateName := None |} = None.
Proof. repeat split; reflexivity. Qed.

(** C3, amended.  For a service name with a non-empty slug, the round trip
    gives back the slugs of the input
    - when no city and no state are given and the service slug does not
      contain [-in-];
    - when city and state are given, the city slug is non-empty, the state
      slug has exactly two hyphen-separated tokens, the service slug neither
      contains [-in-] nor ends with [-in], and the city slug, a hyphen and
      the state slug together do not contain [-in-]. *)
Theorem roundTrip_slugs (x : SeoOpts) :
  effectivelyPresent (serviceName x) = true ->
  (JS.truthy (cityName x) = false /\ JS.truthy (stateName x) = false
   /\ JS.includes (slugText (serviceName x)) "-in-" = false)
  \/ (effectivelyPresent (cityName x) = true
      /\ List.length (JS.split (slugText (stateName x)) "-") = 2
      /\ JS.includes (slugText (serviceName x) ++ "-") "-in-" = false
      /\ JS.includes (slugText (cityName x) ++ "-" ++ slugText (stateName x)) "-in-" = false) ->
  roundTrip x = Some (slugsOf x).
Proof.
  intros Hsv [(Hc & Ht & Hin) | (Hc & Ht & Hin & Hloc)]; unfold roundTrip, slugsOf.
  - assert (Ec : slugOf (cityName x) = None).
    { destruct (cityName x) as [c|]; simpl in *; [now rewrite Hc | reflexivity]. }
    assert (Et : slugOf (stateName x) = None).
    { destruct (stateName x) as [c|]; simpl in *; [now rewrite Ht | reflexivity]. }
    rewrite build_service_only; auto.
    + rewrite after_directory by apply slugText_chars.
      rewrite parse_service_only by exact Hin.
      rewrite Ec, Et. now apply effectivelyPresent_slugOf in Hsv as [-> _].
    + unfold effectivelyPresent. now rewrite Ec.
  - assert (Hst : effectivelyPresent (stateName x) = true).
    { unfold effectivelyPresent. destruct (stateName x) as [t|]; simpl in *.
      - destruct (JS.isEmpty t) eqn:Ee; simpl.
        + destruct t; [discriminate Ht | discriminate Ee].
        + destruct (toSlug t); [discriminate Ht | reflexivity].
      - discriminate Ht. }
    rewrite build_full by auto.
    rewrite after_directory.
    + apply effectivelyPresent_slugOf in Hsv as [-> _].
      apply effectivelyPresent_slugOf in Hst as [-> _].
      apply effectivelyPresent_slugOf in Hc as [-> Hne].
      now apply parse_full.
    + rewrite !all_append, !slugText_chars. reflexivity.
Qed.

Lemma roundTrip_slugs_witness :
  roundTrip {| serviceName := Some "PEB Building Design Consultant";
               cityName := Some "Visakhapatnam"; stateName := Some "Andhra Pradesh" |}
  = Some (slugsOf {| serviceName := Some "PEB Building Design Consultant";
                     cityName := Some "Visakhapatnam";
                     stateName := Some "Andhra Pradesh" |}).
Proof.
  apply (roundTrip_slugs {| serviceName := Some "PEB Building Design Consultant";
                            cityName := Some "Visakhapatnam";
                            stateName := Some "Andhra Pradesh" |}).
  - reflexivity.
  - right. repeat split; reflexivity.
Defined.

(** ** The first host label *)

Module HostFacts.
Import Middleware.

(** The first piece of a split at a one-character separator keeps the first
    character of the string when that character is not the separator. *)
Lemma first_piece_cons a c s :
  Ascii.eqb a c = false ->
  exists t, itemOrEmpty (JS.split (String c s) (String a "")) 0 = String c t.
Proof.
  intros H. rewrite split_unfold by discriminate.
  rewrite breakOn_unfold. cbn [JS.stripPrefix]. rewrite H.
  destruct (JS.breakOn (String a "") s) as [[b r]|]; unfold itemOrEmpty; simpl.
  - now exists b.
  - now exists s.
Qed.

(** A Host header that starts with a character other than a dot or a colon
    has a non-empty first label: [subdomain === ''] is false for it. *)
Lemma subdomain_nonempty req c h :
  hostHeader req = Some (String c h) ->
  Ascii.eqb "." c = false -> Ascii.eqb ":" c = false ->
  subdomainOf req <> "".
Proof.
  intros Hh Hdot Hcolon. unfold subdomainOf, hostnameOf, hostOf. rewrite Hh.
  destruct (first_piece_cons ":" c h Hcolon) as (t & ->).
  destruct (first_piece_cons "." c t Hdot) as (u & ->). discriminate.
Qed.

(** So block 2.5 applies to such a host only when its first label is [www]. *)
Lemma mainRedirect_only_www req c h :
  hostHeader req = Some (String c h) ->
  Ascii.eqb "." c = false -> Ascii.eqb ":" c = false ->
  subdomainOf req <> "www" ->
  mainRedirect req = None.
Proof.
  intros Hh Hdot Hcolon Hwww. unfold mainRedirect.
  pose proof (subdomain_nonempty req c h Hh Hdot Hcolon) as Hne.
  apply String.eqb_neq in Hne. apply String.eqb_neq in Hwww.
  now rewrite Hne, Hwww.
Qed.

End HostFacts.

(* ================================================================== *)
(** * Further properties of the slug utilities *)
(* ================================================================== *)

Lemma lastSatisfies_cons p c r :
  lastSatisfies p (String c r) = if JS.isEmpty r then p c else lastSatisfies p r.
Proof. now destruct r. Qed.

Lemma dropEnd_fixed_last p s :
  JS.dropEnd p s = s -> lastSatisfies p s = false.
Proof.
  induction s as [|c r IH]; [reflexivity|].
  rewrite lastSatisfies_cons. cbn [JS.dropEnd].
  destruct (p c && JS.isEmpty (JS.dropEnd p r)) eqn:E; [discriminate|].
  intros H. injection H as H. rewrite H in E.
  destruct (JS.isEmpty r); [|now apply IH].
  now rewrite andb_true_r in E.
Qed.

Lemma last_dropEnd_fixed p s :
  lastSatisfies p s = false -> JS.dropEnd p s = s.
Proof.
  induction s as [|c r IH]; [reflexivity|].
  rewrite lastSatisfies_cons. cbn [JS.dropEnd].
  destruct r as [|d r'].
  - simpl. now intros ->.
  - cbn [JS.isEmpty]. intros H. rewrite (IH H). cbn [JS.isEmpty].
    now rewrite andb_false_r.
Qed.

Lemma isSlug_parts s :
  isSlug s = true ->
  JS.all slugChar s = true /\ noDoubleHyphen s = true
  /\ startsWithHyphen s = false /\ JS.dropEnd JS.isHyphen s = s.
Proof.
  unfold isSlug. intros H.
  apply andb_true_iff in H as [H He].
  apply andb_true_iff in H as [H Hs].
  apply andb_true_iff in H as [Ha Hd].
  apply negb_true_iff in Hs. apply String.eqb_eq in He. auto.
Qed.

(** X1.  Every value of [toSlug] is made of [a-z], [0-9] and hyphens only,
    neither starts nor ends with a hyphen, and has no two hyphens in a
    row. *)
Theorem toSlug_shape (x : string) :
  JS.all slugChar (toSlug x) = true
  /\ startsWithHyphen (toSlug x) = false
  /\ lastSatisfies JS.isHyphen (toSlug x) = false
  /\ noDoubleHyphen (toSlug x) = true.
Proof.
  destruct (isSlug_parts _ (toSlug_isSlug x)) as (Ha & Hd & Hs & He).
  repeat split; auto. now apply dropEnd_fixed_last.
Qed.

Lemma anyChar_dropStart p q s :
  (forall c, p c = true -> q c = false) ->
  anyChar q (JS.dropStart p s) = anyChar q s.
Proof.
  intros Hpq. induction s as [|c r IH]; [reflexivity|].
  cbn [JS.dropStart]. destruct (p c) eqn:E; [|reflexivity].
  simpl. now rewrite (Hpq _ E), IH.
Qed.

Lemma anyChar_dropEnd p q s :
  (forall c, p c = true -> q c = false) ->
  anyChar q (JS.dropEnd p s) = anyChar q s.
Proof.
  intros Hpq. induction s as [|c r IH]; [reflexivity|].
  cbn [JS.dropEnd]. destruct (p c && JS.isEmpty (JS.dropEnd p r)) eqn:E.
  - apply andb_true_iff in E as [Ec Er].
    simpl. rewrite (Hpq _ Ec), <- IH.
    now destruct (JS.dropEnd p r).
  - simpl. now rewrite IH.
Qed.

Lemma anyChar_map f q q' s :
  (forall c, q' (f c) = q c) -> anyChar q' (JS.map f s) = anyChar q s.
Proof.
  intros H. induction s as [|c r IH]; [reflexivity|]. simpl. now rewrite H, IH.
Qed.

Lemma anyChar_filter p q s :
  (forall c, q c = true -> p c = true) ->
  anyChar q (JS.filter p s) = anyChar q s.
Proof.
  intros H. induction s as [|c r IH]; [reflexivity|].
  simpl. destruct (p c) eqn:E.
  - simpl. now rewrite IH.
  - rewrite IH. destruct (q c) eqn:Eq; [|reflexivity].
    rewrite (H _ Eq) in E. discriminate.
Qed.

Lemma anyChar_squeeze p q b s :
  (forall c, p c = true -> q c = false) -> q "-"%char = false ->
  anyChar q (JS.squeezeFrom p b s) = anyChar q s.
Proof.
  intros Hpq Hh. revert b. induction s as [|c r IH]; intros b; [reflexivity|].
  cbn [JS.squeezeFrom]. destruct (p c) eqn:E.
  - destruct b; simpl; rewrite ?Hh, (Hpq _ E), IH; reflexivity.
  - simpl. now rewrite IH.
Qed.

Lemma space_not_alnum c : JS.isSpace c = true -> isAlnum c = false.
Proof. by_cases_on_char c. Qed.

Lemma hyphen_not_alnum c : JS.isHyphen c = true -> isAlnum c = false.
Proof. by_cases_on_char c. Qed.

Lemma alnum_keep c : isAlnum c = true -> keepChar c = true.
Proof. by_cases_on_char c. Qed.

Lemma alnum_lower c : isAlnum (JS.lowerChar c) = isLetterOrDigit c.
Proof. by_cases_on_char c. Qed.

Lemma space_not_letterOrDigit c : JS.isSpace c = true -> isLetterOrDigit c = false.
Proof. by_cases_on_char c. Qed.

Lemma slugChar_cases c : slugChar c = true -> isAlnum c = false -> JS.isHyphen c = true.
Proof. by_cases_on_char c. Qed.

(** The letters and digits of the input are what survives in the slug. *)
Lemma toSlug_alnum x : anyChar isAlnum (toSlug x) = anyChar isLetterOrDigit x.
Proof.
  unfold toSlug, JS.trim, JS.toLowerCase, JS.replaceRuns.
  rewrite (anyChar_dropEnd _ _ _ hyphen_not_alnum).
  rewrite (anyChar_dropStart _ _ _ hyphen_not_alnum).
  rewrite (anyChar_squeeze _ _ _ _ hyphen_not_alnum eq_refl).
  rewrite (anyChar_squeeze _ _ _ _ space_not_alnum eq_refl).
  rewrite (anyChar_filter _ _ _ alnum_keep).
  rewrite (anyChar_map _ _ _ _ alnum_lower).
  rewrite (anyChar_dropEnd _ _ _ space_not_letterOrDigit).
  apply (anyChar_dropStart _ _ _ space_not_letterOrDigit).
Qed.

(** X2.  For inputs of code units below U+0100, [toSlug] gives the empty
    string exactly when the input has no ASCII letter and no digit (the
    empty string, blanks, punctuation, the accented letters of that range):
    those are the names for which the builder has no path.  The range
    matters: beyond it [toLowerCase] takes some characters to ASCII letters
    (U+212A to [k]), which this development does not model. *)
Theorem toSlug_empty_iff (x : string) :
  toSlug x = "" <-> anyChar isLetterOrDigit x = false.
Proof.
  rewrite <- toSlug_alnum. split.
  - now intros ->.
  - intros H. destruct (isSlug_parts _ (toSlug_isSlug x)) as (Ha & _ & Hs & _).
    destruct (toSlug x) as [|c r]; [reflexivity|].
    simpl in H, Ha, Hs. apply orb_false_iff in H as [Hc _].
    apply andb_true_iff in Ha as [Hsc _].
    rewrite (slugChar_cases _ Hsc Hc) in Hs. discriminate.
Qed.

(** A slug without letter or digit is empty. *)
Lemma alnum_free_slug s : isSlug s = true -> anyChar isAlnum s = false -> s = "".
Proof.
  intros Hi H. destruct (isSlug_parts _ Hi) as (Ha & _ & Hs & _).
  destruct s as [|c r]; [reflexivity|].
  simpl in H, Ha, Hs. apply orb_false_iff in H as [Hc _].
  apply andb_true_iff in Ha as [Hsc _].
  rewrite (slugChar_cases _ Hsc Hc) in Hs. discriminate.
Qed.

Lemma hasSlug_letters o : hasSlug o = hasLetterOrDigit o.
Proof.
  destruct o as [s|]; [|reflexivity]. unfold hasSlug, hasLetterOrDigit.
  rewrite <- toSlug_alnum.
  destruct (anyChar isAlnum (toSlug s)) eqn:E.
  - destruct (toSlug s); [discriminate|reflexivity].
  - now rewrite (alnum_free_slug _ (toSlug_isSlug s) E).
Qed.

(** The builder's own test on a slug, in terms of [toSlug]. *)
Lemma effectivelyPresent_hasSlug o : effectivelyPresent o = hasSlug o.
Proof.
  destruct o as [s|]; [|reflexivity].
  unfold effectivelyPresent, slugOf, hasSlug.
  destruct s as [|c r]; [reflexivity|reflexivity].
Qed.

(** C7 as stated fails when "present" is read as "given": a service name
    made of punctuation is given and the builder has no path for it,
    whatever the location; and a full triple whose city is made of
    punctuation gets the service-only path. *)
Lemma punctuation_name_has_no_path :
  givenName (Some "!!!") = true
  /\ buildDirectorySeoPath
       {| serviceName := Some "!!!"; cityName := None; stateName := None |} = None
  /\ buildDirectorySeoPath
       {| serviceName := Some "!!!"; cityName := Some "Noida";
          stateName := Some "Uttar Pradesh" |} = None
  /\ givenName (Some "???") = true
  /\ buildDirectorySeoPath
       {| serviceName := Some "Plumbers"; cityName := Some "???";
          stateName := Some "Uttar Pradesh" |} = Some "/directory/plumbers".
Proof. repeat split; reflexivity. Qed.

(** C7, amended.  [buildDirectorySeoPath] returns null exactly when the
    service name is missing or [toSlug] of it is empty, whatever the city and
    state are.  Otherwise the result is the combined path
    [/directory/{toSlug(service)}-in-{toSlug(city)}-{toSlug(state)}] when
    city and state are both given with a non-empty slug, and the
    service-only path [/directory/{toSlug(service)}] in every other case, so
    a city without a state or a state without a city counts as no location.
    A name has a non-empty slug exactly when it contains an ASCII letter or
    a digit (names of code units below U+0100). *)
Theorem buildDirectorySeoPath_by_slug (opts : SeoOpts) :
  (buildDirectorySeoPath opts = None <-> hasSlug (serviceName opts) = false)
  /\ buildDirectorySeoPath opts =
     (if hasSlug (serviceName opts) then
        if hasSlug (cityName opts) && hasSlug (stateName opts)
        then Some ("/directory/" ++ slugText (serviceName opts) ++ "-in-"
                     ++ slugText (cityName opts) ++ "-" ++ slugText (stateName opts))
        else Some ("/directory/" ++ slugText (serviceName opts))
      else None)
  /\ (stateName opts = None \/ cityName opts = None ->
      buildDirectorySeoPath opts
      = if hasSlug (serviceName opts)
        then Some ("/directory/" ++ slugText (serviceName opts)) else None)
  /\ (forall o, hasSlug o = hasLetterOrDigit o).
Proof.
  assert (E : buildDirectorySeoPath opts =
     (if hasSlug (serviceName opts) then
        if hasSlug (cityName opts) && hasSlug (stateName opts)
        then Some ("/directory/" ++ slugText (serviceName opts) ++ "-in-"
                     ++ slugText (cityName opts) ++ "-" ++ slugText (stateName opts))
        else Some ("/directory/" ++ slugText (serviceName opts))
      else None)).
  { rewrite <- !effectivelyPresent_hasSlug.
    destruct (effectivelyPresent (serviceName opts)) eqn:Hs.
    - destruct (effectivelyPresent (cityName opts) && effectivelyPresent (stateName opts)) eqn:Hl.
      + apply andb_true_iff in Hl as [Hc Ht]. now apply build_full.
      + now apply build_service_only.
    - now apply build_none. }
  split; [|split; [exact E|split; [|apply hasSlug_letters]]].
  - rewrite E. destruct (hasSlug (serviceName opts)).
    + destruct (_ && _); split; discriminate.
    + split; reflexivity.
  - intros H. rewrite E.
    assert (Hl : hasSlug (cityName opts) && hasSlug (stateName opts) = false).
    { destruct H as [H|H]; rewrite H; simpl; [apply andb_false_r | reflexivity]. }
    now rewrite Hl.
Qed.

Lemma spaced_char_keep c :
  slugChar c = true -> keepChar (if JS.isHyphen c then " "%char else c) = true.
Proof. by_cases_on_char c. Qed.

Lemma spaced_char_lower c :
  slugChar c = true ->
  JS.lowerChar (if JS.isHyphen c then " "%char else c) = (if JS.isHyphen c then " "%char else c).
Proof. by_cases_on_char c. Qed.

Lemma spaced_char_space c :
  slugChar c = true -> JS.isSpace (if JS.isHyphen c then " "%char else c) = JS.isHyphen c.
Proof. by_cases_on_char c. Qed.

Lemma hyphensToSpaces_cons c r :
  hyphensToSpaces (String c r)
  = String (if JS.isHyphen c then " "%char else c) (hyphensToSpaces r).
Proof. reflexivity. Qed.

Lemma hyphensToSpaces_keep s :
  JS.all slugChar s = true -> JS.all keepChar (hyphensToSpaces s) = true.
Proof.
  induction s as [|c r IH]; [reflexivity|]. intros H.
  cbn [JS.all] in H. apply andb_true_iff in H as [Hc Hr].
  rewrite hyphensToSpaces_cons. cbn [JS.all].
  now rewrite (spaced_char_keep _ Hc), IH.
Qed.

Lemma hyphensToSpaces_lower s :
  JS.all slugChar s = true -> JS.toLowerCase (hyphensToSpaces s) = hyphensToSpaces s.
Proof.
  unfold JS.toLowerCase.
  induction s as [|c r IH]; [reflexivity|]. intros H.
  cbn [JS.all] in H. apply andb_true_iff in H as [Hc Hr].
  rewrite hyphensToSpaces_cons. cbn [JS.map].
  now rewrite (spaced_char_lower _ Hc), IH.
Qed.

Lemma hyphensToSpaces_start s :
  JS.all slugChar s = true -> startsWithHyphen s = false ->
  JS.dropStart JS.isSpace (hyphensToSpaces s) = hyphensToSpaces s.
Proof.
  destruct s as [|c r]; [reflexivity|]. intros H Hs.
  cbn [JS.all] in H. apply andb_true_iff in H as [Hc _].
  cbn [startsWithHyphen] in Hs.
  rewrite hyphensToSpaces_cons. cbn [JS.dropStart].
  now rewrite (spaced_char_space _ Hc), Hs.
Qed.

Lemma hyphensToSpaces_last s :
  JS.all slugChar s = true ->
  lastSatisfies JS.isSpace (hyphensToSpaces s) = lastSatisfies JS.isHyphen s.
Proof.
  induction s as [|c r IH]; [reflexivity|]. intros H.
  cbn [JS.all] in H. apply andb_true_iff in H as [Hc Hr].
  rewrite hyphensToSpaces_cons.
  rewrite !lastSatisfies_cons, (spaced_char_space _ Hc), (IH Hr).
  now destruct r.
Qed.

Lemma hyphensToSpaces_trim s :
  isSlug s = true -> JS.trim (hyphensToSpaces s) = hyphensToSpaces s.
Proof.
  intros H. destruct (isSlug_parts _ H) as (Ha & _ & Hs & He).
  unfold JS.trim. rewrite (hyphensToSpaces_start _ Ha Hs).
  apply last_dropEnd_fixed. rewrite (hyphensToSpaces_last _ Ha).
  now apply dropEnd_fixed_last.
Qed.

(** Turning the runs of blanks back into hyphens undoes [hyphensToSpaces]. *)
Lemma squeeze_spaces_back b s :
  JS.all slugChar s = true -> noDoubleHyphen s = true ->
  (b = true -> startsWithHyphen s = false) ->
  JS.squeezeFrom JS.isSpace b (hyphensToSpaces s) = s.
Proof.
  revert b. induction s as [|c r IH]; intros b Ha Hd Hb; [reflexivity|].
  cbn [JS.all] in Ha. apply andb_true_iff in Ha as [Hc Hr].
  cbn [noDoubleHyphen] in Hd. apply andb_true_iff in Hd as [Hcd Hrd].
  rewrite hyphensToSpaces_cons.
  cbn [JS.squeezeFrom]. rewrite (spaced_char_space _ Hc).
  destruct (JS.isHyphen c) eqn:E.
  - destruct b; [now specialize (Hb eq_refl); simpl in Hb; rewrite E in Hb|].
    simpl in Hcd. apply negb_true_iff in Hcd.
    rewrite (isHyphen_spec _ E). f_equal. apply IH; auto.
  - f_equal. apply IH; auto. discriminate.
Qed.

(** A title that is, up to letter case, a slug with blanks for hyphens, and
    has no blank at either end, slugs back to that slug. *)
Lemma toSlug_of_spaced h s :
  isSlug s = true -> JS.trim h = h -> JS.toLowerCase h = hyphensToSpaces s ->
  toSlug h = s.
Proof.
  intros H Ht Hl. destruct (isSlug_parts _ H) as (Ha & Hd & Hs & He).
  unfold toSlug, JS.replaceRuns. rewrite Ht, Hl.
  rewrite (filter_id keepChar) by now apply hyphensToSpaces_keep.
  rewrite (squeeze_spaces_back false s Ha Hd) by discriminate.
  rewrite (squeeze_hyphen_id false s Hd) by discriminate.
  now rewrite (dropStart_hyphen_id _ Hs).
Qed.

(** X3.  The directory page turns a service slug into a service name with
    [slug.replace(/-/g, ' ')]; slugging that name gives the slug back, so a
    path built from it leads to the same service. *)
Theorem toSlug_hyphensToSpaces (s : string) :
  isSlug s = true -> toSlug (hyphensToSpaces s) = s.
Proof.
  intros H. apply toSlug_of_spaced; auto.
  - now apply hyphensToSpaces_trim.
  - apply hyphensToSpaces_lower. now destruct (isSlug_parts _ H).
Qed.

Lemma toSlug_hyphensToSpaces_witness :
  toSlug (hyphensToSpaces "peb-building-design-consultant") = "peb-building-design-consultant".
Proof. apply (toSlug_hyphensToSpaces "peb-building-design-consultant"). reflexivity. Defined.

Lemma lastSatisfies_append p a t :
  t <> "" -> lastSatisfies p (a ++ t) = lastSatisfies p t.
Proof.
  intros Ht. induction a as [|c r IH]; [reflexivity|].
  change (String c r ++ t) with (String c (r ++ t)).
  rewrite lastSatisfies_cons, IH.
  destruct (r ++ t) eqn:E; [|reflexivity].
  destruct r; [simpl in E; congruence | discriminate].
Qed.

Lemma startsWithHyphen_append a t :
  a <> "" -> startsWithHyphen (a ++ t) = startsWithHyphen a.
Proof. destruct a; [congruence|reflexivity]. Qed.

Lemma noDoubleHyphen_append a t :
  noDoubleHyphen a = true -> noDoubleHyphen t = true ->
  lastSatisfies JS.isHyphen a && startsWithHyphen t = false ->
  noDoubleHyphen (a ++ t) = true.
Proof.
  intros Ha Ht Hj. induction a as [|c r IH]; [exact Ht|].
  cbn [noDoubleHyphen] in Ha. apply andb_true_iff in Ha as [Hc Hr].
  rewrite lastSatisfies_cons in Hj.
  change (String c r ++ t) with (String c (r ++ t)). cbn [noDoubleHyphen].
  destruct r as [|d r'].
  - simpl in Hj. change ("" ++ t) with t. now rewrite Hj, Ht.
  - cbn [JS.isEmpty] in Hj. rewrite (IH Hr Hj), andb_true_r.
    rewrite startsWithHyphen_append by discriminate. exact Hc.
Qed.

(** Two non-empty slugs joined by a hyphen make a slug. *)
Lemma isSlug_join a b :
  isSlug a = true -> isSlug b = true -> a <> "" -> b <> "" ->
  isSlug (a ++ "-" ++ b) = true.
Proof.
  intros Ha Hb Hna Hnb.
  destruct (isSlug_parts _ Ha) as (Aa & Ad & As & Ae).
  destruct (isSlug_parts _ Hb) as (Ba & Bd & Bs & Be).
  apply dropEnd_fixed_last in Ae. apply dropEnd_fixed_last in Be.
  unfold isSlug.
  rewrite !all_append, Aa, Ba.
  rewrite noDoubleHyphen_append; auto.
  - rewrite startsWithHyphen_append, As by auto.
    rewrite last_dropEnd_fixed, String.eqb_refl; [reflexivity|].
    rewrite lastSatisfies_append by discriminate.
    change ("-" ++ b) with (String "-" b).
    rewrite lastSatisfies_cons. now destruct b.
  - change ("-" ++ b) with (String "-" b). cbn [noDoubleHyphen]. now rewrite Bs, Bd.
  - now rewrite Ae.
Qed.

Lemma toSlug_slugText_isSlug o : isSlug (slugText o) = true.
Proof. destruct o; [apply toSlug_isSlug | reflexivity]. Qed.

Lemma no_dot_no_extension p :
  JS.all (fun c => negb (Ascii.eqb c ".")) p = true -> Middleware.hasFileExtension p = false.
Proof.
  induction p as [|c r IH]; [reflexivity|]. intros H.
  cbn [JS.all] in H. apply andb_true_iff in H as [Hc Hr].
  apply negb_true_iff in Hc. cbn [Middleware.hasFileExtension].
  now rewrite Hc, (IH Hr).
Qed.

Lemma slugChar_not_dot c : slugChar c = true -> negb (Ascii.eqb c ".") = true.
Proof. by_cases_on_char c. Qed.

(** The shape of the builder's paths. *)
Lemma build_path_is_slug (x : SeoOpts) (path : string) :
  buildDirectorySeoPath x = Some path ->
  exists slug,
    path = "/directory/" ++ slug
    /\ slug <> "" /\ isSlug slug = true /\ toSlug slug = slug
    /\ Middleware.hasFileExtension path = false.
Proof.
  assert (Hshape : forall slug, slug <> "" -> isSlug slug = true ->
            slug <> "" /\ isSlug slug = true /\ toSlug slug = slug
            /\ Middleware.hasFileExtension ("/directory/" ++ slug) = false).
  { intros slug Hn Hi. repeat split; auto.
    - now apply toSlug_fixes_slug.
    - apply no_dot_no_extension. rewrite all_append. simpl.
      eapply all_impl; [apply slugChar_not_dot | now apply isSlug_chars]. }
  destruct (effectivelyPresent (serviceName x)) eqn:Hs;
    [|rewrite (build_none x Hs); discriminate].
  destruct (effectivelyPresent (cityName x) && effectivelyPresent (stateName x)) eqn:Hl.
  - apply andb_true_iff in Hl as [Hc Ht]. rewrite (build_full x Hs Hc Ht).
    apply effectivelyPresent_slugOf in Hs as [_ Hns].
    apply effectivelyPresent_slugOf in Hc as [_ Hnc].
    apply effectivelyPresent_slugOf in Ht as [_ Hnt].
    intros H. injection H as <-.
    eexists. split; [reflexivity|]. apply Hshape.
    + destruct (slugText (serviceName x)); [congruence|discriminate].
    + apply (isSlug_join (slugText (serviceName x))
               ("in" ++ "-" ++ (slugText (cityName x) ++ "-" ++ slugText (stateName x))));
        auto using toSlug_slugText_isSlug; [|discriminate].
      apply (isSlug_join "in"); auto; [|discriminate|].
      * apply isSlug_join; auto using toSlug_slugText_isSlug.
      * destruct (slugText (cityName x)); [congruence|discriminate].
  - rewrite (build_service_only x Hs Hl).
    apply effectivelyPresent_slugOf in Hs as [_ Hns].
    intros H. injection H as <-.
    eexists. split; [reflexivity|]. apply Hshape; auto. apply toSlug_slugText_isSlug.
Qed.


(** X4.  Every path the builder returns is [/directory/] followed by a
    non-empty slug (so [toSlug] leaves that part unchanged), and it never
    looks like a static asset to the middleware. *)
Theorem buildDirectorySeoPath_shape (x : SeoOpts) (path : string) :
  buildDirectorySeoPath x = Some path ->
  exists slug,
    path = "/directory/" ++ slug
    /\ slug <> "" /\ isSlug slug = true /\ toSlug slug = slug
    /\ Middleware.hasFileExtension path = false.
Proof. apply build_path_is_slug. Qed.

Lemma buildDirectorySeoPath_shape_witness :
  exists slug,
    "/directory/land-surveyors-in-noida-uttar-pradesh" = "/directory/" ++ slug
    /\ slug <> "" /\ isSlug slug = true /\ toSlug slug = slug
    /\ Middleware.hasFileExtension "/directory/land-surveyors-in-noida-uttar-pradesh" = false.
Proof.
  apply (buildDirectorySeoPath_shape
           {| serviceName := Some "Land Surveyors"; cityName := Some "Noida";
              stateName := Some "Uttar Pradesh" |}).
  reflexivity.
Defined.

(** X5.  The sitemap and the builder agree: for the slugs of any input, the
    sitemap lists an entry exactly when the builder has a path, and that
    path is [/directory] followed by the sitemap's path. *)
Theorem sitemap_agrees_with_builder (x : SeoOpts) :
  buildDirectorySeoPath x
  = match Sitemap.entryPath (slugsOf x) with
    | Some p => Some ("/directory" ++ p)
    | None => None
    end.
Proof.
  unfold buildDirectorySeoPath, Sitemap.entryPath, slugsOf, serviceOnlyPath.
  cbn [serviceSlug citySlug stateSlug].
  destruct (slugOf (serviceName x)) as [sv|]; [|reflexivity].
  destruct (JS.truthy (Some sv)) eqn:Hs; cbn [negb andb]; [|reflexivity].
  destruct (slugOf (cityName x)) as [ci|]; [|reflexivity].
  destruct (JS.truthy (Some ci)); cbn [andb]; [|reflexivity].
  destruct (slugOf (stateName x)) as [st|]; [|reflexivity].
  now destruct (JS.truthy (Some st)).
Qed.

(* ================================================================== *)
(** * Further properties of the category resolver *)
(* ================================================================== *)

Module CategoryMore.
Import Category CategoryFacts.

(** What a successful search returns. *)
Lemma search_sound original ns categories r :
  searchCategories original ns categories = Some r ->
  serviceName r = Some original
  /\ exists category,
       In category categories /\ headCategory r = Some (name category)
       /\ ((microCategory r = None /\ matchesHead ns category = true)
           \/ exists sub, In sub (subCategories category)
                          /\ microCategory r = Some (subName sub)
                          /\ matchesSub ns sub = true).
Proof.
  induction categories as [|c l IH]; [discriminate|].
  rewrite search_unfold. destruct (matchesHead ns c) eqn:Hh.
  - intros H. injection H as <-. split; [reflexivity|].
    exists c. split; [now left|]. split; [reflexivity|]. now left.
  - destruct (List.find (matchesSub ns) (subCategories c)) as [sub|] eqn:Hf.
    + intros H. injection H as <-. split; [reflexivity|].
      apply find_some in Hf as [Hin Hm].
      exists c. split; [now left|]. split; [reflexivity|]. right. now exists sub.
    + intros H. destruct (IH H) as (Hs & c' & Hin & Hrest).
      split; [exact Hs|]. exists c'. split; [now right|]. exact Hrest.
Qed.

Lemma find_none_existsb {A} (f : A -> bool) l : List.find f l = None -> existsb f l = false.
Proof.
  induction l as [|x l IH]; [reflexivity|]. simpl.
  destruct (f x); [discriminate|]. auto.
Qed.

Lemma search_none original ns categories :
  searchCategories original ns categories = None ->
  forallb (fun c => negb (matchesAny ns c)) categories = true.
Proof.
  induction categories as [|c l IH]; [reflexivity|].
  rewrite search_unfold. destruct (matchesHead ns c) eqn:Hh; [discriminate|].
  destruct (List.find (matchesSub ns) (subCategories c)) eqn:Hf; [discriminate|].
  intros H. simpl. unfold matchesAny. rewrite Hh, (find_none_existsb _ _ Hf). simpl. auto.
Qed.

Lemma resolve_cases serviceName categories :
  (resolveCategoryPathForService serviceName categories
   = {| headCategory := None; microCategory := None;
        serviceName := orNullOpt serviceName |}
   /\ (forall s, serviceName = Some s -> s <> "" ->
       forallb (fun c => negb (matchesAny (normalize s) c)) categories = true))
  \/ exists s r, serviceName = Some s /\ s <> ""
       /\ searchCategories s (normalize s) categories = Some r
       /\ resolveCategoryPathForService serviceName categories = r.
Proof.
  destruct serviceName as [s|]; [|left; split; [reflexivity|discriminate]].
  destruct s as [|a s]; [left; split; [reflexivity|congruence]|].
  destruct categories as [|c l]; [left; split; reflexivity|].
  rewrite resolve_nonempty by discriminate.
  destruct (searchCategories (String a s) (normalize (String a s)) (c :: l)) as [r|] eqn:E.
  - right. exists (String a s), r. repeat split; auto. discriminate.
  - left. split; [reflexivity|]. intros s' H _. injection H as <-.
    now apply search_none in E.
Qed.


Lemma search_original s1 s2 ns categories :
  match searchCategories s1 ns categories, searchCategories s2 ns categories with
  | Some r1, Some r2 =>
      headCategory r1 = headCategory r2 /\ microCategory r1 = microCategory r2
  | None, None => True
  | _, _ => False
  end.
Proof.
  induction categories as [|c l IH]; [exact I|].
  rewrite !search_unfold. destruct (matchesHead ns c); [now split|].
  destruct (List.find (matchesSub ns) (subCategories c)); [now split|]. exact IH.
Qed.

(** X7.  Matching ignores letter case and surrounding blanks of the service
    name: two non-empty names with the same trimmed, lower-cased form get
    the same head and micro category. *)
Theorem resolve_normalized (s1 s2 : string) (categories : list ServiceCategory) :
  s1 <> "" -> s2 <> "" -> normalize s1 = normalize s2 ->
  headCategory (resolveCategoryPathForService (Some s1) categories)
  = headCategory (resolveCategoryPathForService (Some s2) categories)
  /\ microCategory (resolveCategoryPathForService (Some s1) categories)
     = microCategory (resolveCategoryPathForService (Some s2) categories).
Proof.
  intros H1 H2 Hn.
  destruct categories as [|c l].
  - destruct s1, s2; try congruence. split; reflexivity.
  - rewrite !resolve_nonempty by (auto; discriminate).
    rewrite Hn. pose proof (search_original s1 s2 (normalize s2) (c :: l)) as H.
    destruct (searchCategories s1 _ _), (searchCategories s2 _ _); try contradiction;
      [exact H | split; reflexivity].
Qed.

Lemma resolve_normalized_witness :
  let catalog :=
    [ {| name := "Land Surveyors"; subCategories := [ {| subName := "Boundary Survey" |} ] |} ] in
  headCategory (resolveCategoryPathForService (Some "  BOUNDARY survey ") catalog)
  = headCategory (resolveCategoryPathForService (Some "boundary survey") catalog)
  /\ microCategory (resolveCategoryPathForService (Some "  BOUNDARY survey ") catalog)
     = microCategory (resolveCategoryPathForService (Some "boundary survey") catalog).
Proof.
  apply (resolve_normalized "  BOUNDARY survey " "boundary survey"
           [ {| name := "Land Surveyors";
                subCategories := [ {| subName := "Boundary Survey" |} ] |} ]);
    [discriminate | discriminate | reflexivity].
Defined.

Lemma find_unique {A} (key : A -> string) (l : list A) (c : A) :
  NoDup (List.map key l) -> In c l ->
  List.find (fun x => String.eqb (key x) (key c)) l = Some c.
Proof.
  induction l as [|x l IH]; [contradiction|].
  simpl. intros Hnd [->|Hin].
  - now rewrite String.eqb_refl.
  - inversion Hnd as [|? ? Hx Hl]; subst.
    destruct (String.eqb_spec (key x) (key c)) as [E|E].
    + exfalso. apply Hx. rewrite E. now apply in_map.
    + auto.
Qed.

(** X8.  In a catalog whose category names are distinct up to letter case,
    resolver and [getMicroCategories] agree: a resolved micro category is
    one of the micro categories listed for the resolved head category. *)
Theorem resolved_micro_is_listed (serviceName : option string)
    (categories : list ServiceCategory) (h m : string) :
  NoDup (List.map (fun c => JS.toLowerCase (name c)) categories) ->
  headCategory (resolveCategoryPathForService serviceName categories) = Some h ->
  microCategory (resolveCategoryPathForService serviceName categories) = Some m ->
  In m (getMicroCategories h categories).
Proof.
  intros Hnd Hh Hm.
  destruct (resolve_cases serviceName categories) as [[E _] | (s & r & -> & Hs & Hsearch & E)];
    rewrite E in Hh, Hm; [discriminate|].
  destruct (search_sound _ _ _ _ Hsearch) as (_ & c & Hin & Hhc & Hmc).
  rewrite Hhc in Hh. injection Hh as <-.
  unfold getMicroCategories.
  rewrite (find_unique (fun c => JS.toLowerCase (name c)) categories c Hnd Hin).
  destruct Hmc as [[Hnone _] | (sub & Hsin & Hsome & _)]; [congruence|].
  rewrite Hsome in Hm. injection Hm as <-. now apply in_map.
Qed.

Lemma resolved_micro_is_listed_witness :
  In "Boundary Survey"
     (getMicroCategories "Land Surveyors"
        [ {| name := "Land Surveyors";
             subCategories := [ {| subName := "Boundary Survey" |} ] |} ]).
Proof.
  apply (resolved_micro_is_listed (Some "boundary survey")
           [ {| name := "Land Surveyors";
                subCategories := [ {| subName := "Boundary Survey" |} ] |} ]
           "Land Surveyors" "Boundary Survey").
  - repeat constructor. simpl. tauto.
  - reflexivity.
  - reflexivity.
Defined.

(** Without that condition they can disagree: the lookup by head category
    stops at the first entry of that name. *)
Example duplicate_heads_disagree :
  let catalog :=
    [ {| name := "Surveyors"; subCategories := [] |};
      {| name := "SURVEYORS"; subCategories := [ {| subName := "Boundary Survey" |} ] |} ] in
  microCategory (resolveCategoryPathForService (Some "Boundary Survey") catalog)
  = Some "Boundary Survey"
  /\ headCategory (resolveCategoryPathForService (Some "Boundary Survey") catalog)
     = Some "SURVEYORS"
  /\ getMicroCategories "SURVEYORS" catalog = [].
Proof. repeat split; reflexivity. Qed.

End CategoryMore.

(* ================================================================== *)
(** * Further properties of the middleware *)
(* ================================================================== *)

Module MiddlewareMore.
Import Middleware MiddlewareFacts.

Lemma prefix_append_self t x : String.prefix t (t ++ x) = true.
Proof.
  induction t as [|c t IH]; [now destruct x|].
  simpl. destruct (ascii_dec c c); [exact IH|congruence].
Qed.

(** Two prefixes of one string are comparable. *)
Lemma prefix_comparable a b s :
  String.prefix a s = true -> String.prefix b s = true ->
  String.prefix a b = true \/ String.prefix b a = true.
Proof.
  revert a b. induction s as [|d s IH]; intros a b Ha Hb.
  - destruct a; [|discriminate]. left. now destruct b.
  - destruct a as [|x a]; [left; now destruct b|].
    destruct b as [|y b]; [right; reflexivity|].
    simpl in Ha, Hb.
    destruct (ascii_dec x d); [|discriminate].
    destruct (ascii_dec y d); [|discriminate]. subst.
    destruct (IH _ _ Ha Hb) as [H|H]; [left|right]; simpl;
      destruct (ascii_dec d d); congruence.
Qed.

Lemma startsWith_exclusive a b s :
  String.prefix a b = false -> String.prefix b a = false ->
  JS.startsWith s a = true -> JS.startsWith s b = false.
Proof.
  unfold JS.startsWith. intros Hab Hba Ha.
  destruct (String.prefix b s) eqn:Hb; [|reflexivity].
  destruct (prefix_comparable _ _ _ Ha Hb); congruence.
Qed.

Lemma startsWith_longer s a t :
  JS.startsWith s a = false -> JS.startsWith s (a ++ t) = false.
Proof.
  unfold JS.startsWith. intros H.
  destruct (String.prefix (a ++ t) s) eqn:E; [|reflexivity].
  apply prefix_app in E. congruence.
Qed.


(** The URL of every redirect: the request URL with another host and port. *)
Lemma redirectUrl_frame req sub :
  protocol (buildSubdomainRedirectUrl req sub) = protocol (nextUrl req)
  /\ pathname (buildSubdomainRedirectUrl req sub) = pathname (nextUrl req)
  /\ search (buildSubdomainRedirectUrl req sub) = search (nextUrl req)
  /\ (hostname (buildSubdomainRedirectUrl req sub) = sub ++ ".localhost"
      \/ hostname (buildSubdomainRedirectUrl req sub) = sub ++ "." ++ MAIN_DOMAIN).
Proof.
  unfold buildSubdomainRedirectUrl.
  destruct (isLocalhostOf req); [destruct (negb (JS.isEmpty (currentPortOf req)))|];
    simpl; auto.
Qed.

Lemma dirTarget_is_redirectUrl req : dirTarget req = buildSubdomainRedirectUrl req "dir".
Proof.
  unfold dirTarget, buildSubdomainRedirectUrl.
  destruct (isLocalhostOf req); [destruct (JS.isEmpty (currentPortOf req))|]; reflexivity.
Qed.

Lemma mainRedirect_target req r :
  mainRedirect req = Some r -> r = Redirect (dirTarget req) 308.
Proof.
  unfold mainRedirect, dirTarget.
  destruct (_ || _); [|discriminate]. destruct (_ && _); [|discriminate].
  intros H. injection H as <-.
  destruct (isLocalhostOf req); [destruct (JS.isEmpty (currentPortOf req))|]; reflexivity.
Qed.


(** What the lookup finds is a path of the literal, or a member of
    [Object.prototype] under a name that is not in the literal. *)
Lemma targetPathOf_cases sub v :
  targetPathOf sub = Some v ->
  (exists t, SUBDOMAIN_MAP sub = Some t /\ v = OwnPath t)
  \/ (SUBDOMAIN_MAP sub = None /\ In sub inheritedKeys /\ v = Inherited sub).
Proof.
  unfold targetPathOf. destruct (SUBDOMAIN_MAP sub) as [t|] eqn:E.
  - intros H. injection H as <-. left. now exists t.
  - destruct (existsb (String.eqb sub) inheritedKeys) eqn:Ex; [|discriminate].
    intros H. injection H as <-. right. repeat split; auto.
    apply existsb_exists in Ex as (k & Hin & Hk).
    apply String.eqb_eq in Hk. now subst k.
Qed.

(** A path made from an inherited member is under no configured prefix. *)
Lemma inherited_not_configured key sub t p :
  In key inheritedKeys -> SUBDOMAIN_MAP sub = Some t ->
  JS.startsWith (underPrefix (inheritedPath key) p) t = false.
Proof.
  intros Hin Ht.
  assert (Hc : t = "/vendor" \/ t = "/buyer" \/ t = "/employee" \/ t = "/directory"
               \/ t = "/management").
  { revert Ht. unfold SUBDOMAIN_MAP.
    repeat (destruct (String.eqb sub _);
            [intros H; injection H as <-; tauto|]).
    discriminate. }
  unfold underPrefix.
  simpl in Hin.
  repeat (destruct Hin as [<-|Hin];
          [destruct Hc as [->|[->|[->|[->| ->]]]]; reflexivity|]).
  destruct Hin.
Qed.

(** Where each response of the middleware comes from. *)
Lemma middleware_origin req :
  middleware req = Next
  \/ (exists sub, In sub ["vendor"; "buyer"; "dir"]
        /\ middleware req = Redirect (buildSubdomainRedirectUrl req sub) 307)
  \/ middleware req = Redirect (buildSubdomainRedirectUrl req "dir") 308
  \/ (exists targetPath,
        SUBDOMAIN_MAP (subdomainOf req) = Some targetPath
        /\ middleware req
           = Rewrite (setPathname (nextUrl req)
                        (underPrefix targetPath (pathname (nextUrl req)))))
  \/ (SUBDOMAIN_MAP (subdomainOf req) = None
      /\ In (subdomainOf req) inheritedKeys
      /\ middleware req
         = Rewrite (setPathname (nextUrl req)
                      (underPrefix (inheritedPath (subdomainOf req))
                                   (pathname (nextUrl req))))).
Proof.
  unfold middleware, earlierStages.
  unfold staticBypass. destruct (hasFileExtension _); [now left|]. cbn [orElse].
  unfold authRedirect.
  destruct (JS.startsWith _ "/auth/vendor/" && _);
    [right; left; exists "vendor"; split; [simpl; tauto|reflexivity]|].
  destruct (JS.startsWith _ "/auth/user/" && _);
    [right; left; exists "buyer"; split; [simpl; tauto|reflexivity]|].
  cbn [orElse]. unfold directoryRedirect.
  destruct ((_ || _) && _);
    [right; left; exists "dir"; split; [simpl; tauto|reflexivity]|].
  cbn [orElse]. unfold authPassthrough.
  destruct (JS.startsWith _ "/auth/"); [now left|]. cbn [orElse].
  unfold dirRewrite. destruct (String.eqb (subdomainOf req) "dir") eqn:Ed.
  - apply String.eqb_eq in Ed.
    destruct (negb (String.eqb (pathname (nextUrl req)) "/") && _ && _) eqn:Ec.
    + right. right. right. left. exists "/directory". rewrite Ed. split; [reflexivity|].
      apply andb_true_iff in Ec as [Ec _]. apply andb_true_iff in Ec as [Ec _].
      apply negb_true_iff in Ec. cbn [orElse]. unfold underPrefix. now rewrite Ec.
    + cbn [orElse]. unfold mainRedirect. rewrite Ed.
      change (String.eqb "dir" "" || String.eqb "dir" "www") with false.
      cbv iota. cbn [orElse]. unfold genericRewrite. rewrite Ed.
      change (targetPathOf "dir") with (Some (OwnPath "/directory")).
      cbv beta iota. clear Ec.
      destruct (_ && _ && _); [|now left].
      right. right. right. left. exists "/directory". split; reflexivity.
  - cbn [orElse]. destruct (mainRedirect req) as [r|] eqn:Em.
    + apply mainRedirect_target in Em. subst r. cbn [orElse].
      right. right. left. now rewrite dirTarget_is_redirectUrl.
    + cbn [orElse]. unfold genericRewrite.
      destruct (targetPathOf (subdomainOf req)) as [v|] eqn:Ev; [|now left].
      destruct (_ && _ && _); [|now left].
      destruct (targetPathOf_cases _ _ Ev) as [(t & Ht & ->) | (Hn & Hin & ->)].
      * right. right. right. left. exists t. split; [exact Ht|reflexivity].
      * right. right. right. right. repeat split; auto.
Qed.

(** X9.  What the middleware changes.  A redirect (status 307 or 308) goes
    to the same protocol, path and query on the host [vendor], [buyer] or
    [dir] of [localhost] or of the main domain.  A rewrite keeps protocol,
    host, port and query.  Its path is the path prefix configured for the
    request's subdomain followed by the requested path (the prefix alone
    for [/]), with one exception: when the first label of the host is a
    name that the map inherits from [Object.prototype] ([constructor],
    [toString], ...), the lookup finds that member, and the path is the
    text of the member, as a URL stores it, followed by the requested path;
    that path is under none of the configured prefixes. *)
Theorem middleware_frame (req : NextRequest) :
  match middleware req with
  | Next => True
  | Redirect u status =>
      (status = 307 \/ status = 308)
      /\ protocol u = protocol (nextUrl req)
      /\ pathname u = pathname (nextUrl req)
      /\ search u = search (nextUrl req)
      /\ exists sub, In sub ["vendor"; "buyer"; "dir"]
           /\ (hostname u = sub ++ ".localhost" \/ hostname u = sub ++ "." ++ MAIN_DOMAIN)
  | Rewrite u =>
      protocol u = protocol (nextUrl req)
      /\ hostname u = hostname (nextUrl req)
      /\ port u = port (nextUrl req)
      /\ search u = search (nextUrl req)
      /\ ((exists targetPath,
             SUBDOMAIN_MAP (subdomainOf req) = Some targetPath
             /\ pathname u = underPrefix targetPath (pathname (nextUrl req))
             /\ JS.startsWith (pathname u) targetPath = true)
          \/ (SUBDOMAIN_MAP (subdomainOf req) = None
              /\ In (subdomainOf req) inheritedKeys
              /\ pathname u = underPrefix (inheritedPath (subdomainOf req))
                                          (pathname (nextUrl req))
              /\ forall sub targetPath,
                   SUBDOMAIN_MAP sub = Some targetPath ->
                   JS.startsWith (pathname u) targetPath = false))
  end.
Proof.
  destruct (middleware_origin req)
    as [-> | [(sub & Hsub & ->) | [-> | [(t & Ht & ->) | (Hn & Hin & ->)]]]].
  - exact I.
  - destruct (redirectUrl_frame req sub) as (Hp & Hpath & Hs & Hh).
    repeat split; auto. now exists sub.
  - destruct (redirectUrl_frame req "dir") as (Hp & Hpath & Hs & Hh).
    repeat split; auto. exists "dir". split; [simpl; tauto|exact Hh].
  - repeat split. left. exists t. repeat split; auto.
    apply prefix_append_self.
  - repeat split. right. repeat split; auto.
    intros sub t Ht. cbn [pathname setPathname].
    now apply (inherited_not_configured _ sub).
Qed.

(** The first piece of a split at a one-character separator. *)
Lemma breakOn_char_token c a rest :
  JS.all (fun d => negb (Ascii.eqb c d)) a = true ->
  JS.breakOn (String c "") (a ++ String c rest) = Some (a, rest).
Proof.
  induction a as [|d a IH]; intros H.
  - change ("" ++ String c rest) with (String c "" ++ rest). apply breakOn_at_start.
  - cbn [JS.all] in H. apply andb_true_iff in H as [Hd Ha].
    apply negb_true_iff in Hd.
    change (String d a ++ String c rest) with (String d (a ++ String c rest)).
    rewrite breakOn_unfold. cbn [JS.stripPrefix]. rewrite Hd, (IH Ha). reflexivity.
Qed.

Lemma first_piece_before c a rest :
  JS.all (fun d => negb (Ascii.eqb c d)) a = true ->
  itemOrEmpty (JS.split (a ++ String c rest) (String c "")) 0 = a.
Proof.
  intros H. rewrite split_unfold by discriminate.
  now rewrite (breakOn_char_token _ _ _ H).
Qed.

Lemma first_piece_whole c a :
  JS.all (fun d => negb (Ascii.eqb c d)) a = true ->
  itemOrEmpty (JS.split a (String c "")) 0 = a.
Proof.
  intros H. rewrite split_unfold by discriminate.
  now rewrite (breakOn_absent _ _ _ H).
Qed.

(** The first label of the host a redirect goes to. *)
Lemma redirect_host_label sub domain port :
  JS.all (fun d => negb (Ascii.eqb ":" d)) (sub ++ String "." domain) = true ->
  JS.all (fun d => negb (Ascii.eqb "." d)) sub = true ->
  subdomainOf
    {| hostHeader :=
         Some ((sub ++ String "." domain) ++ (if JS.isEmpty port then "" else ":" ++ port));
       nextUrl := {| protocol := ""; hostname := ""; port := ""; pathname := "";
                     search := "" |} |} = sub.
Proof.
  intros Hc Hd. unfold subdomainOf, hostnameOf, hostOf. cbn [hostHeader].
  assert (E : itemOrEmpty
                (JS.split ((sub ++ String "." domain)
                             ++ (if JS.isEmpty port then "" else ":" ++ port)) ":") 0
              = sub ++ String "." domain).
  { destruct port as [|x port]; cbn [JS.isEmpty].
    - rewrite append_nil_r. now apply first_piece_whole.
    - now apply first_piece_before. }
  rewrite E. now apply first_piece_before.
Qed.

Lemma subdomainOf_host req1 req2 :
  hostHeader req1 = hostHeader req2 -> subdomainOf req1 = subdomainOf req2.
Proof. unfold subdomainOf, hostnameOf, hostOf. now intros ->. Qed.

Lemma followUp_subdomain req sub :
  In sub ["vendor"; "buyer"; "dir"] ->
  subdomainOf (followUp (buildSubdomainRedirectUrl req sub)) = sub.
Proof.
  intros Hin.
  assert (H : forall domain p,
             JS.all (fun d => negb (Ascii.eqb ":" d)) domain = true ->
             subdomainOf
               {| hostHeader :=
                    Some ((sub ++ String "." domain)
                            ++ (if JS.isEmpty p then "" else ":" ++ p));
                  nextUrl := {| protocol := ""; hostname := ""; port := "";
                                pathname := ""; search := "" |} |} = sub).
  { intros domain p Hd. apply redirect_host_label.
    - rewrite all_append. cbn [JS.all]. rewrite Hd.
      simpl in Hin. destruct Hin as [<-|[<-|[<-|[]]]]; reflexivity.
    - simpl in Hin. destruct Hin as [<-|[<-|[<-|[]]]]; reflexivity. }
  unfold buildSubdomainRedirectUrl.
  destruct (isLocalhostOf req).
  - destruct (negb (JS.isEmpty (currentPortOf req))).
    + rewrite <- (H "localhost" (currentPortOf req) eq_refl) at 2.
      apply subdomainOf_host. reflexivity.
    + rewrite <- (H "localhost" (port (nextUrl req)) eq_refl) at 2.
      apply subdomainOf_host. reflexivity.
  - rewrite <- (H MAIN_DOMAIN "" eq_refl) at 2.
    apply subdomainOf_host. reflexivity.
Qed.

(** Conditions under which the middleware does not redirect. *)
Lemma no_redirect req :
  authRedirect req = None -> directoryRedirect req = None ->
  JS.startsWith (pathname (nextUrl req)) "/auth/" = true \/ mainRedirect req = None ->
  isRedirect (middleware req) = false.
Proof.
  intros Ha Hd Hm. unfold middleware, earlierStages. rewrite Ha, Hd.
  unfold staticBypass. destruct (hasFileExtension _); [reflexivity|]. cbn [orElse].
  unfold authPassthrough.
  destruct (JS.startsWith (pathname (nextUrl req)) "/auth/") eqn:E; [reflexivity|].
  destruct Hm as [Hm|Hm]; [discriminate|]. rewrite Hm. cbn [orElse].
  unfold dirRewrite, genericRewrite.
  destruct (String.eqb (subdomainOf req) "dir").
  - destruct (_ && _ && _); [reflexivity|]. cbn [orElse].
    destruct (targetPathOf (subdomainOf req)); [|reflexivity].
    destruct (_ && _ && _); reflexivity.
  - cbn [orElse]. destruct (targetPathOf (subdomainOf req)); [|reflexivity].
    destruct (_ && _ && _); reflexivity.
Qed.

(** Which block issued a redirect, and what it knew about the path. *)
Lemma redirect_origin req u status :
  middleware req = Redirect u status ->
  (JS.startsWith (pathname (nextUrl req)) "/auth/vendor/" = true
   /\ u = buildSubdomainRedirectUrl req "vendor")
  \/ (JS.startsWith (pathname (nextUrl req)) "/auth/user/" = true
      /\ u = buildSubdomainRedirectUrl req "buyer")
  \/ ((String.eqb (pathname (nextUrl req)) "/directory"
       || JS.startsWith (pathname (nextUrl req)) "/directory/") = true
      /\ u = buildSubdomainRedirectUrl req "dir")
  \/ (JS.startsWith (pathname (nextUrl req)) "/auth/" = false
      /\ u = buildSubdomainRedirectUrl req "dir").
Proof.
  unfold middleware, earlierStages.
  unfold staticBypass. destruct (hasFileExtension _); [discriminate|]. cbn [orElse].
  unfold authRedirect.
  destruct (JS.startsWith _ "/auth/vendor/" && _) eqn:E1.
  { cbn [orElse]. intros H. injection H as <- _.
    apply andb_true_iff in E1 as [E1 _]. now left. }
  destruct (JS.startsWith _ "/auth/user/" && _) eqn:E2.
  { cbn [orElse]. intros H. injection H as <- _.
    apply andb_true_iff in E2 as [E2 _]. right. now left. }
  cbn [orElse]. unfold directoryRedirect.
  destruct ((_ || _) && _) eqn:E3.
  { cbn [orElse]. intros H. injection H as <- _.
    apply andb_true_iff in E3 as [E3 _]. right. right. now left. }
  cbn [orElse]. unfold authPassthrough.
  destruct (JS.startsWith _ "/auth/") eqn:E4; [discriminate|]. cbn [orElse].
  destruct (dirRewrite req) as [r|] eqn:E5.
  { cbn [orElse]. unfold dirRewrite in E5.
    destruct (String.eqb _ "dir"); [|discriminate].
    destruct (_ && _ && _); [|discriminate]. injection E5 as <-. discriminate. }
  cbn [orElse]. destruct (mainRedirect req) as [r|] eqn:E6.
  { apply mainRedirect_target in E6. subst r. cbn [orElse].
    intros H. injection H as <- _. right. right. right.
    split; [reflexivity|apply dirTarget_is_redirectUrl]. }
  cbn [orElse]. unfold genericRewrite.
  destruct (targetPathOf _); [|discriminate].
  destruct (_ && _ && _); discriminate.
Qed.

Lemma mainRedirect_other req :
  String.eqb (subdomainOf req) "" || String.eqb (subdomainOf req) "www" = false ->
  mainRedirect req = None.
Proof. unfold mainRedirect. now intros ->. Qed.

(** X10.  Redirects settle in one hop: when the middleware answers a request
    with a redirect, the request the client then sends to the redirect's
    URL is not redirected again. *)
Theorem redirect_settles (req : NextRequest) (u : NextURL) (status : nat) :
  middleware req = Redirect u status ->
  isRedirect (middleware (followUp u)) = false.
Proof.
  intros H. apply redirect_origin in H.
  assert (Hpath : forall sub, pathname (nextUrl (followUp (buildSubdomainRedirectUrl req sub)))
                              = pathname (nextUrl req)).
  { intros sub. cbn [followUp nextUrl]. apply redirectUrl_frame. }
  destruct H as [[Hp ->] | [[Hp ->] | [[Hp ->] | [Hp ->]]]]; apply no_redirect.
  - unfold authRedirect. rewrite Hpath, followUp_subdomain by (simpl; tauto).
    rewrite (startsWith_exclusive "/auth/vendor/" "/auth/user/" _ eq_refl eq_refl Hp).
    now rewrite String.eqb_refl, andb_false_r.
  - unfold directoryRedirect. rewrite Hpath.
    rewrite (startsWith_exclusive "/auth/vendor/" "/directory/" _ eq_refl eq_refl Hp).
    destruct (String.eqb_spec (pathname (nextUrl req)) "/directory") as [E|E];
      [rewrite E in Hp; discriminate | reflexivity].
  - left. rewrite Hpath. unfold JS.startsWith in *.
    apply (prefix_app "/auth/" "vendor/"). exact Hp.
  - unfold authRedirect. rewrite Hpath, followUp_subdomain by (simpl; tauto).
    rewrite (startsWith_exclusive "/auth/user/" "/auth/vendor/" _ eq_refl eq_refl Hp).
    now rewrite String.eqb_refl, andb_false_r.
  - unfold directoryRedirect. rewrite Hpath.
    rewrite (startsWith_exclusive "/auth/user/" "/directory/" _ eq_refl eq_refl Hp).
    destruct (String.eqb_spec (pathname (nextUrl req)) "/directory") as [E|E];
      [rewrite E in Hp; discriminate | reflexivity].
  - left. rewrite Hpath. unfold JS.startsWith in *.
    apply (prefix_app "/auth/" "user/"). exact Hp.
  - unfold authRedirect. rewrite Hpath.
    apply orb_true_iff in Hp as [Hp|Hp].
    + apply String.eqb_eq in Hp. rewrite Hp. reflexivity.
    + rewrite (startsWith_exclusive "/directory/" "/auth/vendor/" _ eq_refl eq_refl Hp).
      now rewrite (startsWith_exclusive "/directory/" "/auth/user/" _ eq_refl eq_refl Hp).
  - unfold directoryRedirect. rewrite followUp_subdomain by (simpl; tauto).
    now rewrite andb_false_r.
  - right. apply mainRedirect_other. now rewrite followUp_subdomain by (simpl; tauto).
  - unfold authRedirect. rewrite Hpath.
    pose proof (startsWith_longer _ "/auth/" "vendor/" Hp) as Hv.
    pose proof (startsWith_longer _ "/auth/" "user/" Hp) as Hu.
    cbn [String.append] in Hv, Hu. now rewrite Hv, Hu.
  - unfold directoryRedirect. rewrite followUp_subdomain by (simpl; tauto).
    now rewrite andb_false_r.
  - right. apply mainRedirect_other. now rewrite followUp_subdomain by (simpl; tauto).
Qed.

Lemma redirect_settles_witness :
  isRedirect (middleware (followUp
     (buildSubdomainRedirectUrl (request "www.indiantrademart.com" "/auth/vendor/login")
        "vendor"))) = false.
Proof.
  apply (redirect_settles (request "www.indiantrademart.com" "/auth/vendor/login")
           (buildSubdomainRedirectUrl
              (request "www.indiantrademart.com" "/auth/vendor/login") "vendor") 307).
  reflexivity.
Defined.

(** X11.  An [/auth/] path is never rewritten, on any host: the request
    passes through, or is redirected (307) to the vendor or buyer host. *)
Theorem auth_never_rewritten (req : NextRequest) :
  JS.startsWith (pathname (nextUrl req)) "/auth/" = true ->
  middleware req = Next
  \/ exists sub, In sub ["vendor"; "buyer"]
       /\ middleware req = Redirect (buildSubdomainRedirectUrl req sub) 307.
Proof.
  intros Hp. unfold middleware, earlierStages.
  unfold staticBypass. destruct (hasFileExtension _); [now left|]. cbn [orElse].
  unfold authRedirect.
  destruct (JS.startsWith _ "/auth/vendor/" && _);
    [right; exists "vendor"; split; [simpl; tauto|reflexivity]|].
  destruct (JS.startsWith _ "/auth/user/" && _);
    [right; exists "buyer"; split; [simpl; tauto|reflexivity]|].
  cbn [orElse]. unfold directoryRedirect.
  rewrite (startsWith_exclusive "/auth/" "/directory/" _ eq_refl eq_refl Hp).
  destruct (String.eqb_spec (pathname (nextUrl req)) "/directory") as [E|E];
    [rewrite E in Hp; discriminate|].
  cbn [orb andb orElse]. unfold authPassthrough. rewrite Hp. now left.
Qed.

Lemma auth_never_rewritten_witness :
  middleware (request "emp.indiantrademart.com" "/auth/login") = Next
  \/ exists sub, In sub ["vendor"; "buyer"]
       /\ middleware (request "emp.indiantrademart.com" "/auth/login")
          = Redirect (buildSubdomainRedirectUrl
                        (request "emp.indiantrademart.com" "/auth/login") sub) 307.
Proof.
  apply (auth_never_rewritten (request "emp.indiantrademart.com" "/auth/login")).
  reflexivity.
Defined.









Lemma slugsOf_slugEntry x : Sitemap.slugEntry (slugsOf x) = true.
Proof.
  assert (H : forall o, Sitemap.slugField (slugOf o) = true).
  { intros [s|]; [|reflexivity]. unfold slugOf.
    destruct (JS.truthy (Some s)); [apply toSlug_chars|reflexivity]. }
  unfold Sitemap.slugEntry, slugsOf. cbn [serviceSlug citySlug stateSlug].
  now rewrite !H.
Qed.






(** The two exceptions: a service slug that starts with [directory], and the
    service slug [dashboard] without location, are listed by the sitemap
    and passed through unrewritten on the dir subdomain. *)
Example directory_slug_not_rewritten :
  Sitemap.entryPath
    (slugsOf {| serviceName := Some "Directory Services"; cityName := None;
                stateName := None |}) = Some "/directory-services"
  /\ middleware (request "dir.indiantrademart.com" "/directory-services") = Next.
Proof. split; reflexivity. Qed.

Example dashboard_slug_not_rewritten :
  Sitemap.entryPath
    (slugsOf {| serviceName := Some "Dashboard"; cityName := None;
                stateName := None |}) = Some "/dashboard"
  /\ middleware (request "dir.indiantrademart.com" "/dashboard") = Next.
Proof. split; reflexivity. Qed.

(** A host whose first label names a member of [Object.prototype] is
    rewritten by block 3 to a path made of that member's text. *)
Example inherited_key_rewrite :
  middleware (request "constructor.indiantrademart.com" "/products")
  = Rewrite (setPathname (nextUrl (request "constructor.indiantrademart.com" "/products"))
               "/function%20Object()%20%7B%20[native%20code]%20%7D/products")
  /\ middleware (request "__proto__.localhost:3000" "/")
     = Rewrite (setPathname (nextUrl (request "__proto__.localhost:3000" "/"))
                  "/[object%20Object]")
  /\ middleware (request "constructor.indiantrademart.com" "/dashboard/x") = Next.
Proof. repeat split; reflexivity. Qed.

End MiddlewareMore.

(* ================================================================== *)
(** * Further properties of the lead popup hook *)
(* ================================================================== *)

Module LeadPopupMore.
Import LeadPopup LeadPopupSpec LeadPopupRuns LeadPopupFacts.


Lemma timerCleanup_pending_nil v : pending v = [] -> pending (timerCleanup v) = [].
Proof.
  intros H. unfold timerCleanup. destruct (hasCleanup v); auto.
  destruct (timerRef v); auto. simpl. now rewrite H.
Qed.

Lemma timerEffect_guarded v :
  pending v = [] ->
  negb (enabledAutoOpen (options v)) || hasSubmitted v || hasDismissed v = true ->
  pending (timerEffect v) = [].
Proof. intros Hp Hg. unfold timerEffect. now rewrite Hg. Qed.

(** A render after an update that leaves the guard of the effect true
    arms no timer. *)
Lemma commit_guarded before after :
  pending after = [] ->
  (depsEqb (deps before) (deps after) = false ->
   negb (enabledAutoOpen (options after)) || hasSubmitted after || hasDismissed after = true) ->
  pending (commit before after) = [].
Proof.
  intros Hp Hg. unfold commit. destruct (depsEqb _ _); [exact Hp|].
  apply timerEffect_guarded.
  - now apply timerCleanup_pending_nil.
  - destruct (timerCleanup_frame after) as (-> & _ & -> & -> & _). now apply Hg.
Qed.

Lemma step_options o e v :
  keepsOptions o e -> options v = o -> options (step e v) = o.
Proof.
  intros Hk Ho. destruct e as [| | | id | o' | |]; simpl.
  - unfold openPopup. destruct (mounted v); auto.
    now destruct (commit_frame v (withState v true (hasSubmitted v) (hasDismissed v)))
      as (-> & _).
  - unfold closePopup. destruct (mounted v); auto.
    now destruct (commit_frame v (withState v false (hasSubmitted v) true)) as (-> & _).
  - unfold markAsSubmitted. simpl. destruct (mounted v); auto.
    now destruct (commit_frame v (withState v false true (hasDismissed v))) as (-> & _).
  - unfold timerFires. destruct (isPending id (pending v)); auto.
    set (v' := withTimer _ _ _ _ _). destruct (mounted v'); auto.
    now destruct (commit_frame v' (withState v' true (hasSubmitted v') (hasDismissed v')))
      as (-> & _).
  - unfold rerender. destruct (mounted v); auto.
    destruct (commit_frame v (withOptions v o')) as (-> & _). exact Hk.
  - unfold unmount. destruct (mounted v); auto.
    simpl. now destruct (timerCleanup_frame v) as (-> & _).
  - unfold renderQueued. destruct (mounted v && queued v); auto.
    now destruct (commit_frame v
                    (withQueued (withState v (isOpen v) true (hasDismissed v)) false))
      as (-> & _).
Qed.

Lemma run_options o events v :
  optionsFixed o events -> options v = o -> options (run events v) = o.
Proof.
  intros Hf. revert v. induction Hf as [|e l He Hl IH]; intros v Ho; [exact Ho|].
  simpl. apply IH. now apply step_options.
Qed.

Lemma mount_options o stored : options (mount o stored) = o.
Proof.
  unfold mount, firstEffects.
  destruct (timerEffect_frame (sessionEffect (firstRender o stored))) as (-> & _).
  now destruct (sessionEffect_frame (firstRender o stored)) as (-> & _).
Qed.

(** With the options kept, a view without timer gets none: the state only
    moves towards submitted or dismissed, which the effect refuses. *)
Lemma step_stays_quiet o e v :
  keepsOptions o e -> options v = o -> pending v = [] -> pending (step e v) = [].
Proof.
  intros Hk Ho Hp. destruct e as [| | | id | o' | |]; simpl.
  - now rewrite openPopup_keeps_timers.
  - unfold closePopup. destruct (mounted v); auto.
    apply commit_guarded; auto. intros _. simpl. now rewrite orb_true_r.
  - unfold markAsSubmitted. simpl. destruct (mounted v); auto.
    apply commit_guarded; auto. intros _. simpl.
    now rewrite orb_true_r.
  - now rewrite quiet_timer_noop.
  - unfold rerender. destruct (mounted v); auto.
    simpl in Hk. subst o'. apply commit_guarded; auto.
    intros H.
    assert (E : deps (withOptions v o) = deps v) by (unfold deps; simpl; now rewrite Ho).
    rewrite E, depsEqb_refl in H. discriminate.
  - unfold unmount. destruct (mounted v); auto. simpl.
    now apply timerCleanup_pending_nil.
  - unfold renderQueued. destruct (mounted v && queued v); auto.
    apply commit_guarded; auto. intros _. simpl. now rewrite orb_true_r.
Qed.

Lemma run_stays_quiet o events v :
  optionsFixed o events -> options v = o -> pending v = [] -> pending (run events v) = [].
Proof.
  intros Hf. revert v. induction Hf as [|e l He Hl IH]; intros v Ho Hp; [exact Hp|].
  simpl. apply IH; [now apply step_options | now apply (step_stays_quiet o)].
Qed.

(** X15.  In a page view whose caller keeps the same options, the auto-open
    timer fires at most once: when it fires the popup is open, and whatever
    happens afterwards no timer is armed again. *)
Theorem auto_open_at_most_once
    (o : Options) (stored : option string) (before after : list Event) (id : nat) :
  optionsFixed o before -> optionsFixed o after ->
  isPending id (pending (run before (mount o stored))) = true ->
  isOpen (step (TimerFires id) (run before (mount o stored))) = true
  /\ pending (step (TimerFires id) (run before (mount o stored))) = []
  /\ pending (run after (step (TimerFires id) (run before (mount o stored)))) = [].
Proof.
  intros Hb Ha Hid. set (v := run before (mount o stored)) in *.
  assert (Hw : wellFormed v) by apply run_wellFormed, mount_wellFormed.
  assert (Ho : options v = o) by (apply run_options; [exact Hb | apply mount_options]).
  destruct Hw as [H | (Hm & _ & _ & _ & _ & k & _ & Hp)];
    [rewrite H in Hid; discriminate|].
  assert (Hk : id = k).
  { rewrite Hp in Hid. simpl in Hid. rewrite orb_false_r in Hid.
    now apply Nat.eqb_eq in Hid. }
  subst k.
  assert (Hq : pending (step (TimerFires id) v) = []).
  { simpl. unfold timerFires. rewrite Hid.
    set (v' := withTimer _ _ _ _ _).
    assert (Hp' : pending v' = []).
    { simpl. rewrite Hp. apply clearTimeout_single. }
    change (mounted v') with (mounted v). rewrite Hm.
    unfold commit.
    change (deps (withState v' true (hasSubmitted v') (hasDismissed v'))) with (deps v').
    now rewrite depsEqb_refl. }
  split; [|split; [exact Hq|]].
  - simpl. unfold timerFires. rewrite Hid.
    set (v' := withTimer _ _ _ _ _). change (mounted v') with (mounted v). rewrite Hm.
    now destruct (commit_frame v' (withState v' true (hasSubmitted v') (hasDismissed v')))
      as (_ & -> & _).
  - apply (run_stays_quiet o); auto. apply step_options; [exact I|exact Ho].
Qed.

Lemma auto_open_at_most_once_witness :
  let o := {| autoOpenDelayMs := 20000; enabledAutoOpen := true |} in
  isOpen (step (TimerFires 1) (run [] (mount o None))) = true
  /\ pending (step (TimerFires 1) (run [] (mount o None))) = []
  /\ pending (run [ClosePopup; OpenPopup; Rerender o]
                  (step (TimerFires 1) (run [] (mount o None)))) = [].
Proof.
  apply (auto_open_at_most_once {| autoOpenDelayMs := 20000; enabledAutoOpen := true |}
           None [] [ClosePopup; OpenPopup;
                    Rerender {| autoOpenDelayMs := 20000; enabledAutoOpen := true |}] 1).
  - constructor.
  - repeat constructor.
  - reflexivity.
Defined.

(** When the caller changes the options after the popup opened, the timer
    is armed again. *)
Example rearmed_by_new_options :
  let o := {| autoOpenDelayMs := 20000; enabledAutoOpen := true |} in
  let o' := {| autoOpenDelayMs := 5000; enabledAutoOpen := true |} in
  pending (run [TimerFires 1; Rerender o'] (mount o None)) = [(2, 5000%N)].
Proof. reflexivity. Qed.

Lemma step_sessionItem e v :
  e <> MarkAsSubmitted -> sessionItem (step e v) = sessionItem v.
Proof.
  intros He. destruct e as [| | | id | o' | |]; simpl; try congruence.
  - unfold openPopup. destruct (mounted v); auto.
    now destruct (commit_frame v (withState v true (hasSubmitted v) (hasDismissed v)))
      as (_ & _ & _ & _ & _ & ->).
  - unfold closePopup. destruct (mounted v); auto.
    now destruct (commit_frame v (withState v false (hasSubmitted v) true))
      as (_ & _ & _ & _ & _ & ->).
  - unfold timerFires. destruct (isPending id (pending v)); auto.
    set (v' := withTimer _ _ _ _ _). destruct (mounted v'); auto.
    now destruct (commit_frame v' (withState v' true (hasSubmitted v') (hasDismissed v')))
      as (_ & _ & _ & _ & _ & ->).
  - unfold rerender. destruct (mounted v); auto.
    now destruct (commit_frame v (withOptions v o')) as (_ & _ & _ & _ & _ & ->).
  - unfold unmount. destruct (mounted v); auto. simpl.
    now destruct (timerCleanup_frame v) as (_ & _ & _ & _ & _ & ->).
  - unfold renderQueued. destruct (mounted v && queued v); auto.
    now destruct (commit_frame v
                    (withQueued (withState v (isOpen v) true (hasDismissed v)) false))
      as (_ & _ & _ & _ & _ & ->).
Qed.

Lemma run_sessionItem events v :
  ~ In MarkAsSubmitted events -> sessionItem (run events v) = sessionItem v.
Proof.
  revert v. induction events as [|e l IH]; intros v H; [reflexivity|].
  simpl. rewrite IH by (intros Hin; apply H; now right).
  apply step_sessionItem. intros ->. apply H. now left.
Qed.

Lemma mount_sessionItem o stored : sessionItem (mount o stored) = stored.
Proof.
  unfold mount, firstEffects.
  destruct (timerEffect_frame (sessionEffect (firstRender o stored)))
    as (_ & _ & _ & _ & _ & ->).
  now destruct (sessionEffect_frame (firstRender o stored)) as (_ & _ & _ & _ & _ & -> & _).
Qed.

(** X16.  Dismissal lasts for the page view only.  Nothing but
    [markAsSubmitted] writes the session item, so after a view in which the
    form was not submitted (closed or not), the next view of the session,
    with auto-open enabled, has its timer armed with its delay. *)
Theorem dismissal_is_per_view (o o' : Options) (events : list Event) :
  ~ In MarkAsSubmitted events ->
  enabledAutoOpen o' = true ->
  sessionItem (run events (mount o None)) = None
  /\ pending (mount o' (sessionItem (run events (mount o None))))
     = [(1, autoOpenDelayMs o')]
  /\ hasDismissed (mount o' (sessionItem (run events (mount o None)))) = false.
Proof.
  intros Hn He.
  assert (Hs : sessionItem (run events (mount o None)) = None).
  { rewrite run_sessionItem by exact Hn. apply mount_sessionItem. }
  rewrite Hs. split; [reflexivity|].
  unfold mount, firstEffects, timerEffect. simpl. rewrite He. simpl. split; reflexivity.
Qed.

Lemma dismissal_is_per_view_witness :
  let o := {| autoOpenDelayMs := 20000; enabledAutoOpen := true |} in
  sessionItem (run [TimerFires 1; ClosePopup; Unmount] (mount o None)) = None
  /\ pending (mount o (sessionItem (run [TimerFires 1; ClosePopup; Unmount] (mount o None))))
     = [(1, autoOpenDelayMs o)]
  /\ hasDismissed
       (mount o (sessionItem (run [TimerFires 1; ClosePopup; Unmount] (mount o None))))
     = false.
Proof.
  apply (dismissal_is_per_view {| autoOpenDelayMs := 20000; enabledAutoOpen := true |}
           {| autoOpenDelayMs := 20000; enabledAutoOpen := true |}
           [TimerFires 1; ClosePopup; Unmount]).
  - simpl. intros [H|[H|[H|[]]]]; discriminate.
  - reflexivity.
Defined.

(** X17.  With auto-open disabled and the options kept, the popup never
    opens by itself: no timer is ever armed, and the view is open only if
    [openPopup] was called. *)
Theorem disabled_never_auto_opens
    (o : Options) (stored : option string) (events : list Event) :
  enabledAutoOpen o = false -> optionsFixed o events ->
  pending (run events (mount o stored)) = []
  /\ (isOpen (run events (mount o stored)) = true -> In OpenPopup events).
Proof.
  intros He Hf.
  assert (Hm : pending (mount o stored) = []).
  { unfold mount, firstEffects. apply timerEffect_guarded.
    - now destruct (sessionEffect_frame (firstRender o stored))
        as (_ & _ & _ & _ & _ & _ & ->).
    - destruct (sessionEffect_frame (firstRender o stored)) as (-> & _).
      cbn [options firstRender]. now rewrite He. }
  assert (Hq : forall l, optionsFixed o l -> pending (run l (mount o stored)) = []).
  { intros l Hl. apply (run_stays_quiet o); auto. apply mount_options. }
  split; [now apply Hq|].
  induction events as [|e l IH] using rev_ind; [destruct (mount_closed o stored); simpl; congruence|].
  apply Forall_app in Hf as [Hl _].
  rewrite run_app. simpl. intros H. apply in_or_app.
  destruct e; try (left; apply IH; [exact Hl|];
    apply step_open_origin in H; [exact H | now apply Hq | discriminate]).
  right. now left.
Qed.

Lemma disabled_never_auto_opens_witness :
  pending (run [ClosePopup; Rerender defaultOptions] (mount defaultOptions None)) = []
  /\ (isOpen (run [ClosePopup; Rerender defaultOptions] (mount defaultOptions None)) = true ->
      In OpenPopup [ClosePopup; Rerender defaultOptions]).
Proof.
  apply (disabled_never_auto_opens defaultOptions None [ClosePopup; Rerender defaultOptions]).
  - reflexivity.
  - repeat constructor.
Defined.

End LeadPopupMore.

(* ================================================================== *)
(** * Further properties of the slug parser *)
(* ================================================================== *)

(** What precedes the first occurrence of a separator does not contain it. *)
Lemma breakOn_before_clean sep s before rest :
  sep <> "" -> JS.breakOn sep s = Some (before, rest) -> JS.breakOn sep before = None.
Proof.
  intros Hsep H.
  destruct (JS.breakOn sep before) as [[b r]|] eqn:E; [|reflexivity].
  exfalso. pose proof (breakOn_spec _ _ _ _ E) as Eb.
  pose proof (breakOn_spec _ _ _ _ H) as Es.
  assert (Hs : s = b ++ sep ++ (r ++ sep ++ rest)).
  { rewrite Es, Eb at 1. now rewrite !append_assoc. }
  pose proof (breakOn_leftmost _ _ _ _ _ _ H Hs) as Hl.
  rewrite Eb, !length_append in Hl. destruct sep; [congruence|]. simpl in Hl. lia.
Qed.

(** X18.  The parser never throws, whatever the segments: it returns a
    triple whose service slug is a string that does not contain the marker
    [-in-]; the triple depends on the segments only through their
    hyphen-joined string, and without marker it is that string with null
    city and state. *)
Theorem parseSeoSlug_defined (slugArray : list string) :
  exists t service,
    parseSeoSlug slugArray = Some t
    /\ serviceSlug t = Some service
    /\ JS.includes service "-in-" = false
    /\ parseSeoSlug [JS.join slugArray "-"] = Some t
    /\ parseSeoSlug (JS.split (JS.join slugArray "-") "-") = Some t
    /\ (JS.includes (JS.join slugArray "-") "-in-" = false ->
        t = {| serviceSlug := Some (JS.join slugArray "-");
               citySlug := None; stateSlug := None |}).
Proof.
  assert (Hj : parseSeoSlug [JS.join slugArray "-"] = parseSeoSlug slugArray) by reflexivity.
  assert (Hs : parseSeoSlug (JS.split (JS.join slugArray "-") "-") = parseSeoSlug slugArray).
  { unfold parseSeoSlug. now rewrite join_split by discriminate. }
  rewrite Hj, Hs. unfold parseSeoSlug.
  destruct (JS.includes (JS.join slugArray "-") "-in-") eqn:E.
  - apply includes_breakOn in E as (b & r & E).
    rewrite split_unfold, E by discriminate.
    destruct (split_second "-in-" r) as (part & more & -> & _); [discriminate|].
    destruct (parseLocation part) as [city state].
    eexists. exists b. split; [reflexivity|]. split; [reflexivity|].
    split; [|split; [reflexivity|split; [reflexivity|discriminate]]].
    unfold JS.includes. now rewrite (breakOn_before_clean "-in-" _ _ _ ltac:(discriminate) E).
  - eexists. exists (JS.join slugArray "-"). split; [reflexivity|]. split; [reflexivity|].
    split; [exact E|]. split; [reflexivity|]. split; reflexivity.
Qed.

(* ================================================================== *)
(** * Titles and slugs *)
(* ================================================================== *)

Module TitleFacts.
Import Titles.

Lemma alnum_upperUnits c : isAlnum c = true -> upperUnits c = [unit (upperAscii c)].
Proof. by_cases_on_char c. Qed.

Lemma alnum_upper_lower c : isAlnum c = true -> JS.lowerChar (upperAscii c) = c.
Proof. by_cases_on_char c. Qed.

Lemma alnum_slugChar c : isAlnum c = true -> slugChar c = true.
Proof. by_cases_on_char c. Qed.

Lemma alnum_not_hyphen c : isAlnum c = true -> JS.isHyphen c = false.
Proof. by_cases_on_char c. Qed.

Lemma slugChar_alnum c : slugChar c = true -> JS.isHyphen c = false -> isAlnum c = true.
Proof. by_cases_on_char c. Qed.

Lemma lower_keeps_space c : JS.isSpace (JS.lowerChar c) = JS.isSpace c.
Proof. by_cases_on_char c. Qed.

Lemma alnum_of_token s :
  JS.all slugChar s = true -> hyphenFree s = true -> JS.all isAlnum s = true.
Proof.
  induction s as [|c r IH]; [reflexivity|]. intros Ha Hh.
  cbn [JS.all] in Ha. rewrite hyphenFree_cons in Hh.
  apply andb_true_iff in Ha as [Hc Hr]. apply andb_true_iff in Hh as [Hn Hf].
  apply negb_true_iff in Hn. cbn [JS.all].
  now rewrite (slugChar_alnum _ Hc Hn), IH.
Qed.

Lemma noDoubleHyphen_suffix a t :
  noDoubleHyphen (a ++ t) = true -> noDoubleHyphen t = true.
Proof.
  induction a as [|c r IH]; [auto|].
  change (String c r ++ t) with (String c (r ++ t)). cbn [noDoubleHyphen].
  intros H. apply andb_true_iff in H as [_ H]. auto.
Qed.

(** What follows the first hyphen of a slug is a non-empty slug, and what
    precedes it a non-empty word. *)
Lemma slug_split_step b r :
  isSlug (b ++ "-" ++ r) = true -> hyphenFree b = true ->
  b <> "" /\ JS.all isAlnum b = true /\ isSlug r = true /\ r <> "".
Proof.
  intros H Hb. destruct (isSlug_parts _ H) as (Ha & Hd & Hs & He).
  apply dropEnd_fixed_last in He.
  rewrite !all_append in Ha. apply andb_true_iff in Ha as [Hab Har].
  apply andb_true_iff in Har as [_ Har].
  assert (Hnb : b <> "") by (intros ->; discriminate Hs).
  apply noDoubleHyphen_suffix in Hd.
  change ("-" ++ r) with (String "-" r) in Hd. cbn [noDoubleHyphen] in Hd.
  apply andb_true_iff in Hd as [Hsr Hdr].
  change (JS.isHyphen "-") with true in Hsr. cbn [andb] in Hsr.
  apply negb_true_iff in Hsr.
  rewrite lastSatisfies_append in He by discriminate.
  change ("-" ++ r) with (String "-" r) in He. rewrite lastSatisfies_cons in He.
  assert (Hnr : r <> "") by (intros ->; discriminate He).
  destruct r as [|x r']; [congruence|]. cbn [JS.isEmpty] in He.
  repeat split; auto.
  - now apply alnum_of_token.
  - unfold isSlug. rewrite Har, Hdr, Hsr, (last_dropEnd_fixed _ _ He), String.eqb_refl.
    reflexivity.
Qed.

(** The words of a non-empty slug are non-empty and made of [a-z0-9]. *)
Lemma slug_words s :
  isSlug s = true -> s <> "" ->
  forallb (fun w => negb (JS.isEmpty w) && JS.all isAlnum w) (JS.split s "-") = true.
Proof.
  remember (String.length s) as n eqn:En. revert s En.
  induction n as [n IH] using lt_wf_ind. intros s En Hs Hne.
  rewrite split_unfold by discriminate.
  destruct (JS.breakOn "-" s) as [[b r]|] eqn:E.
  - pose proof (breakOn_spec _ _ _ _ E) as Es.
    pose proof (breakOn_hyphen_before _ _ _ E) as Hb.
    rewrite Es in Hs. destruct (slug_split_step _ _ Hs Hb) as (Hnb & Hab & Hr & Hnr).
    cbn [forallb]. rewrite Hab.
    destruct b; [congruence|]. cbn [JS.isEmpty negb andb].
    apply (IH (String.length r)); auto.
    subst n. rewrite Es, !length_append. simpl. lia.
  - cbn [forallb]. pose proof (breakOn_hyphen_none_inv _ E) as Hf.
    destruct (isSlug_parts _ Hs) as (Ha & _).
    rewrite (alnum_of_token _ Ha Hf). destruct s; [congruence|reflexivity].
Qed.

Lemma units_append a b : units (a ++ b) = (units a ++ units b)%list.
Proof. induction a as [|c r IH]; [reflexivity|]. simpl. now rewrite IH. Qed.

Lemma joinSpace_cons w rest :
  rest <> [] -> joinSpace (w :: rest) = (w ++ 32%N :: joinSpace rest)%list.
Proof. destruct rest; [congruence|reflexivity]. Qed.

Lemma units_concat l : units (String.concat " " l) = joinSpace (List.map units l).
Proof.
  induction l as [|w l IH]; [reflexivity|].
  destruct l as [|w' l]; [reflexivity|].
  rewrite concat_cons by discriminate.
  rewrite units_append. change (" " ++ String.concat " " (w' :: l))
    with (String " " (String.concat " " (w' :: l))).
  cbn [units]. rewrite IH. reflexivity.
Qed.

Lemma map_append f a b : JS.map f (a ++ b) = JS.map f a ++ JS.map f b.
Proof. induction a as [|c r IH]; [reflexivity|]. simpl. now rewrite IH. Qed.

Lemma map_concat f sep l :
  JS.map f (String.concat sep l) = String.concat (JS.map f sep) (List.map (JS.map f) l).
Proof.
  induction l as [|w l IH]; [reflexivity|].
  destruct l as [|w' l]; [reflexivity|].
  rewrite concat_cons by discriminate.
  rewrite !map_append, IH.
  change (List.map (JS.map f) (w :: w' :: l))
    with (JS.map f w :: JS.map f w' :: List.map (JS.map f) l).
  now rewrite (concat_cons _ _ (JS.map f w' :: List.map (JS.map f) l)) by discriminate.
Qed.

Lemma map_words_id f (p : ascii -> bool) l :
  (forall c, p c = true -> f c = c) ->
  forallb (fun w => negb (JS.isEmpty w) && JS.all p w) l = true ->
  List.map (JS.map f) l = l.
Proof.
  intros Hf. induction l as [|w l IH]; [reflexivity|]. intros H.
  cbn [forallb] in H. apply andb_true_iff in H as [Hw Hl].
  apply andb_true_iff in Hw as [_ Hw]. simpl.
  now rewrite (map_id f p w Hf Hw), IH.
Qed.

Lemma hyphen_to_space_alnum c :
  isAlnum c = true -> (if JS.isHyphen c then " "%char else c) = c.
Proof. intros H. now rewrite (alnum_not_hyphen _ H). Qed.

Lemma alnum_fixed_by_lower c : isAlnum c = true -> JS.lowerChar c = c.
Proof. intros H. apply slugChar_lower. now apply alnum_slugChar. Qed.

(** Lower-casing the capitalised words gives the words back. *)
Lemma lower_capitalized l :
  forallb (fun w => negb (JS.isEmpty w) && JS.all isAlnum w) l = true ->
  List.map (JS.map JS.lowerChar) (List.map capitalized l) = l.
Proof.
  induction l as [|w l IH]; [reflexivity|]. intros H.
  cbn [forallb] in H. apply andb_true_iff in H as [Hw Hl].
  apply andb_true_iff in Hw as [_ Hw]. cbn [List.map]. rewrite (IH Hl). f_equal.
  destruct w as [|c r]; [reflexivity|].
  cbn [JS.all] in Hw. apply andb_true_iff in Hw as [Hc Hr].
  cbn [capitalized JS.map].
  now rewrite (alnum_upper_lower _ Hc), (map_id _ _ _ alnum_fixed_by_lower Hr).
Qed.

Lemma capitalize_units l :
  forallb (fun w => negb (JS.isEmpty w) && JS.all isAlnum w) l = true ->
  List.map capitalize l = List.map units (List.map capitalized l)
  /\ List.map capitalizeLower l = List.map units (List.map capitalized l)
  /\ List.filter (fun part => negb (JS.isEmpty part)) l = l.
Proof.
  induction l as [|w l IH]; [repeat split|]. intros H.
  cbn [forallb] in H. apply andb_true_iff in H as [Hw Hl].
  apply andb_true_iff in Hw as [Hn Hw].
  destruct (IH Hl) as (E1 & E2 & E3).
  cbn [List.map List.filter]. rewrite Hn, E1, E2, E3.
  destruct w as [|c r]; [discriminate|].
  cbn [JS.all] in Hw. apply andb_true_iff in Hw as [Hc Hr].
  cbn [capitalize capitalizeLower capitalized units].
  unfold JS.toLowerCase. rewrite (map_id _ _ _ alnum_fixed_by_lower Hr), (alnum_upperUnits _ Hc).
  repeat split.
Qed.

Lemma map_length f s : String.length (JS.map f s) = String.length s.
Proof. induction s as [|c r IH]; [reflexivity|]. simpl. now rewrite IH. Qed.

Lemma map_dropStart f p s :
  (forall c, p (f c) = p c) -> JS.map f (JS.dropStart p s) = JS.dropStart p (JS.map f s).
Proof.
  intros H. induction s as [|c r IH]; [reflexivity|].
  cbn [JS.dropStart JS.map]. rewrite H. now destruct (p c).
Qed.

Lemma map_isEmpty f s : JS.isEmpty (JS.map f s) = JS.isEmpty s.
Proof. now destruct s. Qed.

Lemma map_dropEnd f p s :
  (forall c, p (f c) = p c) -> JS.map f (JS.dropEnd p s) = JS.dropEnd p (JS.map f s).
Proof.
  intros H. induction s as [|c r IH]; [reflexivity|].
  cbn [JS.dropEnd JS.map]. rewrite H, <- IH, map_isEmpty.
  now destruct (p c && JS.isEmpty (JS.dropEnd p r)).
Qed.

Lemma dropStart_le p s : String.length (JS.dropStart p s) <= String.length s.
Proof.
  induction s as [|c r IH]; [reflexivity|].
  cbn [JS.dropStart]. destruct (p c); simpl; lia.
Qed.

Lemma dropEnd_le p s : String.length (JS.dropEnd p s) <= String.length s.
Proof.
  induction s as [|c r IH]; [reflexivity|].
  cbn [JS.dropEnd]. destruct (p c && _); simpl; lia.
Qed.

Lemma dropStart_same_length p s :
  String.length (JS.dropStart p s) = String.length s -> JS.dropStart p s = s.
Proof.
  destruct s as [|c r]; [reflexivity|]. cbn [JS.dropStart].
  destruct (p c); [|reflexivity].
  pose proof (dropStart_le p r). simpl. lia.
Qed.

Lemma dropEnd_same_length p s :
  String.length (JS.dropEnd p s) = String.length s -> JS.dropEnd p s = s.
Proof.
  induction s as [|c r IH]; [reflexivity|]. cbn [JS.dropEnd].
  destruct (p c && _); [simpl; lia|].
  simpl. intros H. f_equal. apply IH. lia.
Qed.

(** A string whose lower-cased form has no blank at either end has none. *)
Lemma trim_of_lower t :
  JS.trim (JS.toLowerCase t) = JS.toLowerCase t -> JS.trim t = t.
Proof.
  unfold JS.trim, JS.toLowerCase. intros H.
  rewrite <- (map_dropStart _ _ _ lower_keeps_space) in H.
  rewrite <- (map_dropEnd _ _ _ lower_keeps_space) in H.
  apply (f_equal String.length) in H. rewrite !map_length in H.
  pose proof (dropStart_le JS.isSpace t).
  pose proof (dropEnd_le JS.isSpace (JS.dropStart JS.isSpace t)).
  assert (Hs : JS.dropStart JS.isSpace t = t) by (apply dropStart_same_length; lia).
  rewrite Hs in *. now apply dropEnd_same_length.
Qed.

(** X19.  For a non-empty slug, [humanizeSlug] and [slugToTitle] give the
    same title, it stays within the characters below U+0100, and [toSlug]
    takes it back to the slug: a path built from the titles of a directory
    page leads to the slugs they were made from. *)
Theorem title_round_trip (s : string) :
  isSlug s = true -> s <> "" ->
  exists title : string,
    humanizeSlug (Some s) = units title
    /\ slugToTitle (Some s) = Some (units title)
    /\ toSlug title = s.
Proof.
  intros Hs Hne. pose proof (slug_words s Hs Hne) as Hw.
  destruct (capitalize_units _ Hw) as (E1 & E2 & E3).
  exists (String.concat " " (List.map capitalized (JS.split s "-"))).
  assert (Ht : JS.truthy (Some s) = true) by (destruct s; [congruence|reflexivity]).
  split; [|split].
  - unfold humanizeSlug. now rewrite Ht, E1, units_concat.
  - unfold slugToTitle. now rewrite Ht, E3, E2, units_concat.
  - assert (Hl : JS.toLowerCase (String.concat " " (List.map capitalized (JS.split s "-")))
                 = hyphensToSpaces s).
    { unfold JS.toLowerCase. rewrite map_concat, (lower_capitalized _ Hw).
      rewrite <- (join_split "-" s) at 2 by discriminate.
      unfold hyphensToSpaces, JS.join. rewrite map_concat.
      now rewrite (map_words_id _ isAlnum _ hyphen_to_space_alnum Hw). }
    apply toSlug_of_spaced; auto.
    apply trim_of_lower. rewrite Hl. now apply hyphensToSpaces_trim.
Qed.

Lemma title_round_trip_witness :
  exists title : string,
    humanizeSlug (Some "uttar-pradesh") = units title
    /\ slugToTitle (Some "uttar-pradesh") = Some (units title)
    /\ toSlug title = "uttar-pradesh".
Proof. apply (title_round_trip "uttar-pradesh"); [reflexivity|discriminate]. Defined.

Example humanize_example :
  humanizeSlug (Some "peb-building") = units "Peb Building".
Proof. reflexivity. Qed.

(** Outside the slugs the two differ: the breadcrumb keeps empty words and
    upper-case letters. *)
Example titles_differ :
  humanizeSlug (Some "a--bC") = units "A  BC"
  /\ slugToTitle (Some "a--bC") = Some (units "A Bc").
Proof. split; reflexivity. Qed.

End TitleFacts.

(* ================================================================== *)
(** * The titles of the directory page *)
(* ================================================================== *)

Module DirectoryPageFacts.
Import Titles DirectoryPage.

Lemma noDoubleHyphen_prefix a t :
  noDoubleHyphen (a ++ t) = true -> noDoubleHyphen a = true.
Proof.
  induction a as [|c r IH]; [reflexivity|].
  change (String c r ++ t) with (String c (r ++ t)). cbn [noDoubleHyphen].
  intros H. apply andb_true_iff in H as [Hc Hr]. rewrite (IH Hr), andb_true_r.
  destruct r as [|d r']; [now rewrite andb_false_r|exact Hc].
Qed.

Lemma last_hyphen_double a b :
  lastSatisfies JS.isHyphen a = true -> noDoubleHyphen (a ++ "-" ++ b) = false.
Proof.
  induction a as [|c r IH]; [discriminate|].
  rewrite lastSatisfies_cons.
  change (String c r ++ "-" ++ b) with (String c (r ++ "-" ++ b)). cbn [noDoubleHyphen].
  destruct r as [|d r'].
  - cbn [JS.isEmpty]. intros ->. reflexivity.
  - cbn [JS.isEmpty]. intros H. rewrite (IH H). apply andb_false_r.
Qed.

(** The two sides of a hyphen of a slug are non-empty slugs. *)
Lemma isSlug_cut a b :
  isSlug (a ++ "-" ++ b) = true ->
  isSlug a = true /\ a <> "" /\ isSlug b = true /\ b <> "".
Proof.
  intros H. destruct (isSlug_parts _ H) as (Ha & Hd & Hs & He).
  apply dropEnd_fixed_last in He.
  rewrite !all_append in Ha. apply andb_true_iff in Ha as [Haa Hab].
  apply andb_true_iff in Hab as [_ Hab].
  assert (Hna : a <> "") by (intros ->; discriminate Hs).
  pose proof (noDoubleHyphen_prefix _ _ Hd) as Hda.
  pose proof (TitleFacts.noDoubleHyphen_suffix _ _ Hd) as Hdb.
  change ("-" ++ b) with (String "-" b) in Hdb. cbn [noDoubleHyphen] in Hdb.
  apply andb_true_iff in Hdb as [Hsb Hdb].
  change (JS.isHyphen "-") with true in Hsb. cbn [andb] in Hsb.
  apply negb_true_iff in Hsb.
  rewrite lastSatisfies_append in He by discriminate.
  change ("-" ++ b) with (String "-" b) in He. rewrite lastSatisfies_cons in He.
  assert (Hnb : b <> "") by (intros ->; discriminate He).
  assert (Hla : lastSatisfies JS.isHyphen a = false).
  { destruct (lastSatisfies JS.isHyphen a) eqn:E; [|reflexivity].
    rewrite (last_hyphen_double _ b E) in Hd. discriminate. }
  assert (Hsa : startsWithHyphen a = false)
    by (destruct a; [reflexivity|exact Hs]).
  destruct b as [|x b']; [congruence|]. cbn [JS.isEmpty] in He.
  repeat split; auto.
  - unfold isSlug. rewrite Haa, Hda, Hsa, (last_dropEnd_fixed _ _ Hla), String.eqb_refl.
    reflexivity.
  - unfold isSlug. rewrite Hab, Hdb, Hsb, (last_dropEnd_fixed _ _ He), String.eqb_refl.
    reflexivity.
Qed.

Lemma isSlug_marker a b :
  isSlug (a ++ "-in-" ++ b) = true ->
  isSlug a = true /\ a <> "" /\ isSlug b = true /\ b <> "".
Proof.
  change (a ++ "-in-" ++ b) with (a ++ "-" ++ ("in" ++ "-" ++ b)).
  intros H. destruct (isSlug_cut _ _ H) as (Ha & Hna & Hr & _).
  destruct (isSlug_cut _ _ Hr) as (_ & _ & Hb & Hnb). auto.
Qed.

(** The text up to the next marker is a non-empty slug again. *)
Lemma first_piece_slug rest :
  isSlug rest = true -> rest <> "" ->
  exists loc more,
    JS.split rest "-in-" = loc :: more /\ isSlug loc = true /\ loc <> "".
Proof.
  intros H Hn. rewrite split_unfold by discriminate.
  destruct (JS.breakOn "-in-" rest) as [[b r]|] eqn:E.
  - exists b, (JS.split r "-in-"). split; [reflexivity|].
    rewrite (breakOn_spec _ _ _ _ E) in H.
    destruct (isSlug_marker _ _ H) as (Hb & Hnb & _). auto.
  - exists rest, []. auto.
Qed.

Lemma split_last_two {A} (l : list A) :
  2 <= List.length l -> exists a x y, l = (a ++ [x; y])%list.
Proof.
  induction l as [|x l IH]; simpl; [lia|]. intros H.
  destruct l as [|y l'].
  - simpl in H. lia.
  - destruct l' as [|z l''].
    + now exists [], x, y.
    + destruct IH as (a & x' & y' & E); [simpl; lia|].
      exists (x :: a), x', y'. simpl. now rewrite E.
Qed.

Lemma hyphen_in_join x y : hyphenFree (x ++ "-" ++ y) = false.
Proof.
  induction x as [|c r IH]; [reflexivity|].
  change (String c r ++ "-" ++ y) with (String c (r ++ "-" ++ y)).
  rewrite hyphenFree_cons, IH. apply andb_false_r.
Qed.

Lemma join_nonempty c r rest : JS.isEmpty (JS.join (String c r :: rest) "-") = false.
Proof. unfold JS.join. destruct rest; reflexivity. Qed.

Lemma orTitle_same a : orTitle a a = a.
Proof. destruct a as [[|x l]|]; reflexivity. Qed.

Lemma upperUnits_nonempty c : upperUnits c <> [].
Proof. by_cases_on_char c. Qed.

Lemma joinSpace_head x l rest : exists l', joinSpace ((x :: l) :: rest) = x :: l'.
Proof. destruct rest; simpl; eauto. Qed.

(** The title of a non-empty slug is not empty. *)
Lemma title_nonempty s :
  isSlug s = true -> s <> "" -> exists c l, slugToTitle (Some s) = Some (c :: l).
Proof.
  intros Hs Hn. pose proof (TitleFacts.slug_words s Hs Hn) as Hw.
  destruct (TitleFacts.capitalize_units _ Hw) as (_ & _ & E3).
  assert (Ht : JS.truthy (Some s) = true) by (destruct s; [congruence|reflexivity]).
  unfold slugToTitle. rewrite Ht, E3.
  assert (Hsplit : JS.split s "-" <> []).
  { rewrite split_unfold by discriminate. destruct (JS.breakOn "-" s) as [[b r]|]; discriminate. }
  destruct (JS.split s "-") as [|w ws]; [congruence|].
  cbn [forallb] in Hw. apply andb_true_iff in Hw as [Hw _].
  apply andb_true_iff in Hw as [Hw _].
  destruct w as [|c r]; [discriminate|].
  cbn [List.map capitalizeLower].
  pose proof (upperUnits_nonempty c) as Hu.
  destruct (upperUnits c) as [|u us]; [congruence|].
  destruct (joinSpace_head u (us ++ units (JS.toLowerCase r)) (List.map capitalizeLower ws))
    as (l' & El).
  change ((u :: us) ++ units (JS.toLowerCase r))%list
    with (u :: (us ++ units (JS.toLowerCase r)))%list.
  rewrite El. eauto.
Qed.

Lemma title_of_word w :
  hyphenFree w = true -> w <> "" -> slugToTitle (Some w) = Some (capitalizeLower w).
Proof.
  intros Hw Hn. unfold slugToTitle.
  assert (Ht : JS.truthy (Some w) = true) by (destruct w; [congruence|reflexivity]).
  rewrite Ht, split_unfold, (breakOn_hyphen_none _ Hw) by discriminate.
  cbn [List.filter]. destruct w; [congruence|reflexivity].
Qed.

Lemma title_of_two_words p0 p1 :
  hyphenFree p0 = true -> hyphenFree p1 = true -> p0 <> "" -> p1 <> "" ->
  slugToTitle (Some (JS.join [p0; p1] "-"))
  = Some (capitalizeLower p0 ++ 32%N :: capitalizeLower p1)%list.
Proof.
  intros H0 H1 N0 N1. unfold slugToTitle.
  assert (Ht : JS.truthy (Some (JS.join [p0; p1] "-")) = true)
    by (destruct p0; [congruence|reflexivity]).
  rewrite Ht, split_join_tokens; [|discriminate|cbn [forallb]; now rewrite H0, H1].
  cbn [List.filter]. destruct p0; [congruence|]. destruct p1; [congruence|]. reflexivity.
Qed.

(** What the page and the route make of one location part. *)
Lemma location_cases loc :
  isSlug loc = true -> loc <> "" ->
  (locationTitles loc
     = (slugToTitle (snd (parseLocation loc)), slugToTitle (fst (parseLocation loc)))
   /\ forall st, snd (parseLocation loc) = Some st -> hyphenFree st = false)
  \/ (exists p1 c l,
        snd (parseLocation loc) = Some p1 /\ hyphenFree p1 = true
        /\ fst (locationTitles loc) = Some (c :: l)
        /\ fst (locationTitles loc) <> slugToTitle (Some p1)).
Proof.
  intros Hs Hn. pose proof (TitleFacts.slug_words loc Hs Hn) as Hw.
  destruct (TitleFacts.capitalize_units _ Hw) as (_ & _ & E3).
  pose proof (split_hyphenFree loc) as Hf.
  unfold locationTitles. rewrite E3. clear E3.
  destruct (JS.split loc "-") as [|p0 [|p1 [|p2 rest]]] eqn:Etok.
  - left. unfold parseLocation. rewrite Etok. split; [reflexivity|discriminate].
  - left. unfold parseLocation. rewrite Etok. split; [reflexivity|discriminate].
  - right. unfold parseLocation. rewrite Etok.
    cbn [forallb] in Hw, Hf.
    apply andb_true_iff in Hw as [Hw0 Hw1]. apply andb_true_iff in Hw1 as [Hw1 _].
    apply andb_true_iff in Hw0 as [Hw0 _]. apply andb_true_iff in Hw1 as [Hw1 _].
    apply andb_true_iff in Hf as [Hf0 Hf1]. apply andb_true_iff in Hf1 as [Hf1 _].
    assert (N0 : p0 <> "") by (intros ->; discriminate).
    assert (N1 : p1 <> "") by (intros ->; discriminate).
    change (2 <=? List.length [p0; p1]) with true. cbv beta iota zeta.
    change (lastTwo [p0; p1]) with [p0; p1].
    rewrite (title_of_two_words _ _ Hf0 Hf1 N0 N1).
    destruct (capitalizeLower p0 ++ 32%N :: capitalizeLower p1)%list as [|c l] eqn:E.
    { destruct (capitalizeLower p0); discriminate. }
    exists p1, c, l. cbn [fst snd]. rewrite (title_of_word _ Hf1 N1).
    repeat split; auto.
    intros H. injection H as H. rewrite <- E in H.
    apply (f_equal (@List.length N)) in H. rewrite length_app in H. simpl in H. lia.
  - left.
    destruct (split_last_two (p0 :: p1 :: p2 :: rest)) as (a & x & y & Ea); [simpl; lia|].
    assert (Hna : a <> []).
    { intros ->. apply (f_equal (@List.length string)) in Ea. simpl in Ea. lia. }
    rewrite Ea in *.
    rewrite (parseLocation_three loc a x y Hna Etok).
    assert (Hl : (2 <=? List.length (a ++ [x; y])) = true).
    { apply Nat.leb_le. rewrite length_app. simpl. lia. }
    rewrite Hl. unfold lastTwo, butLastTwo.
    change 2 with (List.length [x; y]).
    rewrite firstn_app_exact, skipn_app_exact.
    rewrite forallb_app in Hw. apply andb_true_iff in Hw as [Hwa _].
    destruct a as [|a0 a']; [congruence|].
    cbn [forallb] in Hwa. apply andb_true_iff in Hwa as [Hwa _].
    apply andb_true_iff in Hwa as [Hwa _].
    destruct a0 as [|c r]; [discriminate|].
    unfold orFirst, JS.orNull. rewrite join_nonempty. cbn [fst snd].
    split; [reflexivity|].
    intros st H. injection H as <-. apply hyphen_in_join.
Qed.

Lemma slug_no_slash seg :
  isSlug seg = true -> JS.dropStart isSlash seg = seg.
Proof.
  intros H. destruct (isSlug_parts _ H) as (Ha & _).
  destruct seg as [|c r]; [reflexivity|].
  cbn [JS.all] in Ha. apply andb_true_iff in Ha as [Hc _].
  cbn [JS.dropStart].
  assert (E : isSlash c = false) by (revert Hc; by_cases_on_char c).
  now rewrite E.
Qed.

(** The page at [/directory/<seg>] reads its titles off [seg]. *)
Lemma pathnameTitles_directory seg :
  isSlug seg = true -> seg <> "" ->
  pathnameTitles (Some ("/directory/" ++ seg)) =
  match JS.split seg "-in-" with
  | servicePart :: more =>
      let service :=
        if JS.isEmpty servicePart then None else slugToTitle (Some servicePart) in
      let '(state, city) :=
        match more with
        | locationPart :: _ =>
            if JS.isEmpty locationPart then (None, None) else locationTitles locationPart
        | [] => (None, None)
        end in
      {| serviceTitle := service; stateTitle := state; cityTitle := city |}
  | [] => noTitles
  end.
Proof.
  intros H Hn. unfold pathnameTitles.
  assert (E1 : JS.truthy (Some ("/directory/" ++ seg)) = true) by reflexivity.
  assert (E2 : JS.startsWith ("/directory/" ++ seg) "/directory/" = true)
    by apply MiddlewareMore.prefix_append_self.
  rewrite E1, E2. cbn [andb].
  unfold removeFirst. rewrite breakOn_at_start.
  change ("" ++ seg) with seg. rewrite (slug_no_slash _ H).
  destruct seg; [congruence|reflexivity].
Qed.

(** X20.  The SEO route at [/directory/<seg>], for a non-empty slug [seg]:
    the route parses [seg] with [parseSeoSlug], the page parses the pathname
    itself and prefers what it finds there.  The titles shown are those of
    the slugs of [parseSeoSlug] exactly when the state slug it returns is
    missing or has a hyphen, that is, unless the location part has exactly
    two words; then the page shows both words as the state. *)
Theorem seo_page_titles (seg : string) (cat : option string) :
  isSlug seg = true -> seg <> "" ->
  exists t,
    parseSeoSlug [seg] = Some t
    /\ (seoPageTitles [seg] (Some ("/directory/" ++ seg)) cat = Some (titlesOf t)
        <-> forall st, stateSlug t = Some st -> hyphenFree st = false).
Proof.
  intros H Hn. unfold seoPageTitles, shownTitles.
  rewrite (pathnameTitles_directory _ H Hn).
  unfold parseSeoSlug. change (JS.join [seg] "-") with seg.
  unfold JS.includes. rewrite split_unfold by discriminate.
  destruct (JS.breakOn "-in-" seg) as [[sv rest]|] eqn:E.
  - rewrite (breakOn_spec _ _ _ _ E) in H.
    destruct (isSlug_marker _ _ H) as (Hsv & Nsv & Hrest & Nrest).
    destruct (first_piece_slug rest Hrest Nrest) as (loc & more & -> & Hloc & Nloc).
    destruct (title_nonempty sv Hsv Nsv) as (c & l & Et).
    assert (Esv : JS.isEmpty sv = false) by (destruct sv; [congruence|reflexivity]).
    assert (Eloc : JS.isEmpty loc = false) by (destruct loc; [congruence|reflexivity]).
    rewrite Esv, Eloc. cbv zeta.
    destruct (location_cases loc Hloc Nloc) as [[El Hh] | (p1 & c1 & l1 & Es & Hp & Ec & Hd)].
    + destruct (parseLocation loc) as [ci st] eqn:Ep. cbn [fst snd] in El, Hh.
      rewrite El.
      eexists. split; [reflexivity|].
      unfold titlesOf.
      cbn [serviceTitle stateTitle cityTitle serviceSlug stateSlug citySlug].
      rewrite Et, !orTitle_same. cbn [orTitle]. split; auto.
    + destruct (parseLocation loc) as [ci st] eqn:Ep. cbn [fst snd] in Es. subst st.
      destruct (locationTitles loc) as [stT ciT] eqn:ElT. cbn [fst] in Ec, Hd. subst stT.
      eexists. split; [reflexivity|].
      unfold titlesOf.
      cbn [serviceTitle stateTitle cityTitle serviceSlug stateSlug citySlug].
      split.
      * intros Heq. injection Heq as _ Hst _. exfalso. apply Hd. exact Hst.
      * intros Hall. rewrite (Hall p1 eq_refl) in Hp. discriminate.
  - destruct (title_nonempty seg H Hn) as (c & l & Et).
    assert (Eseg : JS.isEmpty seg = false) by (destruct seg; [congruence|reflexivity]).
    rewrite Eseg. cbv zeta.
    eexists. split; [reflexivity|].
    unfold titlesOf.
    cbn [serviceTitle stateTitle cityTitle serviceSlug stateSlug citySlug].
    rewrite Et. cbn [orTitle slugToTitle]. split; [discriminate|reflexivity].
Qed.

Lemma seo_page_titles_witness :
  exists t,
    parseSeoSlug ["plumbers-in-noida-uttar-pradesh"] = Some t
    /\ (seoPageTitles ["plumbers-in-noida-uttar-pradesh"]
          (Some ("/directory/" ++ "plumbers-in-noida-uttar-pradesh")) None
        = Some (titlesOf t)
        <-> forall st, stateSlug t = Some st -> hyphenFree st = false).
Proof.
  apply (seo_page_titles "plumbers-in-noida-uttar-pradesh" None);
    [reflexivity|discriminate].
Defined.

(** With a two-word location the route takes one word each for city and
    state, and the page shows the two words as the state and the first as
    the city. *)
Example two_word_location :
  parseSeoSlug ["plumbers-in-noida-delhi"]
  = Some {| serviceSlug := Some "plumbers"; citySlug := Some "noida";
            stateSlug := Some "delhi" |}
  /\ seoPageTitles ["plumbers-in-noida-delhi"]
       (Some "/directory/plumbers-in-noida-delhi") None
     = Some {| serviceTitle := Some (units "Plumbers");
               stateTitle := Some (units "Noida Delhi");
               cityTitle := Some (units "Noida") |}.
Proof. split; reflexivity. Qed.

End DirectoryPageFacts.
